(** * LLM rerankers: listwise sliding window and pairwise strategies

    A shallow embedding of [llmrankers/listwise.py] and
    [llmrankers/pairwise.py], followed by the properties of the
    judgment-orchestration layer: permutation repair, the prompt budget
    loop, the sliding-window pass, the pairwise strategies and the result
    merger.

    Python values are modelled as follows.
    - [str] is a list of Unicode code points; [lit] turns an ASCII literal
      into one.
    - [int] is [Z]; list indices and slice bounds are [Z] too, with
      Python's treatment of negative and out-of-range values written out.
    - a computation that may raise returns an [outcome]; loops that Python
      may run forever take a fuel argument and return [Diverge] when it
      runs out.
    - scores are [Q]: the program only ever adds [1] and [0.5] to a float
      and negates small integers, which binary floating point does
      exactly.
    - the language model, the tokenizer, the chat API and [heapq] are
      parameters of the sections that use them.
    - the rankers' counters ([total_compare] and the token totals) are
      bookkeeping on which no result depends; they are left out. *)

From Stdlib Require Import List ZArith NArith QArith Lia Bool String Ascii.
From Stdlib Require Import Permutation Sorted DecimalString DecimalPos.
Import ListNotations.
Local Open Scope Z_scope.

(** [length] is the length of a list throughout. *)
Abbreviation length := List.length (only parsing).

(* ================================================================== *)
(** * Python built-ins used by the rankers *)
(* ================================================================== *)

Module Py.

(** A string is its sequence of code points. *)
Definition str : Type := list N.

Definition lit (s : string) : str := map N_of_ascii (list_ascii_of_string s).

Fixpoint str_eqb (a b : str) : bool :=
  match a, b with
  | [], [] => true
  | x :: a', y :: b' => N.eqb x y && str_eqb a' b'
  | _, _ => false
  end.

(** The exceptions that can escape the modelled code. *)
Inductive exn : Type :=
| ValueError
| IndexError
| TypeError
| AttributeError
| NotImplementedError.

(** Result of running a piece of Python: a value, an exception, or no
    answer within the fuel given to a [while] loop. *)
Inductive outcome (A : Type) : Type :=
| Ok (a : A)
| Raise (e : exn)
| Diverge.

Arguments Ok {A} a.
Arguments Raise {A} e.
Arguments Diverge {A}.

Definition bind {A B : Type} (c : outcome A) (f : A -> outcome B) : outcome B :=
  match c with
  | Ok a => f a
  | Raise e => Raise e
  | Diverge => Diverge
  end.

Declare Scope py_scope.
Delimit Scope py_scope with py.
Notation "x <- c ;; k" := (bind c (fun x => k))
  (at level 100, c at next level, right associativity) : py_scope.
Local Open Scope py_scope.

(** [for x in xs: acc = body(acc, x)], stopping at the first exception. *)
Fixpoint for_each {A S : Type} (xs : list A) (body : S -> A -> outcome S)
  (acc : S) : outcome S :=
  match xs with
  | [] => Ok acc
  | x :: rest => acc' <- body acc x ;; for_each rest body acc'
  end.

(** ** Character classes (CPython 3.11, Unicode 14.0) *)

Definition in_ranges (c : N) (rs : list (N * N)) : bool :=
  existsb (fun r => (N.leb (fst r) c && N.leb c (snd r))%bool) rs.

(** Characters for which [str.isdecimal] holds: every range is made of
    runs [0..9], so the digit value is the offset modulo ten. *)
Definition decimal_ranges : list (N * N) :=
  [ (48, 57); (1632, 1641); (1776, 1785); (1984, 1993); (2406, 2415);
    (2534, 2543); (2662, 2671); (2790, 2799); (2918, 2927); (3046, 3055);
    (3174, 3183); (3302, 3311); (3430, 3439); (3558, 3567); (3664, 3673);
    (3792, 3801); (3872, 3881); (4160, 4169); (4240, 4249); (6112, 6121);
    (6160, 6169); (6470, 6479); (6608, 6617); (6784, 6793); (6800, 6809);
    (6992, 7001); (7088, 7097); (7232, 7241); (7248, 7257); (42528, 42537);
    (43216, 43225); (43264, 43273); (43472, 43481); (43504, 43513);
    (43600, 43609); (44016, 44025); (65296, 65305); (66720, 66729);
    (68912, 68921); (69734, 69743); (69872, 69881); (69942, 69951);
    (70096, 70105); (70384, 70393); (70736, 70745); (70864, 70873);
    (71248, 71257); (71360, 71369); (71472, 71481); (71904, 71913);
    (72016, 72025); (72784, 72793); (73040, 73049); (73120, 73129);
    (92768, 92777); (92864, 92873); (93008, 93017); (120782, 120831);
    (123200, 123209); (123632, 123641); (125264, 125273);
    (130032, 130041) ]%N.

(** Characters with [Numeric_Type=Digit] that are not decimal: superscripts,
    subscripts, circled and parenthesised digits and the like. [str.isdigit]
    accepts them, [int] does not. *)
Definition digit_only_ranges : list (N * N) :=
  [ (178, 179); (185, 185); (4969, 4977); (6618, 6618); (8304, 8304);
    (8308, 8313); (8320, 8329); (9312, 9320); (9332, 9340); (9352, 9360);
    (9450, 9450); (9461, 9469); (9471, 9471); (10102, 10110);
    (10112, 10120); (10122, 10130); (68160, 68163); (69216, 69224);
    (69714, 69722); (127232, 127242) ]%N.

Definition space_ranges : list (N * N) :=
  [ (9, 13); (28, 32); (133, 133); (160, 160); (5760, 5760); (8192, 8202);
    (8232, 8233); (8239, 8239); (8287, 8287); (12288, 12288) ]%N.

Definition isdecimal (c : N) : bool := in_ranges c decimal_ranges.
Definition isdigit (c : N) : bool :=
  (isdecimal c || in_ranges c digit_only_ranges)%bool.
Definition isspace (c : N) : bool := in_ranges c space_ranges.

Definition decimal_value (c : N) : option Z :=
  match find (fun r => (N.leb (fst r) c && N.leb c (snd r))%bool) decimal_ranges with
  | Some (lo, _) => Some (Z.of_N ((c - lo) mod 10))
  | None => None
  end.

(** ** String methods *)

Fixpoint lstrip (s : str) : str :=
  match s with
  | c :: s' => if isspace c then lstrip s' else s
  | [] => []
  end.

Definition rstrip (s : str) : str := rev (lstrip (rev s)).

(** [s.strip()] *)
Definition strip (s : str) : str := rstrip (lstrip s).

(** [s.split()]: the maximal runs of non-blank characters. [word] holds the
    current run, reversed. *)
Fixpoint split_from (word : str) (s : str) : list str :=
  match s with
  | [] => match word with [] => [] | _ => [rev word] end
  | c :: s' =>
      if isspace c
      then match word with
           | [] => split_from [] s'
           | _ => rev word :: split_from [] s'
           end
      else split_from (c :: word) s'
  end.

Definition split (s : str) : list str := split_from [] s.

(** [sep.join(words)] *)
Fixpoint join (sep : str) (words : list str) : str :=
  match words with
  | [] => []
  | [w] => w
  | w :: rest => w ++ sep ++ join sep rest
  end.

Fixpoint startswith (s prefix : str) : bool :=
  match prefix, s with
  | [], _ => true
  | p :: prefix', c :: s' => N.eqb p c && startswith s' prefix'
  | _ :: _, [] => false
  end.

(** [needle in s] *)
Fixpoint contains (s needle : str) : bool :=
  startswith s needle ||
  match s with
  | [] => false
  | _ :: s' => contains s' needle
  end.

(** [s.replace(old, new)] for a non-empty [old]: occurrences are replaced
    left to right without overlap; [skip] counts the characters of a match
    still to be dropped. *)
Fixpoint replace_from (old new : str) (skip : nat) (s : str) : str :=
  match s with
  | [] => []
  | c :: s' =>
      match skip with
      | S k => replace_from old new k s'
      | O =>
          if startswith s old
          then new ++ replace_from old new (List.length old - 1)%nat s'
          else c :: replace_from old new O s'
      end
  end.

Definition replace (s old new : str) : str := replace_from old new O s.

(** [str(n)] for an integer. *)
Definition str_of_int (n : Z) : str := lit (NilZero.string_of_int (Z.to_int n)).

(** ** [int(s)]

    On a string made of [isdigit] characters (the only strings the rankers
    convert) [int] succeeds exactly when every character is a decimal digit
    and the string is non-empty and no longer than the interpreter's limit on
    integer string conversion. *)
Definition int_max_str_digits : Z := 4300.

Fixpoint digits_value (acc : Z) (s : str) : option Z :=
  match s with
  | [] => Some acc
  | c :: s' =>
      match decimal_value c with
      | Some d => digits_value (10 * acc + d) s'
      | None => None
      end
  end.

Definition int (s : str) : outcome Z :=
  match s with
  | [] => Raise ValueError
  | _ =>
      if int_max_str_digits <? Z.of_nat (List.length s) then Raise ValueError
      else match digits_value 0 s with
           | Some z => Ok z
           | None => Raise ValueError
           end
  end.

(** ** Lists: [len], indexing, slicing *)

Definition len {A : Type} (l : list A) : Z := Z.of_nat (List.length l).

(** A slice bound clipped as Python does for a list of [n] elements. *)
Definition adjust (n i : Z) : Z :=
  if i <? 0 then Z.max 0 (i + n) else Z.min i n.

(** [l[start:stop]] *)
Definition slice {A : Type} (l : list A) (start stop : Z) : list A :=
  let a := adjust (len l) start in
  let b := adjust (len l) stop in
  firstn (Z.to_nat (b - a)) (skipn (Z.to_nat a) l).

(** The position an index denotes, when it denotes one. *)
Definition position {A : Type} (l : list A) (i : Z) : option nat :=
  let j := if i <? 0 then i + len l else i in
  if ((0 <=? j) && (j <? len l))%bool then Some (Z.to_nat j) else None.

(** [l[i]] *)
Definition getitem {A : Type} (l : list A) (i : Z) : outcome A :=
  match position l i with
  | Some p => match nth_error l p with
              | Some x => Ok x
              | None => Raise IndexError
              end
  | None => Raise IndexError
  end.

Fixpoint update {A : Type} (l : list A) (p : nat) (x : A) : list A :=
  match l, p with
  | [], _ => []
  | _ :: l', O => x :: l'
  | y :: l', S p' => y :: update l' p' x
  end.

(** [l[i] = x] *)
Definition setitem {A : Type} (l : list A) (i : Z) (x : A) : outcome (list A) :=
  match position l i with
  | Some p => Ok (update l p x)
  | None => Raise IndexError
  end.

(** [l[start:stop] = new] *)
Definition setslice {A : Type} (l : list A) (start stop : Z) (new : list A) : list A :=
  let a := adjust (len l) start in
  let b := Z.max a (adjust (len l) stop) in
  firstn (Z.to_nat a) l ++ new ++ skipn (Z.to_nat b) l.

(** [range(n)] and [range(0, n, 2)] *)
Definition range2 (n : Z) : list Z :=
  map (fun j => 2 * Z.of_nat j) (seq 0 (Z.to_nat ((n + 1) / 2))).

Definition range (n : Z) : list Z := map Z.of_nat (seq 0 (Z.to_nat n)).

(** [x in l] for a list of integers. *)
Definition mem (x : Z) (l : list Z) : bool := existsb (Z.eqb x) l.

(** [x in l] for a list or set of strings. *)
Definition str_mem (x : str) (l : list str) : bool := existsb (str_eqb x) l.

(** ** Dynamically typed values, as far as [heapSort] needs them *)

Inductive value : Type :=
| VStr (s : str)
| VInt (n : Z)
| VBool (b : bool).

(** Unary minus: defined on numbers, a [TypeError] on a string. *)
Definition neg (v : value) : outcome value :=
  match v with
  | VStr _ => Raise TypeError
  | VInt n => Ok (VInt (- n))
  | VBool b => Ok (VInt (- (if b then 1 else 0)))
  end.

(** [a == b] *)
Definition value_eqb (a b : value) : bool :=
  match a, b with
  | VStr x, VStr y => str_eqb x y
  | VInt x, VInt y => Z.eqb x y
  | VBool x, VBool y => Bool.eqb x y
  | VInt x, VBool y | VBool y, VInt x => Z.eqb x (if y then 1 else 0)
  | _, _ => false
  end.

End Py.

Import Py.
Local Open Scope py_scope.


(* ================================================================== *)
(** * [llmrankers.rankers]: the document record *)
(* ================================================================== *)

Module Rankers.

(** Modelled from the spec: the [SearchResult] class lives in
    [llmrankers/rankers.py], which is not among the sources; the spec's data
    model gives a document a [docid], an optional [text] and a numeric
    [score]. *)
Record SearchResult : Type := mkSearchResult {
  docid : str;
  score : Q;
  text : option str
}.

End Rankers.

Import Rankers.

(* ================================================================== *)
(** * [llmrankers/listwise.py] *)
(* ================================================================== *)

Module Listwise.

Definition max_tokens (model : str) : Z :=
  if contains model (lit "gpt-4") then 8192 else 4096.

(** A chat message: the dictionary [{'role': ..., 'content': ...}]. *)
Record message : Type := mkMessage {
  role : str;
  content : str
}.

Definition newline : str := [10%N].

Definition get_post_prompt (query : str) (num : Z) : str :=
  lit "Search Query: " ++ query ++ lit ". " ++ newline ++
  lit "Rank the " ++ str_of_int num ++
  lit " passages above based on their relevance to the search query. The passages should be listed in descending order using identifiers. The most relevant passages should be listed first. The output format should be [] > [], e.g., [1] > [2]. Only response the ranking results, do not say any word or explain.".

Definition get_prefix_prompt (query : str) (num : Z) : list message :=
  [ mkMessage (lit "system")
      (lit "You are RankGPT, an intelligent assistant that can rank passages based on their relevancy to the query.");
    mkMessage (lit "user")
      (lit "I will provide you with " ++ str_of_int num ++
       lit " passages, each indicated by number identifier []. " ++ newline ++
       lit "Rank the passages based on their relevance to query: " ++ query ++ lit ".");
    mkMessage (lit "assistant") (lit "Okay, please provide the passages.") ].

Section PromptBudget.

(** [len(encoding.encode(value))]: the tokenizer's count for one string. *)
Variable encode_len : str -> Z.

Definition tokens_per_message (model : str) : Z :=
  if (str_eqb model (lit "gpt-3.5-turbo") || str_eqb model (lit "gpt-3.5-turbo-0301"))%bool
  then 4
  else if (str_eqb model (lit "gpt-4") || str_eqb model (lit "gpt-4-0314"))%bool
  then 3
  else 0.

(** No message carries a ["name"] key, so [tokens_per_name] never counts. *)
Definition num_tokens_from_messages (messages : list message) (model : str) : Z :=
  fold_left
    (fun num_tokens m =>
       num_tokens + tokens_per_message model + encode_len (role m) + encode_len (content m))
    messages 0
  + 3.

(** The body of the [for doc in docs] loop: the two turns added for the
    document of the given rank. *)
Definition passage_turns (max_length : Z) (rank : Z) (doc : SearchResult)
  : outcome (list message) :=
  match text doc with
  | None => Raise AttributeError
  | Some content =>
      let content := replace content (lit "Title: Content: ") [] in
      let content := strip content in
      let content := join (lit " ") (slice (split content) 0 max_length) in
      Ok [ mkMessage (lit "user") (lit "[" ++ str_of_int rank ++ lit "] " ++ content);
           mkMessage (lit "assistant")
             (lit "Received passage [" ++ str_of_int rank ++ lit "].") ]
  end.

Fixpoint passages (max_length : Z) (rank : Z) (docs : list SearchResult)
  : outcome (list message) :=
  match docs with
  | [] => Ok []
  | doc :: rest =>
      turns <- passage_turns max_length (rank + 1) doc ;;
      more <- passages max_length (rank + 1) rest ;;
      Ok (turns ++ more)
  end.

(** One round of the [while True] loop up to the budget test. *)
Definition build_messages (query : str) (docs : list SearchResult) (max_length : Z)
  : outcome (list message) :=
  let num := len docs in
  turns <- passages max_length 0 docs ;;
  Ok (get_prefix_prompt query num ++ turns ++
      [mkMessage (lit "user") (get_post_prompt query num)]).

Fixpoint shrink_to_fit (fuel : nat) (query : str) (docs : list SearchResult)
  (model_name : option str) (max_length : Z) : outcome (list message) :=
  match fuel with
  | O => Diverge
  | S fuel' =>
      messages <- build_messages query docs max_length ;;
      match model_name with
      | Some name =>
          if num_tokens_from_messages messages name <=? max_tokens name - 200
          then Ok messages
          else shrink_to_fit fuel' query docs model_name (max_length - 1)
      | None => Ok messages
      end
  end.

Definition create_permutation_instruction_chat (fuel : nat) (query : str)
  (docs : list SearchResult) (model_name : option str) : outcome (list message) :=
  shrink_to_fit fuel query docs model_name 300.

End PromptBudget.

(** The body of the [for doc in docs] loop of
    [create_permutation_instruction_complete]: the text added for the
    documents from the given rank on. *)
Fixpoint complete_passages (rank : Z) (docs : list SearchResult) : outcome str :=
  match docs with
  | [] => Ok []
  | doc :: rest =>
      match text doc with
      | None => Raise AttributeError
      | Some content =>
          let content := replace content (lit "Title: Content: ") [] in
          let content := strip content in
          let content := join (lit " ") (slice (split content) 0 300) in
          more <- complete_passages (rank + 1) rest ;;
          Ok (lit "[" ++ str_of_int (rank + 1) ++ lit "] " ++ content
              ++ newline ++ newline ++ more)
      end
  end.

Definition create_permutation_instruction_complete (query : str)
  (docs : list SearchResult) : outcome str :=
  let num := len docs in
  let message :=
    lit "This is RankGPT, an intelligent assistant that can rank passages based on their relevancy to the query."
    ++ newline ++ newline ++
    lit "The following are " ++ str_of_int num ++
    lit " passages, each indicated by number identifier []. " ++
    lit "I can rank them based on their relevance to query: " ++ query
    ++ newline ++ newline in
  listed <- complete_passages 0 docs ;;
  Ok (message ++ listed ++
      lit "The search query is: " ++ query ++
      lit "I will rank the " ++ str_of_int num ++
      lit " passages above based on their relevance to the search query. The passages " ++
      lit "will be listed in descending order using identifiers, and the most relevant passages should be listed " ++
      lit "first, and the output format should be [] > [] > etc, e.g., [1] > [2] > etc." ++
      newline ++ newline ++
      lit "The ranking results of the " ++ str_of_int num ++
      lit " passages (only identifiers) is:").


(** The label of the passage of index [i] in an answer, [f"[{str(i+1)}]"]:
    what the likelihood scoring of [ListwiseLlmRanker.compare] joins with
    [">"], and what [get_post_prompt] asks the model to join with [" > "]. *)
Definition passage_label (i : Z) : str := lit "[" ++ str_of_int (i + 1) ++ lit "]".

(** ** Permutation repair *)

(** Every character that is not a digit becomes a blank; the result is
    stripped. *)
Definition clean_response (response : str) : str :=
  strip (map (fun c => if isdigit c then c else 32%N) response).

(** Keeps the first occurrence of every entry. *)
Definition remove_duplicate (response : list Z) : list Z :=
  fold_left (fun new_response c => if mem c new_response then new_response
                                   else new_response ++ [c])
            response [].

(** [[int(x) - 1 for x in response.split()]] *)
Definition parse_response (response : str) : outcome (list Z) :=
  for_each (split response) (fun acc x => n <- int x ;; Ok (acc ++ [n - 1])) [].

(** Lines 154-162 of [receive_permutation]: the order in which the
    [window] documents of the cut are written back. *)
Definition resolve_permutation (permutation : str) (window : Z) : outcome (list Z) :=
  let response := clean_response permutation in
  response <- parse_response response ;;
  let response := remove_duplicate response in
  let original_rank := range window in
  let response := filter (fun ss => mem ss original_rank) response in
  Ok (response ++ filter (fun tt => negb (mem tt response)) original_rank).

(** The responses [receive_permutation] can convert: [int] accepts every
    token of the cleaned text. *)
Definition parses (permutation : str) : Prop :=
  exists response, parse_response (clean_response permutation) = Ok response.

(** A list that is mutated in place, together with how the mutating call
    ended: the list is left as the last successful assignment made it. *)
Definition mutated : Type := (list SearchResult * outcome unit)%type.

(** [for j, x in enumerate(response): ranking[j + rank_start] = cut_range[x]] *)
Fixpoint write_back (ranking cut_range : list SearchResult) (rank_start j : Z)
  (response : list Z) : mutated :=
  match response with
  | [] => (ranking, Ok tt)
  | x :: rest =>
      match (doc <- getitem cut_range x ;; setitem ranking (j + rank_start) doc) with
      | Ok ranking' => write_back ranking' cut_range rank_start (j + 1) rest
      | Raise e => (ranking, Raise e)
      | Diverge => (ranking, Diverge)
      end
  end.

(** [copy.deepcopy] gives documents equal to the ones copied, so the cut is
    the slice itself. The response is converted before the first
    assignment: when the conversion raises, the list is as it was. *)
Definition receive_permutation (ranking : list SearchResult) (permutation : str)
  (rank_start rank_end : Z) : mutated :=
  let cut_range := slice ranking rank_start rank_end in
  match resolve_permutation permutation (len cut_range) with
  | Ok response => write_back ranking cut_range rank_start 0 response
  | Raise e => (ranking, Raise e)
  | Diverge => (ranking, Diverge)
  end.

(** The value a mutating call returns: the list itself, when it returns. *)
Definition returned (m : mutated) : outcome (list SearchResult) :=
  match snd m with
  | Ok _ => Ok (fst m)
  | Raise e => Raise e
  | Diverge => Diverge
  end.

(** ** [OpenAiListwiseLlmRanker.compare] *)

(** What one call of [openai.ChatCompletion.create] and the reading of its
    reply inside the [try] block come to. *)
Inductive api_reply : Type :=
| Completion (content : str)
| Failure (message : str).

Section OpenAiCompare.

Variable encode_len : str -> Z.
(** The reply to the [attempt]-th request of one [compare] call. *)
Variable chat_completion : nat -> list message -> api_reply.
Variable llm : str.

Definition context_length_marker : str :=
  lit "This model's maximum context length is".

Definition reduce_length : str := lit "ERROR::reduce_length".

Fixpoint request_loop (fuel attempt : nat) (messages : list message) : outcome str :=
  match fuel with
  | O => Diverge
  | S fuel' =>
      match chat_completion attempt messages with
      | Completion content => Ok content
      | Failure e =>
          if contains e context_length_marker then Ok reduce_length
          else request_loop fuel' (S attempt) messages
      end
  end.

Definition openai_compare (fuel : nat) (query : str) (docs : list SearchResult)
  : outcome str :=
  messages <- create_permutation_instruction_chat encode_len fuel query docs (Some llm) ;;
  request_loop fuel O messages.

End OpenAiCompare.

(** ** [OpenAiListwiseLlmRanker.rerank] *)

Section Rerank.

(** [self.compare], which the subclasses override, and the ranker's
    settings. *)
Variable compare : str -> list SearchResult -> outcome str.
Variable window_size step_size num_repeat : Z.

(** The [while start_pos >= 0] loop. [visited] is a ghost record of the
    values [start_pos] had when [compare] was called. *)
Fixpoint window_loop (fuel : nat) (query : str) (ranking : list SearchResult)
  (start_pos : Z) (visited : list Z) : outcome (list SearchResult * list Z) :=
  match fuel with
  | O => Diverge
  | S fuel' =>
      if 0 <=? start_pos then
        let window_docs := slice ranking start_pos (start_pos + window_size) in
        permutation <- compare query window_docs ;;
        ranking <- returned (receive_permutation ranking permutation start_pos
                               (start_pos + window_size)) ;;
        window_loop fuel' query ranking (start_pos - step_size) (visited ++ [start_pos])
      else Ok (ranking, visited)
  end.

(** One round of [for _ in range(self.num_repeat)]. *)
Definition rerank_pass (fuel : nat) (query : str) (ranking : list SearchResult)
  : outcome (list SearchResult * list Z) :=
  let end_pos := len ranking in
  let start_pos := end_pos - window_size in
  window_loop fuel query ranking start_pos [].

(** [for i, doc in enumerate(ranking): doc.score = -i] *)
Fixpoint assign_scores (i : Z) (ranking : list SearchResult) : list SearchResult :=
  match ranking with
  | [] => []
  | doc :: rest =>
      mkSearchResult (docid doc) (inject_Z (- i)) (text doc) :: assign_scores (i + 1) rest
  end.

Definition rerank (fuel : nat) (query : str) (ranking : list SearchResult)
  : outcome (list SearchResult) :=
  ranking <- for_each (range num_repeat)
               (fun ranking _ => r <- rerank_pass fuel query ranking ;; Ok (fst r))
               ranking ;;
  Ok (assign_scores 0 ranking).

End Rerank.

End Listwise.

(* ================================================================== *)
(** * [llmrankers/pairwise.py] *)
(* ================================================================== *)

Module ComparableDoc.

(** The [ranker] attribute is the ranker that built the document; the
    comparison below takes its [compare] as an argument instead. *)
Record t : Type := make {
  docid : str;
  text : option str
}.

(** [__gt__] *)
Definition gt (compare : str -> option str -> option str -> str * str)
  (self other : t) : bool :=
  let out := compare [] (text self) (text other) in
  (str_eqb (fst out) (lit "Passage A") && str_eqb (snd out) (lit "Passage B"))%bool.

End ComparableDoc.

Module Pairwise.

Definition quote : str := [34%N].
Definition newline : str := [10%N].

(** How [str.format] renders a document text. *)
Definition format_text (t : option str) : str :=
  match t with
  | Some s => s
  | None => lit "None"
  end.

(** [self.prompt.format(query=query, doc1=doc1, doc2=doc2)] *)
Definition prompt (query : str) (doc1 doc2 : option str) : str :=
  lit "Given a query " ++ quote ++ query ++ quote ++
  lit ", which of the following two passages is more relevant to the query?" ++
  newline ++ newline ++
  lit "Passage A: " ++ quote ++ format_text doc1 ++ quote ++ newline ++ newline ++
  lit "Passage B: " ++ quote ++ format_text doc2 ++ quote ++ newline ++ newline ++
  lit "Output Passage A or Passage B:".

(** [itertools.combinations(l, 2)] *)
Fixpoint combinations {A : Type} (l : list A) : list (A * A) :=
  match l with
  | [] => []
  | x :: rest => map (pair x) rest ++ combinations rest
  end.

(** ** The score table: a [defaultdict(float)] in insertion order *)

Definition scores_dict : Type := list (str * Q).

(** [scores[key] += delta] *)
Fixpoint dict_add (scores : scores_dict) (key : str) (delta : Q) : scores_dict :=
  match scores with
  | [] => [(key, Qred (0 + delta))]
  | (k, v) :: rest =>
      if str_eqb k key then (k, Qred (v + delta)) :: rest
      else (k, v) :: dict_add rest key delta
  end.

(** [sum(scores.values())] *)
Definition sum_scores (scores : scores_dict) : Q :=
  fold_right (fun entry total => (snd entry + total)%Q) 0%Q scores.

(** [sorted(l, key=lambda x: x.score, reverse=True)]: descending and stable. *)
Fixpoint insert_desc (x : SearchResult) (sorted : list SearchResult) : list SearchResult :=
  match sorted with
  | [] => [x]
  | y :: rest =>
      if Qle_bool (score y) (score x) then x :: y :: rest
      else y :: insert_desc x rest
  end.

Definition sorted_by_score (l : list SearchResult) : list SearchResult :=
  fold_right insert_desc [] l.

(** [[SearchResult(docid=doc.docid, score=-i, text=None) for i, doc in
    enumerate(arr)]], counting from [i]. *)
Fixpoint enumerate_results (i : Z) (arr : list ComparableDoc.t) : list SearchResult :=
  match arr with
  | [] => []
  | doc :: rest =>
      mkSearchResult (ComparableDoc.docid doc) (inject_Z (- i)) None
        :: enumerate_results (i + 1) rest
  end.

(** ** The result merger (the end of [rerank]) *)

(** [results.append(SearchResult(docid=doc.docid, score=-rank, text=None));
    rank += 1] *)
Definition append_result (st : list SearchResult * Z) (doc : SearchResult)
  : list SearchResult * Z :=
  (fst st ++ [mkSearchResult (docid doc) (inject_Z (- snd st)) None], snd st + 1).

Definition merge_results (ranking original_ranking : list SearchResult) (k : Z)
  : list SearchResult :=
  let top := slice ranking 0 k in
  let top_doc_ids := map docid top in
  let st := fold_left append_result top ([], 1) in
  let st := fold_left
              (fun st doc => if str_mem (docid doc) top_doc_ids then st
                             else append_result st doc)
              original_ranking st in
  fst st.

(** The value [scores[key]] stands for: [0.0] for a key without entry. *)
Fixpoint dict_get (scores : scores_dict) (key : str) : Q :=
  match scores with
  | [] => 0
  | (k, v) :: rest => if str_eqb k key then v else dict_get rest key
  end.

Section Ranker.

(** The two decoded outputs of the language model on the two prompts of one
    [compare] call. *)
Variable judge : str -> str -> str * str.
(** The decoded outputs of the language model on the batched prompts of the
    all-pairs strategy, one per prompt. *)
Variable generate : list str -> list str.
(** [heapq] on a list of [(key, doc)] entries. *)
Variable heappush : list (value * ComparableDoc.t) -> value * ComparableDoc.t
                    -> list (value * ComparableDoc.t).
Variable heappop_nonempty : list (value * ComparableDoc.t)
                            -> (value * ComparableDoc.t) * list (value * ComparableDoc.t).
(** The ranker's settings. *)
Variable method : str.
Variable k : Z.

Definition compare (query : str) (doc1 doc2 : option str) : str * str :=
  judge (prompt query doc1 doc2) (prompt query doc2 doc1).

(** [heapq.heappop]: popping an empty heap raises. *)
Definition heappop (heap : list (value * ComparableDoc.t))
  : outcome ((value * ComparableDoc.t) * list (value * ComparableDoc.t)) :=
  match heap with
  | [] => Raise IndexError
  | _ => Ok (heappop_nonempty heap)
  end.

(** The key of the heap entry of [doc]:
    [-self.compare("", [doc.text, arr[0].text])[0] == "Passage A"]. Unary
    minus binds tighter than [==], so it is applied to the model's output. *)
Definition heap_key (arr : list ComparableDoc.t) (doc : ComparableDoc.t) : outcome value :=
  anchor <- getitem arr 0 ;;
  let out := compare [] (ComparableDoc.text doc) (ComparableDoc.text anchor) in
  negated <- neg (VStr (fst out)) ;;
  Ok (VBool (value_eqb negated (VStr (lit "Passage A")))).

(** Returns the new contents of [arr] ([arr[:] = sorted_arr]). *)
Definition heapSort (arr : list ComparableDoc.t) (top : Z) : outcome (list ComparableDoc.t) :=
  heap <- for_each arr
            (fun heap doc => key <- heap_key arr doc ;; Ok (heappush heap (key, doc)))
            [] ;;
  popped <- for_each (range top)
              (fun st _ =>
                 item <- heappop (fst st) ;;
                 Ok (snd item, snd st ++ [snd (fst item)]))
              (heap, []) ;;
  Ok (snd popped).

(** The body of the inner loop of [bubblesort]. *)
Definition bubble_step (query : str) (arr : list ComparableDoc.t) (j : Z)
  : outcome (list ComparableDoc.t) :=
  a <- getitem arr j ;;
  b <- getitem arr (j + 1) ;;
  if str_eqb (fst (compare query (ComparableDoc.text a) (ComparableDoc.text b)))
             (lit "Passage B")
  then arr <- setitem arr j b ;; setitem arr (j + 1) a
  else Ok arr.

(** Returns the new contents of [ranking], which the method updates in
    place. *)
Definition bubblesort (query : str) (ranking : list SearchResult) (top : Z)
  : outcome (list SearchResult) :=
  let arr := map (fun doc => ComparableDoc.make (docid doc) (text doc))
                 (slice ranking 0 top) in
  arr <- for_each (range top)
           (fun arr i =>
              for_each (range (top - i - 1)) (fun arr j => bubble_step query arr j) arr)
           arr ;;
  Ok (setslice ranking 0 top (enumerate_results 0 arr)).

(** One round of the scoring loop of the all-pairs strategy. *)
Definition score_pair (doc_pairs : list (SearchResult * SearchResult))
  (outputs : list str) (scores : scores_dict) (i : Z) : outcome scores_dict :=
  docs <- getitem doc_pairs (i / 2) ;;
  output1 <- getitem outputs i ;;
  output2 <- getitem outputs (i + 1) ;;
  if (str_eqb output1 (lit "Passage A") && str_eqb output2 (lit "Passage B"))%bool
  then Ok (dict_add scores (docid (fst docs)) 1)
  else if (str_eqb output1 (lit "Passage B") && str_eqb output2 (lit "Passage A"))%bool
  then Ok (dict_add scores (docid (snd docs)) 1)
  else Ok (dict_add (dict_add scores (docid (fst docs)) (1 # 2))
                    (docid (snd docs)) (1 # 2)).

Definition accumulate_scores (doc_pairs : list (SearchResult * SearchResult))
  (outputs : list str) : outcome scores_dict :=
  for_each (range2 (len outputs)) (score_pair doc_pairs outputs) [].

Definition allpair_prompts (query : str) (doc_pairs : list (SearchResult * SearchResult))
  : list str :=
  flat_map (fun docs => [ prompt query (text (fst docs)) (text (snd docs));
                          prompt query (text (snd docs)) (text (fst docs)) ])
           doc_pairs.

Definition allpair (query : str) (ranking : list SearchResult)
  : outcome (list SearchResult) :=
  let doc_pairs := combinations ranking in
  let outputs := generate (allpair_prompts query doc_pairs) in
  scores <- accumulate_scores doc_pairs outputs ;;
  Ok (sorted_by_score (map (fun entry => mkSearchResult (fst entry) (snd entry) None) scores)).

Definition rerank (query : str) (ranking : list SearchResult)
  : outcome (list SearchResult) :=
  let original_ranking := ranking in
  ranking <-
    (if str_eqb method (lit "allpair") then allpair query ranking
     else if str_eqb method (lit "heapsort") then
       let arr := map (fun doc => ComparableDoc.make (docid doc) (text doc)) ranking in
       arr <- heapSort arr k ;;
       Ok (enumerate_results 0 (rev arr))
     else if str_eqb method (lit "bubblesort") then bubblesort query ranking k
     else Raise NotImplementedError) ;;
  Ok (merge_results ranking original_ranking k).

End Ranker.

End Pairwise.

(* ================================================================== *)
(** * Sample inputs for concrete runs *)
(* ================================================================== *)

Module Samples.

Definition doc (name : string) : SearchResult :=
  mkSearchResult (lit name) 0 (Some (lit "passage " ++ lit name)).

Definition three_docs : list SearchResult := [doc "a"; doc "b"; doc "c"].

Definition ten_docs : list SearchResult :=
  [doc "d0"; doc "d1"; doc "d2"; doc "d3"; doc "d4";
   doc "d5"; doc "d6"; doc "d7"; doc "d8"; doc "d9"].

(** A listwise oracle that always puts the second passage first. *)
Definition second_first (query : str) (docs : list SearchResult) : outcome str :=
  Ok (lit "[2] > [1]").

(** A pairwise model that always names the second passage. *)
Definition prefers_second (prompt1 prompt2 : str) : str * str :=
  (lit "Passage B", lit "Passage A").

(** A batched model that answers every prompt with ["Passage A"], so that
    every double judgment is a conflict. *)
Definition always_a (prompts : list str) : list str :=
  map (fun _ => lit "Passage A") prompts.

(** A stand-in for [heapq] that keeps the entries in arrival order. *)
Definition push_front (heap : list (value * ComparableDoc.t))
  (item : value * ComparableDoc.t) : list (value * ComparableDoc.t) :=
  item :: heap.

Definition pop_front (heap : list (value * ComparableDoc.t))
  : (value * ComparableDoc.t) * list (value * ComparableDoc.t) :=
  match heap with
  | item :: rest => (item, rest)
  | [] => ((VBool false, ComparableDoc.make [] None), [])
  end.

(** A chat API that rejects every request as too long. *)
Definition too_long (attempt : nat) (messages : list Listwise.message) : Listwise.api_reply :=
  Listwise.Failure
    (lit "This model's maximum context length is 4097 tokens. However, your messages resulted in 5000 tokens.").

(** A candidate without text. *)
Definition no_text : SearchResult := mkSearchResult (lit "b") 0 None.

(** A chat API that is rate limited on its first two attempts and then
    answers. *)
Definition flaky (attempt : nat) (messages : list Listwise.message) : Listwise.api_reply :=
  if (attempt <? 2)%nat then Listwise.Failure (lit "Rate limit reached")
  else Listwise.Completion (lit "[2] > [1]").

(** A chat API that is always rate limited. *)
Definition rate_limited (attempt : nat) (messages : list Listwise.message)
  : Listwise.api_reply :=
  Listwise.Failure (lit "Rate limit reached").

(** Code point order on strings. *)
Fixpoint str_ltb (a b : str) : bool :=
  match a, b with
  | _, [] => false
  | [], _ :: _ => true
  | x :: a', y :: b' => ((x <? y)%N || ((x =? y)%N && str_ltb a' b'))%bool
  end.

(** A pairwise model that prefers the passage that comes later in code point
    order: the two prompts of a judgment first differ in their Passage A. *)
Definition prefers_later (prompt1 prompt2 : str) : str * str :=
  if str_ltb prompt1 prompt2 then (lit "Passage B", lit "Passage A")
  else (lit "Passage A", lit "Passage B").

(** The relevance that model follows on the sample documents: the last
    code point of the text. *)
Definition last_code_point (t : option str) : Z :=
  match t with
  | Some s => Z.of_N (last s 0%N)
  | None => 0
  end.

(** A batched model that answers every two consecutive prompts, the two
    orders of one pair, as [prefers_later] does. *)
Fixpoint batch_prefers_later (prompts : list str) : list str :=
  match prompts with
  | prompt1 :: prompt2 :: rest =>
      fst (prefers_later prompt1 prompt2) :: snd (prefers_later prompt1 prompt2)
        :: batch_prefers_later rest
  | _ => []
  end.

End Samples.

(* ================================================================== *)
(** * Facts about the Python built-ins *)
(* ================================================================== *)

Section PyFacts.

Context {A : Type}.

Lemma str_eqb_eq (a b : str) : str_eqb a b = true <-> a = b.
Proof.
  revert b; induction a as [|x a IH]; intros [|y b]; simpl; try easy.
  rewrite andb_true_iff, N.eqb_eq, IH.
  split; [intros [-> ->]; reflexivity | intros H; inversion H; auto].
Qed.

Lemma str_eqb_refl (a : str) : str_eqb a a = true.
Proof. now apply str_eqb_eq. Qed.

Lemma mem_In (x : Z) (l : list Z) : mem x l = true <-> In x l.
Proof.
  unfold mem; rewrite existsb_exists; split.
  - intros (y & Hy & E); apply Z.eqb_eq in E; now subst.
  - intros H; exists x; split; [assumption | apply Z.eqb_refl].
Qed.

Lemma mem_not_In (x : Z) (l : list Z) : mem x l = false <-> ~ In x l.
Proof.
  rewrite <- mem_In; destruct (mem x l); split; congruence.
Qed.

Lemma str_mem_In (x : str) (l : list str) : str_mem x l = true <-> In x l.
Proof.
  unfold str_mem; rewrite existsb_exists; split.
  - intros (y & Hy & E); apply str_eqb_eq in E; now subst.
  - intros H; exists x; split; [assumption | apply str_eqb_refl].
Qed.

Lemma len_nonneg (l : list A) : 0 <= len l.
Proof. unfold len; lia. Qed.

Lemma In_range (w x : Z) : In x (range w) <-> 0 <= x < w.
Proof.
  unfold range; rewrite in_map_iff; split.
  - intros (n & <- & Hn); apply in_seq in Hn; lia.
  - intros H; exists (Z.to_nat x); split; [lia | apply in_seq; lia].
Qed.

Lemma NoDup_range (w : Z) : NoDup (range w).
Proof.
  unfold range; apply Finite.Injective_map_NoDup; [|apply seq_NoDup].
  intros a b H; lia.
Qed.

Lemma length_range (w : Z) : length (range w) = Z.to_nat w.
Proof. unfold range; now rewrite length_map, length_seq. Qed.

Lemma update_length (l : list A) (p : nat) (x : A) : length (update l p x) = length l.
Proof.
  revert p; induction l as [|y l IH]; intros [|p]; simpl; auto.
Qed.

Lemma nth_error_update_eq (l : list A) (p : nat) (x : A) :
  (p < length l)%nat -> nth_error (update l p x) p = Some x.
Proof.
  revert p; induction l as [|y l IH]; intros [|p] H; simpl in *; try lia; auto.
  apply IH; lia.
Qed.

Lemma nth_error_update_neq (l : list A) (p q : nat) (x : A) :
  p <> q -> nth_error (update l p x) q = nth_error l q.
Proof.
  revert p q; induction l as [|y l IH]; intros [|p] [|q] H; simpl; auto; try congruence.
Qed.

Lemma position_bound (l : list A) (i : Z) (p : nat) :
  position l i = Some p ->
  (p < length l)%nat /\ Z.of_nat p = (if i <? 0 then i + len l else i).
Proof.
  unfold position, len.
  destruct (i <? 0) eqn:Ei;
    match goal with |- context [if ?c then _ else _] => destruct c eqn:E end;
    intros H; inversion H; subst; lia.
Qed.

Lemma position_nonneg (l : list A) (i : Z) :
  0 <= i < len l -> position l i = Some (Z.to_nat i).
Proof.
  unfold position; intros H.
  replace (i <? 0) with false by lia.
  replace ((0 <=? i) && (i <? len l))%bool with true by lia.
  reflexivity.
Qed.

Lemma setitem_length (l l' : list A) (i : Z) (x : A) :
  setitem l i x = Ok l' -> length l' = length l.
Proof.
  unfold setitem; destruct (position l i); intros H; inversion H.
  apply update_length.
Qed.

Lemma getitem_nonneg (l : list A) (i : Z) (x : A) :
  0 <= i -> nth_error l (Z.to_nat i) = Some x -> getitem l i = Ok x.
Proof.
  intros Hi Hx; unfold getitem.
  assert (Z.to_nat i < length l)%nat by (apply nth_error_Some; congruence).
  rewrite position_nonneg by (unfold len; lia).
  now rewrite Hx.
Qed.

Lemma slice_length (l : list A) (a b : Z) :
  len (slice l a b) = Z.max 0 (adjust (len l) b - adjust (len l) a).
Proof.
  unfold slice, len, adjust.
  rewrite length_firstn, length_skipn.
  destruct (a <? 0) eqn:Ea, (b <? 0) eqn:Eb; lia.
Qed.

Lemma adjust_bounds (n i : Z) : 0 <= n -> 0 <= adjust n i <= n.
Proof. unfold adjust; destruct (i <? 0) eqn:E; lia. Qed.

Lemma slice_nth_error (l : list A) (a b : Z) (j : nat) :
  (j < length (slice l a b))%nat ->
  nth_error (slice l a b) j = nth_error l (Z.to_nat (adjust (len l) a) + j).
Proof.
  unfold slice; intros H.
  rewrite length_firstn in H.
  rewrite nth_error_firstn.
  replace (j <? _)%nat with true by (symmetry; apply Nat.ltb_lt; lia).
  now rewrite nth_error_skipn.
Qed.

End PyFacts.

(** The built-ins on small inputs, as the interpreter answers them. *)

Example str_of_int_12 : str_of_int 12 = lit "12".
Proof. reflexivity. Qed.

Example split_blanks : split (lit "  ab  c d ") = [lit "ab"; lit "c"; lit "d"].
Proof. reflexivity. Qed.

Example replace_title :
  replace (lit "Title: Content: x Title: Content: y") (lit "Title: Content: ") []
  = lit "x y".
Proof. reflexivity. Qed.

Example slice_negative_stop : slice [1; 2; 3; 4; 5] 0 (-2) = [1; 2; 3].
Proof. reflexivity. Qed.

Example slice_negative_start : slice [1; 2; 3; 4; 5] (-2) 100 = [4; 5].
Proof. reflexivity. Qed.

Example getitem_negative : getitem [1; 2; 3] (-1) = Ok 3.
Proof. reflexivity. Qed.

Example getitem_out_of_range : getitem [1; 2; 3] 3 = Raise IndexError.
Proof. reflexivity. Qed.

Example int_ascii : int (lit "042") = Ok 42.
Proof. reflexivity. Qed.

Example int_arabic_indic : isdigit 1635 = true /\ int [1635%N] = Ok 3.
Proof. split; reflexivity. Qed.

Example int_superscript : isdigit 178 = true /\ int [178%N] = Raise ValueError.
Proof. split; reflexivity. Qed.

(* ================================================================== *)
(** * Permutation repair *)
(* ================================================================== *)

Section Repair.

Import Listwise.

Example repair_identity :
  resolve_permutation (lit "[1] > [2] > [3] > [4]") 4 = Ok [0; 1; 2; 3].
Proof. reflexivity. Qed.

Example repair_duplicates_and_strays :
  resolve_permutation (lit "[4] > [3] > [4] > [9] 0") 4 = Ok [3; 2; 0; 1].
Proof. reflexivity. Qed.

Example repair_empty_text : resolve_permutation [] 3 = Ok [0; 1; 2].
Proof. reflexivity. Qed.

Lemma remove_duplicate_from_spec (response acc : list Z) :
  NoDup acc ->
  let out := fold_left (fun new_response c =>
                          if mem c new_response then new_response
                          else new_response ++ [c]) response acc in
  NoDup out /\ forall x, In x out <-> In x acc \/ In x response.
Proof.
  revert acc; induction response as [|c response IH]; intros acc Hacc; simpl.
  - split; [assumption | intros x; tauto].
  - destruct (mem c acc) eqn:E.
    + destruct (IH acc Hacc) as [Hn Hin]; split; [assumption|].
      intros x; rewrite Hin. apply mem_In in E.
      split; [tauto | intros [H | [<- | H]]; auto].
    + apply mem_not_In in E.
      assert (Hacc' : NoDup (acc ++ [c])).
      { apply NoDup_app; [assumption | constructor; [easy | constructor] |].
        intros x Hx [<- | []]; contradiction. }
      destruct (IH _ Hacc') as [Hn Hin]; split; [assumption|].
      intros x; rewrite Hin, in_app_iff; simpl; tauto.
Qed.

Lemma NoDup_remove_duplicate (response : list Z) : NoDup (remove_duplicate response).
Proof. apply (remove_duplicate_from_spec response []); constructor. Qed.

Lemma In_remove_duplicate (response : list Z) (x : Z) :
  In x (remove_duplicate response) <-> In x response.
Proof.
  destruct (remove_duplicate_from_spec response [] (NoDup_nil _)) as [_ H].
  unfold remove_duplicate; rewrite H; simpl; tauto.
Qed.

(** Keeping the valid entries of a duplicate-free list and appending the
    indices it misses gives every index of the window exactly once. *)
Lemma complete_permutation (response : list Z) (w : Z) :
  NoDup response ->
  let kept := filter (fun ss => mem ss (range w)) response in
  Permutation (kept ++ filter (fun tt => negb (mem tt kept)) (range w)) (range w).
Proof.
  intros Hnd kept.
  assert (Hk : NoDup kept) by (apply NoDup_filter; assumption).
  apply NoDup_Permutation.
  - apply NoDup_app; [assumption | apply NoDup_filter, NoDup_range |].
    intros x Hx Hx'; apply filter_In in Hx' as [_ Hx'].
    apply negb_true_iff, mem_not_In in Hx'; contradiction.
  - apply NoDup_range.
  - intros x; rewrite in_app_iff; split.
    + intros [H | H].
      * apply filter_In in H as [_ H]; now apply mem_In in H.
      * now apply filter_In in H as [H _].
    + intros H.
      destruct (mem x kept) eqn:E.
      * left; now apply mem_In in E.
      * right; apply filter_In; split; [assumption | now rewrite E].
Qed.

(** Whenever the response parses, the repaired order is a permutation of
    the window's indices [0 .. window-1]. *)
Lemma resolve_permutation_perm (permutation : str) (window : Z) (response : list Z) :
  resolve_permutation permutation window = Ok response ->
  Permutation response (range window).
Proof.
  unfold resolve_permutation.
  destruct (parse_response (clean_response permutation)) as [parsed| |]; simpl;
    intros H; inversion H; subst.
  apply complete_permutation, NoDup_remove_duplicate.
Qed.

Lemma resolve_permutation_length (permutation : str) (window : Z) (response : list Z) :
  resolve_permutation permutation window = Ok response ->
  length response = Z.to_nat window.
Proof.
  intros H; apply resolve_permutation_perm, Permutation_length in H.
  now rewrite length_range in H.
Qed.

Lemma int_never_diverges (x : str) : int x <> Diverge.
Proof.
  unfold int; destruct x; [easy|].
  destruct (int_max_str_digits <? _); [easy|].
  destruct (digits_value _ _); easy.
Qed.

Lemma parse_tokens_never_diverge (tokens : list str) (acc : list Z) :
  for_each tokens (fun acc x => n <- int x ;; Ok (acc ++ [n - 1])) acc <> Diverge.
Proof.
  revert acc; induction tokens as [|x tokens IH]; intros acc; simpl; [easy|].
  pose proof (int_never_diverges x) as Hx.
  destruct (int x); simpl; [apply IH | easy | contradiction].
Qed.

Lemma resolve_permutation_never_diverges (permutation : str) (window : Z) :
  resolve_permutation permutation window <> Diverge.
Proof.
  unfold resolve_permutation, parse_response.
  pose proof (parse_tokens_never_diverge (split (clean_response permutation)) []) as H.
  destruct (for_each _ _ _); simpl; easy.
Qed.

End Repair.

(* ================================================================== *)
(** * Writing the window back *)
(* ================================================================== *)

Section WriteBack.

Import Listwise.

Lemma position_same_length {A : Type} (l l' : list A) (i : Z) :
  length l = length l' -> position l i = position l' i.
Proof. unfold position, len; intros ->; reflexivity. Qed.

(** [write_back] keeps the length of the list and touches only positions
    that one of its indices [j' + rank_start] denotes, whether or not it runs
    to the end. *)
Lemma write_back_frame (cut_range : list SearchResult) (rank_start : Z) :
  forall (response : list Z) (ranking : list SearchResult) (j : Z),
    length (fst (write_back ranking cut_range rank_start j response)) = length ranking /\
    forall i : nat,
      (forall j', j <= j' < j + len response ->
                  position ranking (j' + rank_start) <> Some i) ->
      nth_error (fst (write_back ranking cut_range rank_start j response)) i
      = nth_error ranking i.
Proof.
  induction response as [|x rest IH]; intros ranking j; simpl; [auto|].
  destruct (getitem cut_range x) as [doc| |]; simpl; auto.
  unfold setitem.
  destruct (position ranking (j + rank_start)) as [p|] eqn:Hp; simpl; auto.
  destruct (IH (update ranking p doc) (j + 1)) as [Hlen Hframe].
  rewrite update_length in Hlen.
  split; [assumption|].
  intros i Hi.
  rewrite Hframe.
  - apply nth_error_update_neq.
    intros ->; apply (Hi j); [unfold len; simpl length; lia | assumption].
  - intros j' Hj'.
    rewrite (position_same_length _ ranking) by apply update_length.
    apply Hi; unfold len in *; simpl length; lia.
Qed.

(** With a non-negative start and a response made of valid indices of the
    cut, every assignment succeeds: position [rank_start + j + p] receives
    the document the [p]-th entry names, and nothing else changes. *)
Lemma write_back_ok (cut_range : list SearchResult) (rank_start : Z) :
  0 <= rank_start ->
  forall (response : list Z) (ranking : list SearchResult) (j : Z),
    0 <= j ->
    (response <> [] -> rank_start + j + len response <= len ranking) ->
    Forall (fun x => 0 <= x < len cut_range) response ->
    exists r,
      write_back ranking cut_range rank_start j response = (r, Ok tt) /\
      length r = length ranking /\
      (forall (p : nat) (x : Z),
          nth_error response p = Some x ->
          nth_error r (Z.to_nat (rank_start + j) + p)
          = nth_error cut_range (Z.to_nat x)) /\
      (forall i : nat,
          (Z.of_nat i < rank_start + j \/ rank_start + j + len response <= Z.of_nat i) ->
          nth_error r i = nth_error ranking i).
Proof.
  intros Hs.
  induction response as [|x rest IH]; intros ranking j Hj Hfit Hvalid; simpl.
  - exists ranking; repeat split; auto.
    intros [|p] x H; discriminate.
  - inversion Hvalid as [|? ? Hx Hrest]; subst.
    cbv beta in Hx.
    assert (Hfit' := Hfit ltac:(discriminate)); clear Hfit.
    unfold len in Hfit'; simpl length in Hfit'.
    destruct (nth_error cut_range (Z.to_nat x)) as [doc|] eqn:Hdoc.
    2:{ apply nth_error_None in Hdoc; unfold len in Hx; exfalso; lia. }
    rewrite (getitem_nonneg _ _ _ (proj1 Hx) Hdoc); simpl.
    unfold setitem.
    rewrite position_nonneg by (unfold len; lia).
    set (ranking' := update ranking (Z.to_nat (j + rank_start)) doc).
    assert (Hlen' : length ranking' = length ranking) by apply update_length.
    destruct (IH ranking' (j + 1)) as (r & Hr & Hlen & Hput & Hkeep); auto.
    { lia. }
    { intros _; unfold len in *; lia. }
    exists r; rewrite Hr; split; [reflexivity|].
    split; [congruence|].
    split.
    + intros [|p] y Hy; simpl in Hy.
      * inversion Hy; subst y.
        rewrite Nat.add_0_r, Hkeep by lia.
        unfold ranking'.
        replace (Z.to_nat (rank_start + j)) with (Z.to_nat (j + rank_start)) by lia.
        rewrite nth_error_update_eq by lia; congruence.
      * rewrite <- (Hput p y Hy); f_equal; lia.
    + intros i Hi.
      unfold len in Hi; simpl length in Hi.
      rewrite Hkeep by (unfold len; lia).
      apply nth_error_update_neq; lia.
Qed.

End WriteBack.

(* ================================================================== *)
(** * [receive_permutation] *)
(* ================================================================== *)

Section ReceivePermutation.

Import Listwise.

(** When the response parses and the start is not negative, the call
    returns: position [rank_start + p] of the window receives the document
    of the cut named by the [p]-th entry of the repaired order, and the rest
    of the list is as before. *)
Lemma receive_permutation_ok (ranking : list SearchResult) (permutation : str)
  (rank_start rank_end : Z) (response : list Z) :
  0 <= rank_start ->
  resolve_permutation permutation (len (slice ranking rank_start rank_end)) = Ok response ->
  exists r,
    receive_permutation ranking permutation rank_start rank_end = (r, Ok tt) /\
    length r = length ranking /\
    (forall (p : nat) (x : Z),
        nth_error response p = Some x ->
        nth_error r (Z.to_nat rank_start + p)
        = nth_error (slice ranking rank_start rank_end) (Z.to_nat x)) /\
    (forall i : nat,
        (Z.of_nat i < rank_start \/ rank_start + len response <= Z.of_nat i) ->
        nth_error r i = nth_error ranking i).
Proof.
  intros Hs Hres.
  unfold receive_permutation; rewrite Hres.
  pose proof (resolve_permutation_perm _ _ _ Hres) as Hperm.
  pose proof (resolve_permutation_length _ _ _ Hres) as Hlen.
  pose proof (slice_length ranking rank_start rank_end) as Hcut.
  pose proof (len_nonneg ranking) as Hn.
  destruct (write_back_ok (slice ranking rank_start rank_end) rank_start Hs
              response ranking 0) as (r & Hr & Hlr & Hput & Hkeep).
  - lia.
  - intros Hne.
    assert (0 < len response) by (destruct response; [easy | unfold len; simpl length; lia]).
    unfold len in *; unfold adjust in *.
    destruct (rank_start <? 0) eqn:E1; [lia|].
    destruct (rank_end <? 0) eqn:E2; lia.
  - apply Forall_forall; intros x Hx.
    apply (Permutation_in _ Hperm), In_range in Hx; assumption.
  - exists r; rewrite Hr; repeat split; auto.
    + intros p x Hp; rewrite <- (Hput p x Hp); f_equal; lia.
    + intros i Hi; apply Hkeep; lia.
Qed.

(** A text without any digit leaves the cleaned response empty. *)
Lemma clean_response_no_digit (response : str) :
  (forall c, In c response -> isdigit c = false) ->
  clean_response response = [].
Proof.
  intros H; unfold clean_response, strip.
  assert (E : lstrip (map (fun c => if isdigit c then c else 32%N) response) = []).
  { induction response as [|c response IH]; [reflexivity|].
    simpl; rewrite (H c) by (now left); simpl.
    apply IH; intros c' Hc'; apply H; now right. }
  now rewrite E.
Qed.

(** The repaired order of a digit-free text is the identity. *)
Lemma resolve_permutation_no_digit (permutation : str) (window : Z) :
  (forall c, In c permutation -> isdigit c = false) ->
  resolve_permutation permutation window = Ok (range window).
Proof.
  intros H; unfold resolve_permutation.
  rewrite (clean_response_no_digit _ H); simpl.
  f_equal; induction (range window) as [|x l IH]; simpl; congruence.
Qed.

Lemma nth_error_range (w : Z) (p : nat) (x : Z) :
  nth_error (range w) p = Some x -> x = Z.of_nat p /\ (p < Z.to_nat w)%nat.
Proof.
  intros H.
  assert (Hp : (p < length (range w))%nat) by (apply nth_error_Some; congruence).
  rewrite length_range in Hp.
  unfold range in H.
  rewrite nth_error_map, nth_error_seq in H.
  replace (p <? Z.to_nat w)%nat with true in H by (symmetry; now apply Nat.ltb_lt).
  simpl in H; inversion H; auto.
Qed.

(** Writing the identity order back changes nothing. *)
Lemma receive_permutation_no_digit (ranking : list SearchResult) (permutation : str)
  (rank_start rank_end : Z) :
  0 <= rank_start ->
  (forall c, In c permutation -> isdigit c = false) ->
  receive_permutation ranking permutation rank_start rank_end = (ranking, Ok tt).
Proof.
  intros Hs Hnd.
  pose proof (resolve_permutation_no_digit permutation
                (len (slice ranking rank_start rank_end)) Hnd) as Hres.
  destruct (receive_permutation_ok _ _ _ rank_end _ Hs Hres)
    as (r & Hr & Hlr & Hput & Hkeep).
  rewrite Hr; f_equal.
  apply nth_error_ext; intros i.
  pose proof (slice_length ranking rank_start rank_end) as Hcut.
  pose proof (len_nonneg ranking) as Hn.
  set (w := len (slice ranking rank_start rank_end)) in *.
  assert (Hw : len (range w) = w).
  { unfold len; rewrite length_range; unfold w, len; lia. }
  rewrite Hw in Hkeep.
  destruct (Z_lt_dec (Z.of_nat i) rank_start) as [Hlt|Hge]; [apply Hkeep; lia|].
  destruct (Z_le_dec (rank_start + w) (Z.of_nat i)) as [Hle|Hin]; [apply Hkeep; lia|].
  set (p := (i - Z.to_nat rank_start)%nat).
  assert (Hp : nth_error (range w) p = Some (Z.of_nat p)).
  { unfold range; rewrite nth_error_map, nth_error_seq.
    replace (p <? Z.to_nat w)%nat with true by (symmetry; apply Nat.ltb_lt; lia).
    reflexivity. }
  specialize (Hput p _ Hp).
  replace (Z.to_nat rank_start + p)%nat with i in Hput by lia.
  assert (Hpl : (p < length (slice ranking rank_start rank_end))%nat).
  { subst p; unfold w, len in Hin; lia. }
  rewrite Hput, Nat2Z.id, slice_nth_error by exact Hpl.
  f_equal.
  clearbody w; subst p; unfold adjust in *.
  destruct (rank_start <? 0) eqn:E1; [lia|].
  destruct (rank_end <? 0) eqn:E2; lia.
Qed.

Lemma map_nth_error_seq {A : Type} (l : list A) :
  map (nth_error l) (seq 0 (length l)) = map Some l.
Proof.
  induction l as [|x l IH]; simpl; [reflexivity|].
  f_equal; rewrite <- seq_shift, map_map; exact IH.
Qed.

Lemma map_Some_inj {A : Type} (l l' : list A) : map Some l = map Some l' -> l = l'.
Proof.
  revert l'; induction l as [|x l IH]; intros [|y l'] H; simpl in H;
    try discriminate; [reflexivity|].
  inversion H; f_equal; auto.
Qed.

(** Totality on the responses [int] accepts: for such a response and a
    window with a non-negative start, [receive_permutation] returns, the
    window holds a permutation of the documents it held before, and the
    rest of the list is untouched. *)
Lemma receive_permutation_permutes_window (ranking : list SearchResult)
  (permutation : str) (rank_start rank_end : Z) :
  0 <= rank_start ->
  parses permutation ->
  exists r,
    receive_permutation ranking permutation rank_start rank_end = (r, Ok tt) /\
    length r = length ranking /\
    Permutation (slice r rank_start rank_end) (slice ranking rank_start rank_end) /\
    (forall i : nat,
        ~ (adjust (len ranking) rank_start <= Z.of_nat i < adjust (len ranking) rank_end) ->
        nth_error r i = nth_error ranking i).
Proof.
  intros Hs [parsed Hparsed].
  set (cut := slice ranking rank_start rank_end).
  assert (Hres : exists response, resolve_permutation permutation (len cut) = Ok response).
  { unfold resolve_permutation; rewrite Hparsed; simpl; eauto. }
  destruct Hres as [response Hres].
  destruct (receive_permutation_ok ranking permutation rank_start rank_end response
              Hs Hres) as (r & Hr & Hlen & Hput & Hkeep).
  pose proof (resolve_permutation_perm _ _ _ Hres) as Hperm.
  pose proof (resolve_permutation_length _ _ _ Hres) as Hrl.
  pose proof (slice_length ranking rank_start rank_end) as Hcut.
  pose proof (slice_length r rank_start rank_end) as Hcut'.
  pose proof (len_nonneg ranking) as Hn.
  assert (Hlenz : len r = len ranking) by (unfold len; now rewrite Hlen).
  rewrite Hlenz in Hcut'; fold cut in Hcut.
  exists r; split; [exact Hr|]; split; [exact Hlen|]; split.
  - assert (Hmap : map Some (slice r rank_start rank_end)
                   = map (fun x => nth_error cut (Z.to_nat x)) response).
    { apply nth_error_ext; intros p.
      rewrite !nth_error_map.
      destruct (nth_error response p) as [x|] eqn:Hx; simpl.
      - assert (Hp : (p < length response)%nat) by (apply nth_error_Some; congruence).
        assert (Hpl : (p < length (slice r rank_start rank_end))%nat)
          by (unfold len in *; lia).
        rewrite (slice_nth_error r _ _ p Hpl), Hlenz.
        replace (Z.to_nat (adjust (len ranking) rank_start) + p)%nat
          with (Z.to_nat rank_start + p)%nat.
        + rewrite (Hput p x Hx); fold cut.
          assert (Hxin : In x (range (len cut)))
            by (eapply Permutation_in; [exact Hperm | eapply nth_error_In, Hx]).
          apply In_range in Hxin.
          destruct (nth_error cut (Z.to_nat x)) eqn:E; [reflexivity|].
          apply nth_error_None in E; unfold len in Hxin; lia.
        + unfold len, adjust in *.
          destruct (rank_start <? 0) eqn:E1; [lia|].
          destruct (rank_end <? 0) eqn:E2; lia.
      - apply nth_error_None in Hx.
        assert (E : nth_error (slice r rank_start rank_end) p = None)
          by (apply nth_error_None; unfold len in *; lia).
        now rewrite E. }
    assert (Hid : map (fun x => nth_error cut (Z.to_nat x)) (range (len cut))
                  = map Some cut).
    { unfold range, len; rewrite map_map, Nat2Z.id.
      rewrite <- map_nth_error_seq; apply map_ext; intros i; now rewrite Nat2Z.id. }
    apply (Permutation_map (fun x => nth_error cut (Z.to_nat x))) in Hperm.
    rewrite <- Hmap, Hid in Hperm.
    apply Permutation_sym, Permutation_map_inv in Hperm as (l3 & Heq & Hp3).
    apply map_Some_inj in Heq; subst l3.
    now apply Permutation_sym.
  - intros i Hi; apply Hkeep.
    unfold len, adjust in *.
    destruct (rank_start <? 0) eqn:E1; [lia|].
    destruct (rank_end <? 0) eqn:E2; lia.
Qed.

End ReceivePermutation.

(* ================================================================== *)
(** * Properties of permutation repair *)
(* ================================================================== *)

Section RepairProperties.

Import Listwise.

(** C1 (the code departs from the claim). [clean_response] keeps every
    character that [str.isdigit] accepts, and [int] accepts fewer: on the
    one-character response SUPERSCRIPT TWO (U+00B2) the conversion raises
    [ValueError], so [receive_permutation] fails, for every ranking and every
    window, before it has written anything. *)
Theorem receive_permutation_raises_on_superscript_digit :
  forall (ranking : list SearchResult) (rank_start rank_end : Z),
    isdigit 178 = true /\
    clean_response [178%N] = [178%N] /\
    int [178%N] = Raise ValueError /\
    receive_permutation ranking [178%N] rank_start rank_end
    = (ranking, Raise ValueError).
Proof.
  intros ranking rank_start rank_end.
  repeat split; reflexivity.
Qed.

(** The interpreter's limit on integer string conversion is a second way
    to the same failure: a run of 4301 ASCII digits. *)
Lemma receive_permutation_raises_on_long_number :
  forall (ranking : list SearchResult) (rank_start rank_end : Z),
    receive_permutation ranking (repeat 49%N 4301) rank_start rank_end
    = (ranking, Raise ValueError).
Proof.
  intros ranking rank_start rank_end.
  unfold receive_permutation.
  replace (resolve_permutation (repeat 49%N 4301) (len (slice ranking rank_start rank_end)))
    with (@Raise (list Z) ValueError); [reflexivity|].
  unfold resolve_permutation.
  replace (parse_response (clean_response (repeat 49%N 4301)))
    with (@Raise (list Z) ValueError) by (vm_compute; reflexivity).
  reflexivity.
Qed.

(** C9: [receive_permutation] changes only the positions of the slice
    [ranking[rank_start:rank_end]], whatever the response and the bounds and
    whether the call returns or raises: the list keeps its length, and every
    position outside the slice holds the document it held before. For bounds
    that are not negative these are the positions [rank_start] to
    [rank_end - 1]. *)
Theorem receive_permutation_frame :
  forall (ranking : list SearchResult) (permutation : str) (rank_start rank_end : Z),
    let after := fst (receive_permutation ranking permutation rank_start rank_end) in
    length after = length ranking /\
    (forall i : nat,
        ~ (adjust (len ranking) rank_start <= Z.of_nat i < adjust (len ranking) rank_end) ->
        nth_error after i = nth_error ranking i) /\
    (0 <= rank_start -> 0 <= rank_end ->
     forall i : nat,
       ~ (rank_start <= Z.of_nat i < rank_end) ->
       nth_error after i = nth_error ranking i).
Proof.
  intros ranking permutation rank_start rank_end after.
  assert (Hlen : length after = length ranking).
  { unfold after, receive_permutation.
    destruct (resolve_permutation _ _); simpl; auto.
    apply write_back_frame. }
  assert (Hframe : forall i : nat,
             ~ (adjust (len ranking) rank_start <= Z.of_nat i
                < adjust (len ranking) rank_end) ->
             nth_error after i = nth_error ranking i).
  { intros i Hi; unfold after, receive_permutation.
    destruct (resolve_permutation _ _) as [response| |] eqn:Hres; simpl; auto.
    apply write_back_frame.
    intros j' Hj' Hpos.
    apply position_bound in Hpos as [Hp Hidx].
    apply resolve_permutation_length in Hres.
    pose proof (slice_length ranking rank_start rank_end) as Hcut.
    apply Hi; clear Hi.
    unfold len, adjust in *.
    destruct (rank_start <? 0) eqn:E1, (rank_end <? 0) eqn:E2,
             (j' + rank_start <? 0) eqn:E3; lia. }
  split; [assumption|]; split; [assumption|].
  intros Hs He i Hi; apply Hframe.
  intros H; apply Hi.
  unfold len, adjust in H.
  destruct (rank_start <? 0) eqn:E1; [lia|].
  destruct (rank_end <? 0) eqn:E2; lia.
Qed.

Lemma reduce_length_no_digit : forall c, In c reduce_length -> isdigit c = false.
Proof.
  assert (H : forallb (fun c => negb (isdigit c)) reduce_length = true) by reflexivity.
  intros c Hc; rewrite forallb_forall in H.
  apply negb_true_iff, H, Hc.
Qed.

(** The request loop of [compare] answers with the sentinel as soon as an
    attempt fails with the context-length message, after any number of
    attempts that failed otherwise. *)
Lemma request_loop_context_too_long
  (chat_completion : nat -> list message -> api_reply) (messages : list message) :
  forall (earlier attempt fuel : nat) (e : str),
    (forall a, (attempt <= a < attempt + earlier)%nat ->
               exists e', chat_completion a messages = Failure e' /\
                          contains e' context_length_marker = false) ->
    chat_completion (attempt + earlier)%nat messages = Failure e ->
    contains e context_length_marker = true ->
    (earlier < fuel)%nat ->
    request_loop chat_completion fuel attempt messages = Ok reduce_length.
Proof.
  induction earlier as [|earlier IH]; intros attempt fuel e Hbefore Hfail Hmark Hfuel;
    (destruct fuel as [|fuel]; [lia|]); simpl.
  - rewrite Nat.add_0_r in Hfail; now rewrite Hfail, Hmark.
  - destruct (Hbefore attempt) as (e' & -> & ->); [lia|].
    apply (IH (S attempt) fuel e); [| | assumption | lia].
    + intros a Ha; apply Hbefore; lia.
    + now replace (S attempt + earlier)%nat with (attempt + S earlier)%nat by lia.
Qed.

(** C8: when the chat API fails with the context-length message,
    [OpenAiListwiseLlmRanker.compare] returns the sentinel
    ['ERROR::reduce_length'], and [receive_permutation] on that sentinel, or
    on any text without a digit, returns normally and leaves the ranking,
    the window included, as it was. *)
Theorem context_too_long_degrades_to_identity :
  forall (encode_len : str -> Z)
         (chat_completion : nat -> list message -> api_reply) (llm : str)
         (query : str) (docs : list SearchResult)
         (messages : list message) (e : str) (fuel : nat)
         (ranking : list SearchResult) (rank_start rank_end : Z),
    create_permutation_instruction_chat encode_len (S fuel) query docs (Some llm)
    = Ok messages ->
    chat_completion O messages = Failure e ->
    contains e context_length_marker = true ->
    0 <= rank_start ->
    openai_compare encode_len chat_completion llm (S fuel) query docs
    = Ok reduce_length /\
    receive_permutation ranking reduce_length rank_start rank_end = (ranking, Ok tt) /\
    (forall text : str,
        (forall c, In c text -> isdigit c = false) ->
        receive_permutation ranking text rank_start rank_end = (ranking, Ok tt)).
Proof.
  intros encode_len chat_completion llm query docs messages e fuel
         ranking rank_start rank_end Hbuilt Hfail Hmark Hs.
  split; [|split].
  - unfold openai_compare; rewrite Hbuilt; cbn [bind].
    apply (request_loop_context_too_long chat_completion messages 0 0 (S fuel) e);
      auto; [intros a Ha|]; lia.
  - apply receive_permutation_no_digit; [assumption | apply reduce_length_no_digit].
  - intros text Htext; now apply receive_permutation_no_digit.
Qed.

(** C7: with an oracle that answers ["[4] > [3] > [2] > [1]"] for every
    window, a listwise rerank of four candidates with window 4, stride 4 and
    one repeat returns them in the order [d4, d3, d2, d1], scored
    [0, -1, -2, -3]. *)
Theorem listwise_reverses_four :
  forall (query : str) (d1 d2 d3 d4 : SearchResult) (fuel : nat),
    rerank (fun _ _ => Ok (lit "[4] > [3] > [2] > [1]")) 4 4 1
           (S (S fuel)) query [d1; d2; d3; d4]
    = Ok [ mkSearchResult (docid d4) 0 (text d4);
           mkSearchResult (docid d3) (inject_Z (-1)) (text d3);
           mkSearchResult (docid d2) (inject_Z (-2)) (text d2);
           mkSearchResult (docid d1) (inject_Z (-3)) (text d1) ].
Proof.
  intros query d1 d2 d3 d4 fuel.
  reflexivity.
Qed.

End RepairProperties.

(* ================================================================== *)
(** * The sliding-window pass *)
(* ================================================================== *)

Section SlidingWindow.

Import Listwise.

Variable compare : str -> list SearchResult -> outcome str.
Variable window stride : Z.
Variable query : str.

Hypothesis stride_positive : 0 < stride.
Hypothesis oracle_answers :
  forall docs, exists text, compare query docs = Ok text /\ parses text.

Lemma div_stride_step (a : Z) : (a - stride) / stride = a / stride - 1.
Proof.
  replace (a - stride) with (a + (-1) * stride) by ring.
  rewrite Z.div_add by lia; ring.
Qed.

Lemma div_stride_sign (a : Z) : 0 <= a <-> 0 <= a / stride.
Proof.
  split; intros H.
  - apply Z.div_pos; lia.
  - destruct (Z_lt_dec a 0) as [Hneg|]; [|lia].
    assert (a / stride < 0) by (apply Z.div_lt_upper_bound; lia).
    lia.
Qed.

Lemma parses_resolves (permutation : str) (w : Z) :
  parses permutation -> exists response, resolve_permutation permutation w = Ok response.
Proof.
  intros [response H]; unfold resolve_permutation; rewrite H; simpl; eauto.
Qed.

(** From any start the loop calls the oracle at [start], [start - stride],
    ... as long as the value is not negative, and then returns. *)
Lemma window_loop_run :
  forall (count : nat) (start : Z) (ranking : list SearchResult) (visited : list Z)
         (fuel : nat),
    count = Z.to_nat (start / stride + 1) ->
    (count < fuel)%nat ->
    exists ranking',
      window_loop compare window stride fuel query ranking start visited
      = Ok (ranking',
            visited ++ map (fun i => start - Z.of_nat i * stride) (seq 0 count)) /\
      length ranking' = length ranking.
Proof.
  induction count as [|count IH]; intros start ranking visited fuel Hcount Hfuel;
    (destruct fuel as [|fuel]; [lia|]); simpl.
  - assert (start < 0) by (pose proof (div_stride_sign start); lia).
    replace (0 <=? start) with false by lia.
    exists ranking; now rewrite app_nil_r.
  - assert (Hstart : 0 <= start) by (apply div_stride_sign; lia).
    replace (0 <=? start) with true by lia.
    destruct (oracle_answers (slice ranking start (start + window)))
      as (text & -> & Hparses); simpl.
    destruct (parses_resolves text (len (slice ranking start (start + window))) Hparses)
      as [response Hres].
    destruct (receive_permutation_ok ranking text start (start + window) response
                Hstart Hres) as (r & -> & Hlen & _).
    unfold returned; simpl.
    destruct (IH (start - stride) r (visited ++ [start]) fuel) as (ranking' & -> & Hlen').
    { rewrite div_stride_step; lia. }
    { lia. }
    exists ranking'; split; [|congruence].
    rewrite <- app_assoc; do 3 f_equal; simpl.
    f_equal; [lia|].
    rewrite <- seq_shift, map_map.
    apply map_ext; intros i; rewrite Nat2Z.inj_succ; ring.
Qed.

(** The [while] loop is a [for] loop over the starts [start],
    [start - stride], ... that are not negative: whatever the oracle does,
    it judges the window at each of them in turn, on the list as the earlier
    windows left it, and writes the answer back; it ends early only with the
    exception of the oracle or of [receive_permutation]. *)
Lemma window_loop_unrolled :
  forall (count : nat) (start : Z) (ranking : list SearchResult) (visited : list Z)
         (fuel : nat),
    count = Z.to_nat (start / stride + 1) ->
    (count < fuel)%nat ->
    window_loop compare window stride fuel query ranking start visited
    = (final <- for_each (map (fun i => start - Z.of_nat i * stride) (seq 0 count))
                  (fun current start_pos =>
                     permutation <- compare query
                                      (slice current start_pos (start_pos + window)) ;;
                     returned (receive_permutation current permutation start_pos
                                 (start_pos + window)))
                  ranking ;;
       Ok (final, visited ++ map (fun i => start - Z.of_nat i * stride) (seq 0 count))).
Proof.
  induction count as [|count IH]; intros start ranking visited fuel Hcount Hfuel;
    (destruct fuel as [|fuel]; [lia|]); cbn [window_loop seq map for_each bind].
  - assert (start < 0) by (pose proof (div_stride_sign start); lia).
    replace (0 <=? start) with false by lia.
    now rewrite app_nil_r.
  - assert (Hstart : 0 <= start) by (apply div_stride_sign; lia).
    replace (0 <=? start) with true by lia.
    replace (start - Z.of_nat 0 * stride) with start by lia.
    destruct (compare query (slice ranking start (start + window))) as [text| |];
      cbn [bind]; try reflexivity.
    destruct (returned (receive_permutation ranking text start (start + window)))
      as [r| |]; cbn [bind]; try reflexivity.
    rewrite (IH (start - stride) r (visited ++ [start]) fuel)
      by (rewrite ?div_stride_step; lia).
    assert (Hshift : map (fun i => start - stride - Z.of_nat i * stride) (seq 0 count)
                     = map (fun i => start - Z.of_nat i * stride) (seq 1 count)).
    { rewrite <- seq_shift, map_map.
      apply map_ext; intros i; rewrite Nat2Z.inj_succ; ring. }
    rewrite Hshift, <- app_assoc; reflexivity.
Qed.

End SlidingWindow.

(** C5: for a ranking of length [n >= W] and a stride [S > 0], one pass of
    the listwise rerank judges exactly the [floor((n - W) / S) + 1] windows
    that start at [n-W, n-W-S, n-W-2S, ...], every one of them non-negative,
    down to the smallest non-negative value of that progression. Whatever
    the oracle does, the pass is the loop over these starts that hands the
    oracle the window of the list as the earlier windows left it and writes
    its answer back; it visits no other window, and it returns, having
    visited them all, when the oracle's answers can be converted. *)
Theorem window_coverage :
  forall (compare : str -> list SearchResult -> outcome str) (W S : Z) (query : str)
         (ranking : list SearchResult) (fuel : nat),
    0 < S ->
    W <= len ranking ->
    (Z.to_nat ((len ranking - W) / S + 1) < fuel)%nat ->
    exists starts : list Z,
      starts = map (fun i => len ranking - W - Z.of_nat i * S)
                   (seq 0 (Z.to_nat ((len ranking - W) / S + 1))) /\
      len starts = (len ranking - W) / S + 1 /\
      (forall p, In p starts -> 0 <= p) /\
      (forall i, 0 <= i -> 0 <= len ranking - W - i * S ->
                 In (len ranking - W - i * S) starts) /\
      Listwise.rerank_pass compare W S fuel query ranking
      = (final <- for_each starts
                    (fun current start_pos =>
                       permutation <- compare query
                                        (slice current start_pos (start_pos + W)) ;;
                       Listwise.returned
                         (Listwise.receive_permutation current permutation start_pos
                            (start_pos + W)))
                    ranking ;;
         Ok (final, starts)) /\
      ((forall docs, exists text, compare query docs = Ok text /\ Listwise.parses text) ->
       exists ranking',
         Listwise.rerank_pass compare W S fuel query ranking = Ok (ranking', starts) /\
         length ranking' = length ranking).
Proof.
  intros compare W S query ranking fuel HS HW Hfuel.
  set (n := len ranking) in *.
  assert (Hq : 0 <= (n - W) / S) by (apply Z.div_pos; lia).
  exists (map (fun i => n - W - Z.of_nat i * S) (seq 0 (Z.to_nat ((n - W) / S + 1)))).
  split; [reflexivity|].
  split; [unfold len; rewrite length_map, length_seq; lia|].
  split; [|split; [|split]].
  - intros p Hp; apply in_map_iff in Hp as (i & <- & Hi); apply in_seq in Hi.
    assert (Z.of_nat i * S <= (n - W) / S * S) by (apply Z.mul_le_mono_nonneg_r; lia).
    pose proof (Z.mul_div_le (n - W) S HS); lia.
  - intros i Hi Hp; apply in_map_iff.
    exists (Z.to_nat i); split; [f_equal; lia|].
    apply in_seq.
    assert (i <= (n - W) / S) by (apply Z.div_le_lower_bound; lia).
    lia.
  - exact (window_loop_unrolled compare W S query HS
             (Z.to_nat ((n - W) / S + 1)) (n - W) ranking [] fuel eq_refl Hfuel).
  - intros Horacle.
    exact (window_loop_run compare W S query HS Horacle
             (Z.to_nat ((n - W) / S + 1)) (n - W) ranking [] fuel eq_refl Hfuel).
Qed.

(* ================================================================== *)
(** * The prompt budget loop *)
(* ================================================================== *)

Section Budget.

Import Listwise.

Variable encode_len : str -> Z.

(** The loop is left exactly when some truncation length at or below the
    initial one fits: it then returns the request built at the first such
    length. *)
Lemma shrink_to_fit_first_fit (query : str) (docs : list SearchResult) (name : str) :
  forall (steps : nat) (max_length : Z) (fuel : nat) (fitting : list message),
    (forall i, (i < steps)%nat ->
               exists messages,
                 build_messages query docs (max_length - Z.of_nat i) = Ok messages /\
                 max_tokens name - 200 < num_tokens_from_messages encode_len messages name) ->
    build_messages query docs (max_length - Z.of_nat steps) = Ok fitting ->
    num_tokens_from_messages encode_len fitting name <= max_tokens name - 200 ->
    (steps < fuel)%nat ->
    shrink_to_fit encode_len fuel query docs (Some name) max_length = Ok fitting.
Proof.
  induction steps as [|steps IH]; intros max_length fuel fitting Hover Hbuild Hfit Hfuel;
    (destruct fuel as [|fuel]; [lia|]); simpl.
  - rewrite Z.sub_0_r in Hbuild; rewrite Hbuild; simpl.
    now replace (_ <=? _) with true by lia.
  - destruct (Hover O) as (messages & Hm & Hbig); [lia|].
    rewrite Z.sub_0_r in Hm; rewrite Hm; simpl.
    replace (_ <=? _) with false by lia.
    apply IH; [| | assumption | lia].
    + intros i Hi; destruct (Hover (S i)) as (m' & Hm' & Hbig'); [lia|].
      exists m'; split; [|assumption].
      rewrite <- Hm'; f_equal; lia.
    + rewrite <- Hbuild; f_equal; lia.
Qed.

(** When no truncation length at or below the current one fits, the loop
    never ends: no amount of fuel produces a request. *)
Lemma shrink_to_fit_never_fits (query : str) (docs : list SearchResult) (name : str) :
  forall (fuel : nat) (max_length : Z),
    (forall shorter, shorter <= max_length ->
       exists messages,
         build_messages query docs shorter = Ok messages /\
         max_tokens name - 200 < num_tokens_from_messages encode_len messages name) ->
    shrink_to_fit encode_len fuel query docs (Some name) max_length = Diverge.
Proof.
  induction fuel as [|fuel IH]; intros max_length Hover; simpl; [reflexivity|].
  destruct (Hover max_length) as (messages & -> & Hbig); [lia|]; simpl.
  replace (_ <=? _) with false by lia.
  apply IH; intros shorter Hs; apply Hover; lia.
Qed.

(** Without documents the request does not depend on the truncation
    length, so a query that is too long by itself is never made to fit. *)
Lemma shrink_to_fit_no_docs (query : str) (name : str) (fuel : nat) :
  max_tokens name - 200
  < num_tokens_from_messages encode_len
      (get_prefix_prompt query 0 ++ [mkMessage (lit "user") (get_post_prompt query 0)])
      name ->
  create_permutation_instruction_chat encode_len fuel query [] (Some name) = Diverge.
Proof.
  intros Hbig; apply shrink_to_fit_never_fits.
  intros shorter _; eexists; split; [reflexivity | exact Hbig].
Qed.

Lemma passages_built (max_length : Z) (docs : list SearchResult) :
  Forall (fun doc => text doc <> None) docs ->
  forall rank, exists turns, passages max_length rank docs = Ok turns.
Proof.
  induction 1 as [|doc docs Hdoc _ IH]; intros rank; simpl; [eauto|].
  unfold passage_turns.
  destruct (text doc); [simpl | congruence].
  destruct (IH (rank + 1)) as [more ->]; simpl; eauto.
Qed.

Lemma count_from (name : str) (messages : list message) (base : Z) :
  fold_left
    (fun num_tokens m =>
       num_tokens + tokens_per_message name + encode_len (role m) + encode_len (content m))
    messages base
  = base + fold_left
             (fun num_tokens m =>
                num_tokens + tokens_per_message name + encode_len (role m)
                + encode_len (content m))
             messages 0.
Proof.
  revert base; induction messages as [|m messages IH]; intros base;
    cbn [fold_left]; [lia|].
  rewrite IH, (IH (0 + _ + _ + _)); lia.
Qed.

Lemma num_tokens_app (name : str) (front back : list message) :
  num_tokens_from_messages encode_len (front ++ back) name
  = num_tokens_from_messages encode_len front name
    + (num_tokens_from_messages encode_len back name - 3).
Proof.
  unfold num_tokens_from_messages.
  rewrite fold_left_app, count_from; lia.
Qed.

Lemma num_tokens_lower_bound (name : str) (messages : list message) :
  (forall s, 0 <= encode_len s) ->
  3 <= num_tokens_from_messages encode_len messages name.
Proof.
  intros Hpos; induction messages as [|m messages IH].
  - unfold num_tokens_from_messages; simpl; lia.
  - change (m :: messages) with ([m] ++ messages); rewrite num_tokens_app.
    unfold num_tokens_from_messages at 1; simpl.
    pose proof (Hpos (role m)); pose proof (Hpos (content m)).
    assert (0 <= tokens_per_message name)
      by (unfold tokens_per_message; repeat destruct (_ || _)%bool; lia).
    lia.
Qed.

(** Truncating the documents cannot help when the framing around them is
    already over the budget: with a token count that is never negative and
    documents that all have a text, the loop never ends. *)
Lemma shrink_to_fit_query_too_long (query : str) (docs : list SearchResult)
  (name : str) (fuel : nat) :
  (forall s, 0 <= encode_len s) ->
  Forall (fun doc => text doc <> None) docs ->
  max_tokens name - 200
  < num_tokens_from_messages encode_len
      (get_prefix_prompt query (len docs)
       ++ [mkMessage (lit "user") (get_post_prompt query (len docs))])
      name ->
  create_permutation_instruction_chat encode_len fuel query docs (Some name) = Diverge.
Proof.
  intros Hpos Hdocs Hbig; apply shrink_to_fit_never_fits.
  intros shorter _; unfold build_messages.
  destruct (passages_built shorter docs Hdocs 0) as [turns ->]; cbn [bind].
  eexists; split; [reflexivity|].
  rewrite num_tokens_app in Hbig.
  rewrite !num_tokens_app.
  pose proof (num_tokens_lower_bound name turns Hpos).
  lia.
Qed.

End Budget.

(** C2 (the code departs from the claim). The loop has no floor: for the
    token estimate that counts one token per character, three short
    documents and a query of 4000 characters, the estimate exceeds the budget
    of [4096 - 200] at every truncation length, and
    [create_permutation_instruction_chat] produces no request whatever the
    number of rounds it is given. *)
Theorem budget_loop_never_exits :
  forall fuel : nat,
    Listwise.create_permutation_instruction_chat (fun s => len s) fuel
      (repeat 97%N 4000) Samples.three_docs (Some (lit "gpt-3.5-turbo"))
    = Diverge.
Proof.
  intros fuel; apply shrink_to_fit_query_too_long.
  - intros s; apply len_nonneg.
  - repeat constructor; discriminate.
  - vm_compute; reflexivity.
Qed.

(* ================================================================== *)
(** * The heap strategy *)
(* ================================================================== *)

Section HeapSort.

Import Pairwise.

Variable judge : str -> str -> str * str.
Variable generate : list str -> list str.
Variable heappush : list (value * ComparableDoc.t) -> value * ComparableDoc.t
                    -> list (value * ComparableDoc.t).
Variable heappop_nonempty : list (value * ComparableDoc.t)
                            -> (value * ComparableDoc.t) * list (value * ComparableDoc.t).

Lemma heap_key_raises (arr : list ComparableDoc.t) (doc : ComparableDoc.t) :
  arr <> [] -> heap_key judge arr doc = Raise TypeError.
Proof.
  destruct arr as [|anchor rest]; [congruence|]; intros _; reflexivity.
Qed.

Lemma heapSort_raises (anchor : ComparableDoc.t) (rest : list ComparableDoc.t) (top : Z) :
  heapSort judge heappush heappop_nonempty (anchor :: rest) top = Raise TypeError.
Proof. reflexivity. Qed.

End HeapSort.

(** C3 (the code departs from the claim). In [heapSort] the key of the
    entry of every document is computed from one judgment of that document
    against the fixed anchor [arr[0]], never from a judgment between two
    arbitrary candidates; and because the unary minus is applied to the
    model's textual answer, computing the key raises [TypeError]. On every
    non-empty candidate list [heapSort], and with it [rerank] under the
    heapsort method, raises instead of returning a top-k. *)
Theorem heapSort_anchor_keys_raise :
  forall (judge : str -> str -> str * str) (generate : list str -> list str)
         (heappush : list (value * ComparableDoc.t) -> value * ComparableDoc.t
                     -> list (value * ComparableDoc.t))
         (heappop_nonempty : list (value * ComparableDoc.t)
                             -> (value * ComparableDoc.t) * list (value * ComparableDoc.t))
         (k : Z) (query : str)
         (anchor : ComparableDoc.t) (rest : list ComparableDoc.t)
         (first : SearchResult) (others : list SearchResult),
    (forall doc,
        Pairwise.heap_key judge (anchor :: rest) doc
        = (negated <- neg (VStr (fst (Pairwise.compare judge []
                                        (ComparableDoc.text doc)
                                        (ComparableDoc.text anchor)))) ;;
           Ok (VBool (value_eqb negated (VStr (lit "Passage A")))))) /\
    (forall doc, Pairwise.heap_key judge (anchor :: rest) doc = Raise TypeError) /\
    Pairwise.heapSort judge heappush heappop_nonempty (anchor :: rest) k = Raise TypeError /\
    Pairwise.rerank judge generate heappush heappop_nonempty (lit "heapsort") k
      query (first :: others)
    = Raise TypeError.
Proof.
  intros; repeat split; reflexivity.
Qed.

(* ================================================================== *)
(** * The all-pairs strategy *)
(* ================================================================== *)

Section AllPairs.

Import Pairwise.

Lemma sum_scores_dict_add (scores : scores_dict) (key : str) (delta : Q) :
  (sum_scores (dict_add scores key delta) == sum_scores scores + delta)%Q.
Proof.
  unfold sum_scores.
  induction scores as [|[k v] rest IH]; cbn [dict_add fold_right snd].
  - rewrite Qred_correct; ring.
  - destruct (str_eqb k key); cbn [fold_right snd].
    + rewrite Qred_correct; ring.
    + rewrite IH; ring.
Qed.

Lemma length_combinations {A : Type} (l : list A) :
  2 * len (combinations l) = len l * (len l - 1).
Proof.
  unfold len; induction l as [|x l IH]; simpl length; [reflexivity|].
  rewrite length_app, length_map; nia.
Qed.

Lemma getitem_in_range {A : Type} (l : list A) (i : Z) :
  0 <= i < len l -> exists x, getitem l i = Ok x /\ nth_error l (Z.to_nat i) = Some x.
Proof.
  intros Hi.
  destruct (nth_error l (Z.to_nat i)) as [x|] eqn:Hx.
  - exists x; split; [apply getitem_nonneg; [lia | assumption] | reflexivity].
  - apply nth_error_None in Hx; unfold len in Hi; lia.
Qed.

(** Every round of the scoring loop adds exactly one point to the table. *)
Lemma score_pair_adds_one (doc_pairs : list (SearchResult * SearchResult))
  (outputs : list str) (scores : scores_dict) (j : nat) :
  len outputs = 2 * len doc_pairs ->
  Z.of_nat j < len doc_pairs ->
  exists scores',
    score_pair doc_pairs outputs scores (2 * Z.of_nat j) = Ok scores' /\
    (sum_scores scores' == sum_scores scores + 1)%Q.
Proof.
  intros Hlen Hj; unfold score_pair.
  replace (2 * Z.of_nat j / 2) with (Z.of_nat j)
    by (rewrite Z.mul_comm, Z.div_mul; lia).
  destruct (getitem_in_range doc_pairs (Z.of_nat j)) as (docs & -> & _); [lia|].
  destruct (getitem_in_range outputs (2 * Z.of_nat j)) as (output1 & -> & _); [lia|].
  destruct (getitem_in_range outputs (2 * Z.of_nat j + 1)) as (output2 & -> & _); [lia|].
  simpl.
  destruct (str_eqb output1 (lit "Passage A") && str_eqb output2 (lit "Passage B"))%bool.
  { eexists; split; [reflexivity | apply sum_scores_dict_add]. }
  destruct (str_eqb output1 (lit "Passage B") && str_eqb output2 (lit "Passage A"))%bool.
  { eexists; split; [reflexivity | apply sum_scores_dict_add]. }
  eexists; split; [reflexivity|].
  rewrite !sum_scores_dict_add; ring.
Qed.

Lemma scoring_rounds (doc_pairs : list (SearchResult * SearchResult))
  (outputs : list str) :
  len outputs = 2 * len doc_pairs ->
  forall (rounds from : nat) (scores : scores_dict),
    Z.of_nat (from + rounds) <= len doc_pairs ->
    exists scores',
      for_each (map (fun j => 2 * Z.of_nat j) (seq from rounds))
               (score_pair doc_pairs outputs) scores = Ok scores' /\
      (sum_scores scores' == sum_scores scores + inject_Z (Z.of_nat rounds))%Q.
Proof.
  intros Hlen; induction rounds as [|rounds IH]; intros from scores Hfit;
    cbn [seq map for_each].
  - exists scores; split; [reflexivity | unfold inject_Z; simpl; ring].
  - destruct (score_pair_adds_one doc_pairs outputs scores from Hlen)
      as (scores1 & -> & Hsum1); [lia|]; cbn [bind].
    destruct (IH (S from) scores1) as (scores' & -> & Hsum); [lia|].
    exists scores'; split; [reflexivity|].
    rewrite Hsum, Hsum1, Nat2Z.inj_succ.
    unfold Z.succ; rewrite inject_Z_plus; ring.
Qed.

(** With two outputs per pair the scoring loop returns, and the scores it
    accumulated add up to the number of pairs. *)
Lemma accumulate_scores_sum (doc_pairs : list (SearchResult * SearchResult))
  (outputs : list str) :
  len outputs = 2 * len doc_pairs ->
  exists scores,
    accumulate_scores doc_pairs outputs = Ok scores /\
    (sum_scores scores == inject_Z (len doc_pairs))%Q.
Proof.
  intros Hlen.
  assert (Hhalf : (len outputs + 1) / 2 = len doc_pairs).
  { rewrite Hlen; symmetry; apply Z.div_unique with (r := 1); unfold len; lia. }
  unfold accumulate_scores, range2; rewrite Hhalf.
  destruct (scoring_rounds doc_pairs outputs Hlen (Z.to_nat (len doc_pairs)) 0 [])
    as (scores & Hrun & Hsum).
  { rewrite Nat.add_0_l; unfold len; lia. }
  exists scores; split; [exact Hrun|].
  rewrite Hsum, Z2Nat.id by (unfold len; lia).
  unfold sum_scores; cbn [fold_right]; ring.
Qed.

End AllPairs.

(** C6: in the all-pairs strategy, for every candidate list of [n]
    documents and every list of oracle outputs for its [2 * C(n,2)]
    judgments, the scoring loop returns and the accumulated scores add up to
    [C(n,2) = n (n - 1) / 2] exactly. *)
Theorem allpair_score_conservation :
  forall (ranking : list SearchResult) (outputs : list str),
    len outputs = 2 * len (Pairwise.combinations ranking) ->
    exists scores,
      Pairwise.accumulate_scores (Pairwise.combinations ranking) outputs = Ok scores /\
      (Pairwise.sum_scores scores == inject_Z (len ranking * (len ranking - 1) / 2))%Q /\
      len (Pairwise.combinations ranking) = len ranking * (len ranking - 1) / 2.
Proof.
  intros ranking outputs Hlen.
  assert (Hpairs : len (Pairwise.combinations ranking)
                   = len ranking * (len ranking - 1) / 2).
  { rewrite <- (length_combinations ranking), Z.mul_comm, Z.div_mul; lia. }
  destruct (accumulate_scores_sum _ _ Hlen) as (scores & Hrun & Hsum).
  exists scores; split; [exact Hrun|]; split; [|exact Hpairs].
  now rewrite Hsum, Hpairs.
Qed.

(* ================================================================== *)
(** * The result merger *)
(* ================================================================== *)

Section Merger.

Import Pairwise.

(** Both loops of the merger are instances of one loop that appends the
    documents it does not skip. It keeps the results numbered: the entry at
    position [i] has no text and the score [-(i + 1)]. *)
Lemma merge_loop (skip : SearchResult -> bool) :
  forall (l : list SearchResult) (st : list SearchResult * Z),
    snd st = len (fst st) + 1 ->
    (forall i d, nth_error (fst st) i = Some d ->
                 text d = None /\ score d = inject_Z (- (Z.of_nat i + 1))) ->
    let st' := fold_left (fun st doc => if skip doc then st else append_result st doc)
                         l st in
    snd st' = len (fst st') + 1 /\
    (forall i d, nth_error (fst st') i = Some d ->
                 text d = None /\ score d = inject_Z (- (Z.of_nat i + 1))) /\
    map docid (fst st')
    = map docid (fst st) ++ map docid (filter (fun doc => negb (skip doc)) l).
Proof.
  induction l as [|doc l IH]; intros st Hrank Hnum; cbv zeta in *;
    cbn [fold_left filter].
  - cbn [map]; rewrite app_nil_r; auto.
  - destruct (skip doc) eqn:E; cbn [negb]; [apply IH; assumption|].
    destruct (IH (append_result st doc)) as (Hrank' & Hnum' & Hids).
    + unfold append_result, len; simpl; rewrite length_app; simpl.
      unfold len in Hrank; lia.
    + intros i d; unfold append_result; simpl.
      destruct (Nat.lt_ge_cases i (length (fst st))) as [Hi|Hi].
      * rewrite nth_error_app1 by assumption; apply Hnum.
      * rewrite nth_error_app2 by assumption.
        destruct (i - length (fst st))%nat as [|r] eqn:Er; simpl.
        -- intros H; inversion H; subst d; simpl; split; [reflexivity|].
           f_equal; unfold len in Hrank; lia.
        -- destruct r; discriminate.
    + split; [assumption|]; split; [assumption|].
      rewrite Hids; unfold append_result; cbn [fst map].
      rewrite map_app, <- app_assoc; reflexivity.
Qed.

Lemma filter_all {A : Type} (l : list A) : filter (fun _ => true) l = l.
Proof. induction l; simpl; congruence. Qed.

(** What the merger returns: the top of the strategy's ranking followed by
    the original documents whose identifier is not in that top, numbered
    [-1, -2, ...] and stripped of their text. *)
Lemma merge_results_spec (ranking original_ranking : list SearchResult) (k : Z) :
  let out := merge_results ranking original_ranking k in
  let top_ids := map docid (slice ranking 0 k) in
  (forall i d, nth_error out i = Some d ->
               text d = None /\ score d = inject_Z (- (Z.of_nat i + 1))) /\
  map docid out
  = top_ids ++ filter (fun id => negb (str_mem id top_ids)) (map docid original_ranking).
Proof.
  unfold merge_results.
  set (top := slice ranking 0 k).
  change (fold_left append_result top ([], 1))
    with (fold_left (fun st doc => if (fun _ => false) doc then st
                                   else append_result st doc) top ([], 1)).
  destruct (merge_loop (fun _ => false) top ([], 1)) as (Hrank & Hnum & Hids).
  { reflexivity. }
  { intros [|i] d H; discriminate. }
  match goal with
  | |- context [fold_left ?f original_ranking ?st] =>
      destruct (merge_loop (fun doc => str_mem (docid doc) (map docid top))
                  original_ranking st Hrank Hnum) as (_ & Hnum' & Hids')
  end.
  split; [exact Hnum'|].
  rewrite Hids', Hids; cbn [map app fst].
  rewrite filter_all, filter_map_swap; reflexivity.
Qed.

Lemma In_firstn {A : Type} (n : nat) (l : list A) (x : A) : In x (firstn n l) -> In x l.
Proof.
  intros H; rewrite <- (firstn_skipn n l); apply in_or_app; now left.
Qed.

Lemma In_skipn {A : Type} (n : nat) (l : list A) (x : A) : In x (skipn n l) -> In x l.
Proof.
  intros H; rewrite <- (firstn_skipn n l); apply in_or_app; now right.
Qed.

Lemma NoDup_firstn {A : Type} (n : nat) (l : list A) : NoDup l -> NoDup (firstn n l).
Proof.
  intros H; rewrite <- (firstn_skipn n l) in H; now apply NoDup_app_remove_r in H.
Qed.

Lemma NoDup_skipn {A : Type} (n : nat) (l : list A) : NoDup l -> NoDup (skipn n l).
Proof.
  intros H; rewrite <- (firstn_skipn n l) in H; now apply NoDup_app_remove_l in H.
Qed.

Lemma In_slice {A : Type} (l : list A) (a b : Z) (x : A) : In x (slice l a b) -> In x l.
Proof. unfold slice; intros H; eapply In_skipn, In_firstn, H. Qed.

Lemma map_slice {A B : Type} (f : A -> B) (l : list A) (a b : Z) :
  map f (slice l a b) = slice (map f l) a b.
Proof.
  unfold slice, len; now rewrite length_map, skipn_map, firstn_map.
Qed.

Lemma NoDup_slice {A : Type} (l : list A) (a b : Z) : NoDup l -> NoDup (slice l a b).
Proof. intros H; unfold slice; now apply NoDup_firstn, NoDup_skipn. Qed.

(** The counting argument behind the merger: a duplicate-free [top] drawn
    from a duplicate-free list leaves exactly the other elements. *)
Lemma merged_ids (top original : list str) :
  NoDup original -> NoDup top -> incl top original ->
  let merged := top ++ filter (fun id => negb (str_mem id top)) original in
  length merged = length original /\
  (forall id, In id merged <-> In id original) /\
  skipn (length top) merged
  = filter (fun id => negb (str_mem id (firstn (length top) merged))) original.
Proof.
  intros Horig Htop Hincl merged.
  assert (Hperm : Permutation merged original).
  { apply NoDup_Permutation; [| assumption |].
    - apply NoDup_app; [assumption | now apply NoDup_filter |].
      intros id Hin Hf; apply filter_In in Hf as [_ Hf].
      apply negb_true_iff in Hf.
      apply str_mem_In in Hin; congruence.
    - intros id; unfold merged; rewrite in_app_iff, filter_In; split.
      + intros [H | [H _]]; auto.
      + intros H; destruct (str_mem id top) eqn:E.
        * left; now apply str_mem_In.
        * right; auto. }
  split; [now apply Permutation_length|].
  split; [intros id; split; apply Permutation_in;
          [assumption | now apply Permutation_sym]|].
  unfold merged.
  rewrite skipn_app, Nat.sub_diag, skipn_all, firstn_app, Nat.sub_diag, firstn_all.
  simpl; now rewrite app_nil_r.
Qed.

End Merger.

(** C10: every [SearchResult] of the list [PairwiseLlmRanker.rerank]
    returns, whatever the strategy, has no text and the negated 1-based
    position as its score: the scores are [-1, -2, ..., -n] in output
    order. *)
Theorem rerank_output_shape :
  forall (judge : str -> str -> str * str) (generate : list str -> list str)
         (heappush : list (value * ComparableDoc.t) -> value * ComparableDoc.t
                     -> list (value * ComparableDoc.t))
         (heappop_nonempty : list (value * ComparableDoc.t)
                             -> (value * ComparableDoc.t) * list (value * ComparableDoc.t))
         (method : str) (k : Z) (query : str) (ranking out : list SearchResult),
    Pairwise.rerank judge generate heappush heappop_nonempty method k query ranking
    = Ok out ->
    forall (i : nat) (d : SearchResult),
      nth_error out i = Some d ->
      text d = None /\ score d = inject_Z (- (Z.of_nat i + 1)).
Proof.
  intros judge generate heappush heappop_nonempty method k query ranking out Hrun.
  unfold Pairwise.rerank in Hrun.
  match type of Hrun with
  | bind ?c _ = _ => destruct c as [reordered| |]; simpl in Hrun; try discriminate
  end.
  inversion Hrun; subst out.
  apply merge_results_spec.
Qed.

(* ================================================================== *)
(** * What the strategies hand to the merger *)
(* ================================================================== *)

Section Loops.

Context {A S : Type}.

(** A property kept by every round that returns holds when the loop
    returns. *)
Lemma for_each_invariant (I : S -> Prop) (body : S -> A -> outcome S) :
  forall (xs : list A) (acc acc' : S),
    (forall acc x acc', In x xs -> I acc -> body acc x = Ok acc' -> I acc') ->
    I acc ->
    for_each xs body acc = Ok acc' ->
    I acc'.
Proof.
  induction xs as [|x xs IH]; intros acc acc' Hstep Hacc Hrun; simpl in Hrun.
  - now inversion Hrun; subst.
  - destruct (body acc x) as [acc1| |] eqn:Hx; simpl in Hrun; try discriminate.
    apply (IH acc1 acc'); auto.
    + intros acc0 y acc0' Hy; apply Hstep; now right.
    + apply (Hstep acc x); auto; now left.
Qed.

(** A loop whose rounds all return, returns. *)
Lemma for_each_total (I : S -> Prop) (body : S -> A -> outcome S) :
  forall (xs : list A) (acc : S),
    (forall acc x, In x xs -> I acc -> exists acc', body acc x = Ok acc' /\ I acc') ->
    I acc ->
    exists acc', for_each xs body acc = Ok acc' /\ I acc'.
Proof.
  induction xs as [|x xs IH]; intros acc Hstep Hacc; simpl.
  - now exists acc.
  - destruct (Hstep acc x) as (acc1 & -> & Hacc1); auto; [now left|]; simpl.
    apply IH; auto.
    intros acc0 y Hy; apply Hstep; now right.
Qed.

End Loops.

Section BubbleSort.

Import Pairwise.

Variable judge : str -> str -> str * str.

Lemma getitem_In {A : Type} (l : list A) (i : Z) (x : A) : getitem l i = Ok x -> In x l.
Proof.
  unfold getitem; destruct (position l i) as [p|]; [|discriminate].
  destruct (nth_error l p) eqn:E; intros H; inversion H; subst.
  eapply nth_error_In, E.
Qed.

Lemma getitem_nth_error {A : Type} (l : list A) (i : Z) (x : A) :
  0 <= i -> getitem l i = Ok x -> nth_error l (Z.to_nat i) = Some x /\ i < len l.
Proof.
  intros Hi; unfold getitem, position.
  replace (i <? 0) with false by lia.
  destruct ((0 <=? i) && (i <? len l))%bool eqn:E; [|discriminate].
  destruct (nth_error l (Z.to_nat i)) eqn:En; intros H; inversion H; subst.
  split; [reflexivity | lia].
Qed.

(** Exchanging two neighbours rearranges the list. *)
Lemma swap_neighbours_perm {A : Type} (l : list A) (p : nat) (a b : A) :
  nth_error l p = Some a ->
  nth_error l (S p) = Some b ->
  Permutation l (update (update l p b) (S p) a).
Proof.
  revert p; induction l as [|x l IH]; intros [|p] Ha Hb; simpl in *; try discriminate.
  - destruct l as [|y l]; simpl in *; [discriminate|].
    inversion Ha; inversion Hb; subst; apply perm_swap.
  - apply perm_skip, IH; assumption.
Qed.

Lemma bubble_step_perm (query : str) (arr arr' : list ComparableDoc.t) (j : Z) :
  0 <= j ->
  bubble_step judge query arr j = Ok arr' ->
  Permutation arr arr'.
Proof.
  intros Hj; unfold bubble_step.
  destruct (getitem arr j) as [a| |] eqn:Ha; simpl; try discriminate.
  destruct (getitem arr (j + 1)) as [b| |] eqn:Hb; simpl; try discriminate.
  apply getitem_nth_error in Ha as [Ha Hja]; [|lia].
  apply getitem_nth_error in Hb as [Hb Hjb]; [|lia].
  destruct (str_eqb _ _); [|intros H; inversion H; subst; reflexivity].
  unfold setitem.
  rewrite position_nonneg by lia; simpl.
  rewrite position_nonneg by (unfold len in *; rewrite update_length; lia).
  intros H; inversion H; subst.
  replace (Z.to_nat (j + 1)) with (Datatypes.S (Z.to_nat j)) in * by lia.
  now apply swap_neighbours_perm.
Qed.

(** The two nested loops of [bubblesort] only rearrange [arr]. *)
Lemma bubble_loops_perm (query : str) (top : Z) (arr arr' : list ComparableDoc.t) :
  for_each (range top)
    (fun arr i =>
       for_each (range (top - i - 1)) (fun arr j => bubble_step judge query arr j) arr)
    arr = Ok arr' ->
  Permutation arr arr'.
Proof.
  apply (for_each_invariant (fun current => Permutation arr current)); [|reflexivity].
  intros current i current' _ Hcur.
  apply (for_each_invariant (fun c => Permutation arr c)); [|assumption].
  intros c j c' Hj Hc Hstep.
  apply In_range in Hj.
  etransitivity; [exact Hc | eapply bubble_step_perm; [|exact Hstep]; lia].
Qed.

Lemma map_docid_enumerate_results (i : Z) (arr : list ComparableDoc.t) :
  map docid (enumerate_results i arr) = map ComparableDoc.docid arr.
Proof.
  revert i; induction arr as [|doc arr IH]; intros i; simpl; [reflexivity|].
  now rewrite IH.
Qed.

Lemma length_enumerate_results (i : Z) (arr : list ComparableDoc.t) :
  length (enumerate_results i arr) = length arr.
Proof.
  rewrite <- (length_map docid), map_docid_enumerate_results; apply length_map.
Qed.

(** Reading back a slice that was just assigned, when the assignment kept
    its length. *)
Lemma slice_setslice {A : Type} (l new : list A) (stop : Z) :
  length new = length (slice l 0 stop) ->
  slice (setslice l 0 stop new) 0 stop = new /\
  length (setslice l 0 stop new) = length l.
Proof.
  intros Hnew.
  pose proof (slice_length l 0 stop) as Hs.
  pose proof (len_nonneg l) as Hn.
  pose proof (adjust_bounds (len l) stop Hn) as Hb.
  assert (H0 : adjust (len l) 0 = 0) by (unfold adjust; simpl; lia).
  rewrite H0 in Hs.
  assert (Hlen : length (setslice l 0 stop new) = length l).
  { unfold setslice; rewrite H0; simpl.
    rewrite length_app, length_skipn; unfold len in *; lia. }
  split; [|exact Hlen].
  unfold slice, len; rewrite Hlen; fold (len l); rewrite H0; simpl.
  unfold setslice; rewrite H0; simpl.
  rewrite firstn_app.
  replace (Z.to_nat (adjust (len l) stop - 0) - length new)%nat with O
    by (unfold len in *; lia).
  rewrite firstn_O, app_nil_r.
  apply firstn_all2; unfold len in *; lia.
Qed.

(** [bubblesort] rearranges the identifiers of the first [top] documents
    and returns a list of the length it was given. *)
Lemma bubblesort_top (query : str) (ranking reordered : list SearchResult) (top : Z) :
  bubblesort judge query ranking top = Ok reordered ->
  Permutation (map docid (slice ranking 0 top)) (map docid (slice reordered 0 top)) /\
  length reordered = length ranking.
Proof.
  unfold bubblesort.
  match goal with
  | |- bind ?c _ = _ -> _ => destruct c as [arr'| |] eqn:Hloops; simpl; try discriminate
  end.
  intros H; inversion H; subst reordered; clear H.
  apply bubble_loops_perm in Hloops.
  destruct (slice_setslice ranking (enumerate_results 0 arr') top) as [Hslice Hlen].
  { rewrite length_enumerate_results, <- (Permutation_length Hloops).
    apply length_map. }
  rewrite Hslice, map_docid_enumerate_results; split; [|exact Hlen].
  apply (Permutation_map ComparableDoc.docid) in Hloops.
  now rewrite map_map in Hloops.
Qed.

End BubbleSort.

Section Strategies.

Import Pairwise.

(** [scores[key] += delta] keeps the keys distinct and adds at most [key]. *)
Lemma dict_add_keys (scores : scores_dict) (key : str) (delta : Q) :
  NoDup (map fst scores) ->
  NoDup (map fst (dict_add scores key delta)) /\
  forall x, In x (map fst (dict_add scores key delta)) <-> In x (map fst scores) \/ x = key.
Proof.
  induction scores as [|[k v] rest IH]; intros Hnd; cbn [dict_add].
  - split; [repeat constructor; easy | intros x; simpl; intuition].
  - inversion Hnd as [|? ? Hk Hrest]; subst.
    destruct (str_eqb k key) eqn:E; cbn [map fst].
    + apply str_eqb_eq in E; subst k.
      split; [assumption | intros x; simpl; intuition].
    + destruct (IH Hrest) as [Hnd' Hin'].
      split.
      * constructor; [|assumption].
        rewrite Hin'; intros [H | H]; [contradiction|].
        subst k; rewrite str_eqb_refl in E; discriminate.
      * intros x; simpl; rewrite Hin'; intuition.
Qed.

Lemma In_combinations {A : Type} (l : list A) (p : A * A) :
  In p (combinations l) -> In (fst p) l /\ In (snd p) l.
Proof.
  induction l as [|x l IH]; simpl; [easy|].
  rewrite in_app_iff, in_map_iff.
  intros [(y & <- & Hy) | H]; simpl; [auto|].
  destruct (IH H); auto.
Qed.

Lemma insert_desc_perm (x : SearchResult) (l : list SearchResult) :
  Permutation (insert_desc x l) (x :: l).
Proof.
  induction l as [|y l IH]; simpl; [reflexivity|].
  destruct (Qle_bool (score y) (score x)); [reflexivity|].
  etransitivity; [apply perm_skip, IH | apply perm_swap].
Qed.

Lemma sorted_by_score_perm (l : list SearchResult) : Permutation (sorted_by_score l) l.
Proof.
  induction l as [|x l IH]; simpl; [reflexivity|].
  etransitivity; [apply insert_desc_perm | now apply perm_skip].
Qed.

(** The score table only holds identifiers of the ranking, each once. *)
Lemma accumulate_scores_keys (ranking : list SearchResult) (outputs : list str)
  (scores : scores_dict) :
  accumulate_scores (combinations ranking) outputs = Ok scores ->
  NoDup (map fst scores) /\ incl (map fst scores) (map docid ranking).
Proof.
  unfold accumulate_scores.
  apply (for_each_invariant
           (fun scores => NoDup (map fst scores) /\
                          incl (map fst scores) (map docid ranking)));
    [|split; [constructor | intros x []]].
  intros acc i acc' _ [Hnd Hincl]; unfold score_pair.
  destruct (getitem (combinations ranking) (i / 2)) as [docs| |] eqn:Hdocs;
    simpl; try discriminate.
  apply getitem_In, In_combinations in Hdocs as [H1 H2].
  apply (in_map docid) in H1, H2.
  destruct (getitem outputs i); simpl; try discriminate.
  destruct (getitem outputs (i + 1)); simpl; try discriminate.
  assert (Hadd : forall acc key delta,
             NoDup (map fst acc) /\ incl (map fst acc) (map docid ranking) ->
             In key (map docid ranking) ->
             NoDup (map fst (dict_add acc key delta)) /\
             incl (map fst (dict_add acc key delta)) (map docid ranking)).
  { intros acc0 key delta [Hn Hi] Hkey.
    destruct (dict_add_keys acc0 key delta Hn) as [Hn' Hin'].
    split; [assumption|].
    intros x Hx; apply Hin' in Hx as [Hx | ->]; auto. }
  destruct (_ && _)%bool; [intros H; inversion H; subst; auto|].
  destruct (_ && _)%bool; intros H; inversion H; subst; auto.
Qed.

(** The all-pairs ranking lists identifiers of the candidates, each once. *)
Lemma allpair_ids (generate : list str -> list str) (query : str)
  (ranking reordered : list SearchResult) :
  allpair generate query ranking = Ok reordered ->
  NoDup (map docid reordered) /\ incl (map docid reordered) (map docid ranking).
Proof.
  unfold allpair.
  destruct (accumulate_scores _ _) as [scores| |] eqn:Hacc; simpl; try discriminate.
  intros H; inversion H; subst reordered; clear H.
  apply accumulate_scores_keys in Hacc as [Hnd Hincl].
  assert (Hperm : Permutation
                    (map docid (sorted_by_score
                                  (map (fun entry => mkSearchResult (fst entry) (snd entry) None)
                                       scores)))
                    (map fst scores)).
  { etransitivity; [apply Permutation_map, sorted_by_score_perm|].
    rewrite map_map; simpl; reflexivity. }
  split.
  - eapply Permutation_NoDup; [apply Permutation_sym, Hperm | assumption].
  - intros x Hx; apply Hincl; eapply Permutation_in; [exact Hperm | assumption].
Qed.

(** [heapSort] returns only when there is nothing to sort. *)
Lemma heapSort_returns_nothing (judge : str -> str -> str * str)
  (heappush : list (value * ComparableDoc.t) -> value * ComparableDoc.t
              -> list (value * ComparableDoc.t))
  (heappop_nonempty : list (value * ComparableDoc.t)
                      -> (value * ComparableDoc.t) * list (value * ComparableDoc.t))
  (arr sorted : list ComparableDoc.t) (top : Z) :
  heapSort judge heappush heappop_nonempty arr top = Ok sorted ->
  arr = [] /\ sorted = [].
Proof.
  destruct arr as [|anchor rest]; [|discriminate].
  unfold heapSort; simpl.
  destruct (range top) as [|x xs]; simpl; [|discriminate].
  intros H; inversion H; auto.
Qed.

(** The merger's guarantees, given a top that is duplicate-free and drawn
    from the original candidates. *)
Lemma merge_results_invariants (reordered original : list SearchResult) (k : Z) :
  NoDup (map docid original) ->
  NoDup (map docid (slice reordered 0 k)) ->
  incl (map docid (slice reordered 0 k)) (map docid original) ->
  let out := merge_results reordered original k in
  length out = length original /\
  (forall id, In id (map docid out) <-> In id (map docid original)) /\
  exists m : nat,
    (0 <= k -> Z.of_nat m <= k) /\
    skipn m (map docid out)
    = filter (fun id => negb (str_mem id (firstn m (map docid out)))) (map docid original).
Proof.
  intros Horig Htop Hincl out.
  destruct (merge_results_spec reordered original k) as [_ Hids].
  fold out in Hids.
  destruct (merged_ids _ _ Horig Htop Hincl) as (Hlen & Hin & Htail).
  rewrite <- Hids in Hlen, Hin, Htail.
  rewrite length_map in Hlen.
  split; [now rewrite length_map in Hlen|].
  split; [exact Hin|].
  exists (length (map docid (slice reordered 0 k))); split; [|exact Htail].
  intros Hk; rewrite length_map.
  pose proof (slice_length reordered 0 k) as Hs.
  pose proof (len_nonneg reordered).
  unfold len, adjust in *; simpl in Hs.
  replace (k <? 0) with false in Hs by lia; lia.
Qed.

End Strategies.

(** C4: for the all-pairs, heap and bubble strategies alike and every
    candidate list with distinct docids, a list returned by
    [PairwiseLlmRanker.rerank] has the length of the input and the same set
    of docids, and behind its reordered top (the first [m] entries, at most
    [k] of them) the remaining documents stand in the order they had in the
    input. *)
Theorem rerank_merge_invariants :
  forall (judge : str -> str -> str * str) (generate : list str -> list str)
         (heappush : list (value * ComparableDoc.t) -> value * ComparableDoc.t
                     -> list (value * ComparableDoc.t))
         (heappop_nonempty : list (value * ComparableDoc.t)
                             -> (value * ComparableDoc.t) * list (value * ComparableDoc.t))
         (method : str) (k : Z) (query : str) (ranking out : list SearchResult),
    NoDup (map docid ranking) ->
    Pairwise.rerank judge generate heappush heappop_nonempty method k query ranking
    = Ok out ->
    length out = length ranking /\
    (forall id, In id (map docid out) <-> In id (map docid ranking)) /\
    exists m : nat,
      (0 <= k -> Z.of_nat m <= k) /\
      skipn m (map docid out)
      = filter (fun id => negb (str_mem id (firstn m (map docid out))))
               (map docid ranking).
Proof.
  intros judge generate heappush heappop_nonempty method k query ranking out Hnd Hrun.
  unfold Pairwise.rerank in Hrun.
  assert (Hgoal : forall reordered,
             NoDup (map docid (slice reordered 0 k)) ->
             incl (map docid (slice reordered 0 k)) (map docid ranking) ->
             Ok (Pairwise.merge_results reordered ranking k) = Ok out ->
             length out = length ranking /\
             (forall id, In id (map docid out) <-> In id (map docid ranking)) /\
             exists m : nat,
               (0 <= k -> Z.of_nat m <= k) /\
               skipn m (map docid out)
               = filter (fun id => negb (str_mem id (firstn m (map docid out))))
                        (map docid ranking)).
  { intros reordered H1 H2 H; inversion H; subst out.
    now apply merge_results_invariants. }
  destruct (str_eqb method (lit "allpair")).
  { destruct (Pairwise.allpair generate query ranking) as [reordered| |] eqn:Hall;
      simpl in Hrun; try discriminate.
    apply allpair_ids in Hall as [Hn Hi].
    apply (Hgoal reordered); [| | exact Hrun].
    - rewrite map_slice; now apply NoDup_slice.
    - intros x Hx; rewrite map_slice in Hx.
      apply Hi; eapply In_slice; exact Hx. }
  destruct (str_eqb method (lit "heapsort")).
  { destruct (Pairwise.heapSort _ _ _ _ _) as [sorted| |] eqn:Hheap;
      simpl in Hrun; try discriminate.
    apply heapSort_returns_nothing in Hheap as [_ ->].
    assert (Hs : slice (@nil SearchResult) 0 k = [])
      by (unfold slice; rewrite skipn_nil; apply firstn_nil).
    apply (Hgoal []); [rewrite Hs; constructor | rewrite Hs; intros x [] | exact Hrun]. }
  destruct (str_eqb method (lit "bubblesort")); [|discriminate].
  destruct (Pairwise.bubblesort judge query ranking k) as [reordered| |] eqn:Hbub;
    simpl in Hrun; try discriminate.
  apply bubblesort_top in Hbub as [Hperm _].
  apply (Hgoal reordered); [| | exact Hrun].
  - eapply Permutation_NoDup; [exact Hperm|].
    rewrite map_slice; now apply NoDup_slice.
  - intros x Hx.
    apply Permutation_sym in Hperm.
    apply (Permutation_in _ Hperm) in Hx.
    rewrite map_slice in Hx; eapply In_slice; exact Hx.
Qed.

(* ================================================================== *)
(** * When the strategies return *)
(* ================================================================== *)

Section Returns.

Import Pairwise.

Variable judge : str -> str -> str * str.
Variable generate : list str -> list str.
Variable heappush : list (value * ComparableDoc.t) -> value * ComparableDoc.t
                    -> list (value * ComparableDoc.t).
Variable heappop_nonempty : list (value * ComparableDoc.t)
                            -> (value * ComparableDoc.t) * list (value * ComparableDoc.t).

Lemma length_allpair_prompts (query : str) (doc_pairs : list (SearchResult * SearchResult)) :
  len (allpair_prompts query doc_pairs) = 2 * len doc_pairs.
Proof.
  unfold len, allpair_prompts.
  induction doc_pairs as [|docs rest IH]; [reflexivity|].
  cbn [flat_map app length]; lia.
Qed.

(** The all-pairs strategy returns whenever the model gives one output per
    prompt. *)
Lemma rerank_allpair_returns (k : Z) (query : str) (ranking : list SearchResult) :
  length (generate (allpair_prompts query (combinations ranking)))
  = length (allpair_prompts query (combinations ranking)) ->
  exists out,
    rerank judge generate heappush heappop_nonempty (lit "allpair") k query ranking
    = Ok out.
Proof.
  intros Hgen.
  unfold rerank; rewrite str_eqb_refl; unfold allpair.
  destruct (accumulate_scores_sum (combinations ranking)
              (generate (allpair_prompts query (combinations ranking))))
    as (scores & -> & _).
  { rewrite <- (length_allpair_prompts query); unfold len; now rewrite Hgen. }
  simpl; eauto.
Qed.

Lemma bubble_step_total (query : str) (arr : list ComparableDoc.t) (j : Z) :
  0 <= j -> j + 1 < len arr ->
  exists arr', bubble_step judge query arr j = Ok arr' /\ length arr' = length arr.
Proof.
  intros Hj Hfit; unfold bubble_step.
  destruct (getitem_in_range arr j) as (a & -> & _); [lia|].
  destruct (getitem_in_range arr (j + 1)) as (b & -> & _); [lia|].
  simpl.
  destruct (str_eqb _ _); [|eauto].
  unfold setitem.
  rewrite position_nonneg by lia; simpl.
  rewrite position_nonneg by (unfold len in *; rewrite update_length; lia).
  eexists; split; [reflexivity|].
  now rewrite !update_length.
Qed.

(** The bubble strategy returns whenever the list has at least [k]
    candidates. *)
Lemma rerank_bubblesort_returns (k : Z) (query : str) (ranking : list SearchResult) :
  k <= len ranking ->
  exists out,
    rerank judge generate heappush heappop_nonempty (lit "bubblesort") k query ranking
    = Ok out.
Proof.
  intros Hk.
  unfold rerank.
  replace (str_eqb (lit "bubblesort") (lit "allpair")) with false by reflexivity.
  replace (str_eqb (lit "bubblesort") (lit "heapsort")) with false by reflexivity.
  rewrite str_eqb_refl; unfold bubblesort.
  set (arr := map (fun doc => ComparableDoc.make (docid doc) (text doc))
                  (slice ranking 0 k)).
  destruct (for_each_total (fun current : list ComparableDoc.t =>
                              0 < k -> len current = k)
              (fun arr i =>
                 for_each (range (k - i - 1))
                          (fun arr j => bubble_step judge query arr j) arr)
              (range k) arr) as (sorted & -> & _).
  - intros current i Hi Hcur.
    apply In_range in Hi.
    apply (for_each_total (fun c : list ComparableDoc.t => 0 < k -> len c = k));
      [|assumption].
    intros c j Hj Hc.
    apply In_range in Hj.
    destruct (bubble_step_total query c j) as (c' & -> & Hlen); [lia | lia|].
    exists c'; split; [reflexivity|].
    intros Hpos; unfold len in *; rewrite Hlen; auto.
  - intros Hpos; unfold arr, len; rewrite length_map.
    pose proof (slice_length ranking 0 k) as Hs.
    unfold len, adjust in *; simpl in Hs.
    replace (k <? 0) with false in Hs by lia; lia.
  - simpl; eauto.
Qed.

(** With fewer candidates than [k] the inner loop of [bubblesort] indexes
    past the end: one candidate and the default [k = 10] raise
    [IndexError]. *)
Lemma rerank_bubblesort_short_list_raises (query : str) (d : SearchResult) :
  rerank judge generate heappush heappop_nonempty (lit "bubblesort") 10 query [d]
  = Raise IndexError.
Proof. reflexivity. Qed.

End Returns.

(* ================================================================== *)
(** * Concrete runs *)
(* ================================================================== *)

(** Three candidates, bubble strategy with [k = 2] and a model that always
    prefers the second passage: the first two candidates are exchanged and
    the third stays last. *)
Lemma rerank_merge_invariants_witness :
  NoDup (map docid Samples.three_docs) /\
  Pairwise.rerank Samples.prefers_second Samples.always_a Samples.push_front
    Samples.pop_front (lit "bubblesort") 2 [] Samples.three_docs
  = Ok [ mkSearchResult (lit "b") (inject_Z (-1)) None;
         mkSearchResult (lit "a") (inject_Z (-2)) None;
         mkSearchResult (lit "c") (inject_Z (-3)) None ] /\
  map docid [ mkSearchResult (lit "b") (inject_Z (-1)) None;
              mkSearchResult (lit "a") (inject_Z (-2)) None;
              mkSearchResult (lit "c") (inject_Z (-3)) None ]
  = [lit "b"; lit "a"; lit "c"] /\
  exists m : nat,
    (0 <= 2 -> Z.of_nat m <= 2) /\
    skipn m [lit "b"; lit "a"; lit "c"]
    = filter (fun id => negb (str_mem id (firstn m [lit "b"; lit "a"; lit "c"])))
             (map docid Samples.three_docs).
Proof.
  assert (Hnd : NoDup (map docid Samples.three_docs)).
  { repeat constructor; simpl; intuition discriminate. }
  split; [exact Hnd|].
  split; [reflexivity|].
  split; [reflexivity|].
  exact (proj2 (proj2
           (rerank_merge_invariants Samples.prefers_second Samples.always_a
              Samples.push_front Samples.pop_front (lit "bubblesort") 2 []
              Samples.three_docs _ Hnd eq_refl))).
Defined.

(** The spec's example: ten candidates, window 4 and stride 2 visit the
    windows starting at 6, 4, 2 and 0. *)
Lemma window_coverage_witness :
  Listwise.rerank_pass Samples.second_first 4 2 10 [] Samples.ten_docs
  = (final <- for_each [6; 4; 2; 0]
                (fun current start_pos =>
                   permutation <- Samples.second_first []
                                    (slice current start_pos (start_pos + 4)) ;;
                   Listwise.returned
                     (Listwise.receive_permutation current permutation start_pos
                        (start_pos + 4)))
                Samples.ten_docs ;;
     Ok (final, [6; 4; 2; 0])) /\
  exists ranking',
    Listwise.rerank_pass Samples.second_first 4 2 10 [] Samples.ten_docs
    = Ok (ranking', [6; 4; 2; 0]).
Proof.
  destruct (window_coverage Samples.second_first 4 2 [] Samples.ten_docs 10)
    as (starts & Hstarts & _ & _ & _ & Hloop & Hreturns).
  - lia.
  - vm_compute; discriminate.
  - vm_compute; lia.
  - change (starts = [6; 4; 2; 0]) in Hstarts; subst starts.
    split; [exact Hloop|].
    destruct Hreturns as (ranking' & Hrun & _).
    + intros docs; exists (lit "[2] > [1]"); split; [reflexivity|].
      eexists; vm_compute; reflexivity.
    + exists ranking'; exact Hrun.
Defined.

(** Three candidates, three pairs, every double judgment a conflict: the
    scores add up to 3. *)
Lemma allpair_score_conservation_witness :
  len (Samples.always_a (Pairwise.allpair_prompts [] (Pairwise.combinations Samples.three_docs)))
  = 2 * len (Pairwise.combinations Samples.three_docs) /\
  exists scores,
    Pairwise.accumulate_scores (Pairwise.combinations Samples.three_docs)
      (Samples.always_a
         (Pairwise.allpair_prompts [] (Pairwise.combinations Samples.three_docs)))
    = Ok scores /\
    (Pairwise.sum_scores scores == 3)%Q.
Proof.
  split; [reflexivity|].
  destruct (allpair_score_conservation Samples.three_docs
              (Samples.always_a
                 (Pairwise.allpair_prompts [] (Pairwise.combinations Samples.three_docs)))
              eq_refl) as (scores & Hrun & Hsum & _).
  exists scores; split; [exact Hrun | rewrite Hsum; reflexivity].
Defined.

(** A request the API rejects as too long, and the window [1, 3) of three
    candidates. *)
Lemma context_too_long_degrades_to_identity_witness :
  Listwise.openai_compare (fun s => len s) Samples.too_long (lit "gpt-3.5-turbo") 1
    [] Samples.three_docs
  = Ok Listwise.reduce_length /\
  Listwise.receive_permutation Samples.three_docs Listwise.reduce_length 1 3
  = (Samples.three_docs, Ok tt).
Proof.
  destruct (context_too_long_degrades_to_identity (fun s => len s) Samples.too_long
              (lit "gpt-3.5-turbo") [] Samples.three_docs _
              (lit "This model's maximum context length is 4097 tokens. However, your messages resulted in 5000 tokens.")
              0 Samples.three_docs 1 3 eq_refl eq_refl eq_refl ltac:(lia))
    as (Hsentinel & Hsame & _).
  split; assumption.
Defined.

(** Three candidates under the all-pairs strategy with [k = 2]. *)
Lemma rerank_output_shape_witness :
  Pairwise.rerank Samples.prefers_second Samples.always_a Samples.push_front
    Samples.pop_front (lit "allpair") 2 [] Samples.three_docs
  = Ok [ mkSearchResult (lit "a") (inject_Z (-1)) None;
         mkSearchResult (lit "b") (inject_Z (-2)) None;
         mkSearchResult (lit "c") (inject_Z (-3)) None ] /\
  (forall (i : nat) (d : SearchResult),
      nth_error [ mkSearchResult (lit "a") (inject_Z (-1)) None;
                  mkSearchResult (lit "b") (inject_Z (-2)) None;
                  mkSearchResult (lit "c") (inject_Z (-3)) None ] i = Some d ->
      text d = None /\ score d = inject_Z (- (Z.of_nat i + 1))).
Proof.
  split; [reflexivity|].
  exact (rerank_output_shape Samples.prefers_second Samples.always_a
           Samples.push_front Samples.pop_front (lit "allpair") 2 []
           Samples.three_docs _ eq_refl).
Defined.
(* ================================================================== *)
(** * Further properties of the listwise helpers *)
(* ================================================================== *)

Section CleanResponse.

Import Listwise.

Lemma lstrip_idempotent (s : str) : lstrip (lstrip s) = lstrip s.
Proof.
  induction s as [|c s IH]; simpl; [reflexivity|].
  destruct (isspace c) eqn:E; [assumption|].
  simpl; now rewrite E.
Qed.

Lemma lstrip_app_nonblank (s : str) (c : N) :
  isspace c = false -> lstrip (s ++ [c]) = lstrip s ++ [c].
Proof.
  intros Hc; induction s as [|x s IH]; simpl; [now rewrite Hc|].
  destruct (isspace x); [assumption | reflexivity].
Qed.

Lemma rstrip_cons_nonblank (c : N) (s : str) :
  isspace c = false -> rstrip (c :: s) = c :: rstrip s.
Proof.
  intros Hc; unfold rstrip; simpl.
  now rewrite lstrip_app_nonblank, rev_app_distr.
Qed.

Lemma lstrip_head (s : str) :
  lstrip s = [] \/ exists c t, lstrip s = c :: t /\ isspace c = false.
Proof.
  induction s as [|c s IH]; simpl; [now left|].
  destruct (isspace c) eqn:E; [assumption|].
  right; eauto.
Qed.

Lemma strip_idempotent (s : str) : strip (strip s) = strip s.
Proof.
  unfold strip.
  assert (Hl : lstrip (rstrip (lstrip s)) = rstrip (lstrip s)).
  { destruct (lstrip_head s) as [-> | (c & t & -> & Hc)]; [reflexivity|].
    rewrite rstrip_cons_nonblank by assumption; simpl; now rewrite Hc. }
  rewrite Hl; unfold rstrip.
  now rewrite rev_involutive, lstrip_idempotent.
Qed.

Lemma In_lstrip (s : str) (c : N) : In c (lstrip s) -> In c s.
Proof.
  induction s as [|x s IH]; simpl; [easy|].
  destruct (isspace x); [auto|].
  simpl; tauto.
Qed.

Lemma In_strip (s : str) (c : N) : In c (strip s) -> In c s.
Proof.
  unfold strip, rstrip; intros H.
  apply In_lstrip.
  apply in_rev in H; apply In_lstrip in H; now apply in_rev in H.
Qed.

Lemma strip_blank_free (s : str) :
  (forall c, In c s -> isspace c = false) -> strip s = s.
Proof.
  intros H; unfold strip, rstrip.
  assert (E : forall t, (forall c, In c t -> isspace c = false) ->
                        match t with [] => True | _ => lstrip t = t end).
  { intros [|c t] Ht; [exact I|]; simpl; now rewrite (Ht c) by now left. }
  assert (El : lstrip s = s).
  { specialize (E s H); destruct s; [reflexivity | assumption]. }
  rewrite El.
  assert (Er : lstrip (rev s) = rev s).
  { specialize (E (rev s)); destruct (rev s) eqn:R; [reflexivity|].
    apply E; intros c Hc; apply H, in_rev; rewrite R; exact Hc. }
  rewrite Er; apply rev_involutive.
Qed.

Lemma in_ranges_spec (c : N) (rs : list (N * N)) :
  in_ranges c rs = true <-> exists lo hi, In (lo, hi) rs /\ (lo <= c <= hi)%N.
Proof.
  unfold in_ranges; rewrite existsb_exists; split.
  - intros ([lo hi] & Hin & H); apply andb_true_iff in H as [H1 H2].
    apply N.leb_le in H1, H2; simpl in *; eauto.
  - intros (lo & hi & Hin & H1 & H2); exists (lo, hi); split; [assumption|].
    simpl; apply andb_true_iff; split; now apply N.leb_le.
Qed.

Lemma isdigit_not_space (c : N) : isdigit c = true -> isspace c = false.
Proof.
  intros Hd.
  destruct (isspace c) eqn:Hs; [exfalso | reflexivity].
  apply in_ranges_spec in Hs as (lo & hi & Hin & Hc).
  unfold isdigit, isdecimal in Hd; apply orb_true_iff in Hd.
  assert (Hd' : exists a b, In (a, b) (decimal_ranges ++ digit_only_ranges) /\ (a <= c <= b)%N).
  { destruct Hd as [Hd | Hd]; apply in_ranges_spec in Hd as (a & b & Hab & H);
      exists a, b; split; auto; apply in_or_app; auto. }
  destruct Hd' as (a & b & Hab & Hc').
  assert (Hdisjoint :
            forallb (fun s => forallb (fun d => (N.ltb (snd s) (fst d) || N.ltb (snd d) (fst s))%bool)
                                      (decimal_ranges ++ digit_only_ranges))
                    space_ranges = true) by (vm_compute; reflexivity).
  rewrite forallb_forall in Hdisjoint.
  specialize (Hdisjoint _ Hin); rewrite forallb_forall in Hdisjoint.
  specialize (Hdisjoint _ Hab); simpl in Hdisjoint.
  apply orb_true_iff in Hdisjoint as [H | H]; apply N.ltb_lt in H; lia.
Qed.

Lemma In_lstrip_nonblank (s : str) (c : N) :
  In c s -> isspace c = false -> In c (lstrip s).
Proof.
  intros Hin Hc; induction s as [|x s IH]; simpl in *; [easy|].
  destruct (isspace x) eqn:E; [|assumption].
  destruct Hin as [-> | Hin]; [congruence | auto].
Qed.

Lemma In_strip_nonblank (s : str) (c : N) :
  In c s -> isspace c = false -> In c (strip s).
Proof.
  intros Hin Hc; unfold strip, rstrip.
  apply -> in_rev; apply In_lstrip_nonblank; [|assumption].
  apply -> in_rev; now apply In_lstrip_nonblank.
Qed.

Lemma blanking_fixed (l : str) :
  (forall c, In c l -> isdigit c = true \/ c = 32%N) ->
  map (fun c => if isdigit c then c else 32%N) l = l.
Proof.
  induction l as [|c l IH]; intros Hl; simpl; [reflexivity|].
  rewrite IH by (intros x Hx; apply Hl; now right).
  destruct (Hl c) as [-> | ->]; [now left | reflexivity | reflexivity].
Qed.

(** X1: [clean_response] returns only digits and blanks, with no blank at
    either end; it keeps every digit of the response, so the result is empty
    exactly when the response has no digit; and cleaning a cleaned response
    changes nothing. *)
Theorem clean_response_shape :
  forall response : str,
    (forall c, In c (clean_response response) -> isdigit c = true \/ c = 32%N) /\
    strip (clean_response response) = clean_response response /\
    (forall c, In c response -> isdigit c = true -> In c (clean_response response)) /\
    (clean_response response = [] <-> forall c, In c response -> isdigit c = false) /\
    clean_response (clean_response response) = clean_response response.
Proof.
  intros response.
  assert (Hkeep : forall c, In c response -> isdigit c = true ->
                            In c (clean_response response)).
  { intros c Hin Hd; apply In_strip_nonblank; [|now apply isdigit_not_space].
    apply in_map_iff; exists c; split; [now rewrite Hd | assumption]. }
  assert (Hempty : clean_response response = [] <->
                   forall c, In c response -> isdigit c = false).
  { split; [|apply clean_response_no_digit].
    intros E c Hin; destruct (isdigit c) eqn:Hd; [|reflexivity].
    specialize (Hkeep c Hin Hd); rewrite E in Hkeep; destruct Hkeep. }
  assert (Hchars : forall c, In c (clean_response response) ->
                             isdigit c = true \/ c = 32%N).
  { intros c Hc; apply In_strip, in_map_iff in Hc as (x & <- & _).
    destruct (isdigit x) eqn:E; auto. }
  split; [exact Hchars|]; split; [apply strip_idempotent|].
  split; [exact Hkeep|]; split; [exact Hempty|].
  unfold clean_response at 1.
  rewrite (blanking_fixed _ Hchars); apply strip_idempotent.
Qed.

End CleanResponse.

Section RepairMore.

Import Listwise.

Lemma remove_duplicate_from_fixed (response acc : list Z) :
  NoDup (acc ++ response) ->
  fold_left (fun new_response c => if mem c new_response then new_response
                                   else new_response ++ [c]) response acc
  = acc ++ response.
Proof.
  revert acc; induction response as [|c response IH]; intros acc Hnd; simpl.
  - now rewrite app_nil_r.
  - assert (Hc : mem c acc = false).
    { apply mem_not_In; intros Hin.
      apply NoDup_remove_2 in Hnd; apply Hnd, in_or_app; now left. }
    rewrite Hc, IH; rewrite <- app_assoc; [reflexivity | exact Hnd].
Qed.

Lemma remove_duplicate_fixed (response : list Z) :
  NoDup response -> remove_duplicate response = response.
Proof. intros H; apply (remove_duplicate_from_fixed response []); exact H. Qed.

(** X2: [remove_duplicate] returns a duplicate-free list with the members
    of its argument, leaves a duplicate-free list as it is, and is therefore
    idempotent. *)
Theorem remove_duplicate_spec :
  forall response : list Z,
    NoDup (remove_duplicate response) /\
    (forall x, In x (remove_duplicate response) <-> In x response) /\
    (NoDup response -> remove_duplicate response = response) /\
    remove_duplicate (remove_duplicate response) = remove_duplicate response.
Proof.
  intros response.
  split; [apply NoDup_remove_duplicate|].
  split; [intros x; apply In_remove_duplicate|].
  split; [apply remove_duplicate_fixed|].
  apply remove_duplicate_fixed, NoDup_remove_duplicate.
Qed.

Lemma filter_none {A : Type} (f : A -> bool) (l : list A) :
  (forall x, In x l -> f x = false) -> filter f l = [].
Proof.
  induction l as [|x l IH]; intros H; simpl; [reflexivity|].
  rewrite (H x) by (now left); apply IH; intros y Hy; apply H; now right.
Qed.

(** A complete answer needs no repair. *)
Lemma resolve_permutation_complete (permutation : str) (window : Z) (parsed : list Z) :
  parse_response (clean_response permutation) = Ok parsed ->
  Permutation parsed (range window) ->
  resolve_permutation permutation window = Ok parsed.
Proof.
  intros Hparse Hperm.
  unfold resolve_permutation; rewrite Hparse; cbn [bind].
  assert (Hnd : NoDup parsed)
    by (eapply Permutation_NoDup; [apply Permutation_sym, Hperm | apply NoDup_range]).
  rewrite (remove_duplicate_fixed parsed Hnd).
  assert (Hkept : filter (fun ss => mem ss (range window)) parsed = parsed).
  { apply forallb_filter_id, forallb_forall; intros x Hx.
    apply mem_In; eapply Permutation_in; eassumption. }
  rewrite Hkept.
  assert (Hrest : filter (fun tt => negb (mem tt parsed)) (range window) = []).
  { apply filter_none; intros x Hx.
    apply negb_false_iff, mem_In.
    eapply Permutation_in; [apply Permutation_sym, Hperm | exact Hx]. }
  now rewrite Hrest, app_nil_r.
Qed.

(** X3: an answer that already names every document of the window exactly
    once is used as it is: the repaired order is the parsed order. *)
Theorem resolve_permutation_keeps_complete_answer :
  forall (permutation : str) (window : Z) (parsed : list Z),
    parse_response (clean_response permutation) = Ok parsed ->
    Permutation parsed (range window) ->
    resolve_permutation permutation window = Ok parsed.
Proof. exact resolve_permutation_complete. Qed.

Lemma slice_decompose {A : Type} (l : list A) (start stop : Z) :
  l = firstn (Z.to_nat (adjust (len l) start)) l
      ++ slice l start stop
      ++ skipn (Z.to_nat (Z.max (adjust (len l) start) (adjust (len l) stop))) l.
Proof.
  unfold slice.
  set (a := adjust (len l) start); set (b := adjust (len l) stop).
  pose proof (adjust_bounds (len l) start (len_nonneg l)) as Ha.
  pose proof (adjust_bounds (len l) stop (len_nonneg l)) as Hb.
  fold a in Ha; fold b in Hb.
  rewrite <- (firstn_skipn (Z.to_nat a) l) at 1; f_equal.
  rewrite <- (firstn_skipn (Z.to_nat (b - a)) (skipn (Z.to_nat a) l)) at 1; f_equal.
  rewrite skipn_skipn; f_equal; lia.
Qed.

Lemma firstn_same_prefix {A : Type} (l r : list A) (n : nat) :
  length r = length l ->
  (forall i, (i < n)%nat -> nth_error r i = nth_error l i) ->
  firstn n r = firstn n l.
Proof.
  intros Hlen H; apply nth_error_ext; intros i.
  rewrite !nth_error_firstn.
  destruct (i <? n)%nat eqn:E; [|reflexivity].
  apply H; now apply Nat.ltb_lt.
Qed.

Lemma skipn_same_suffix {A : Type} (l r : list A) (n : nat) :
  (forall i, (n <= i)%nat -> nth_error r i = nth_error l i) ->
  skipn n r = skipn n l.
Proof.
  intros H; apply nth_error_ext; intros i.
  rewrite !nth_error_skipn; apply H; lia.
Qed.

(** A call that returns has converted the response. *)
Lemma receive_permutation_returned_parses (ranking r : list SearchResult)
  (permutation : str) (rank_start rank_end : Z) :
  receive_permutation ranking permutation rank_start rank_end = (r, Ok tt) ->
  parses permutation.
Proof.
  unfold receive_permutation, resolve_permutation, parses.
  destruct (parse_response (clean_response permutation)) as [parsed| |];
    cbn [bind]; [eauto | discriminate | discriminate].
Qed.

(** On a response it can convert, [receive_permutation] rearranges the
    whole list: nothing is lost or duplicated. *)
Lemma receive_permutation_whole_perm (ranking : list SearchResult)
  (permutation : str) (rank_start rank_end : Z) :
  0 <= rank_start ->
  parses permutation ->
  exists r,
    receive_permutation ranking permutation rank_start rank_end = (r, Ok tt) /\
    length r = length ranking /\
    Permutation (slice r rank_start rank_end) (slice ranking rank_start rank_end) /\
    Permutation r ranking.
Proof.
  intros Hs Hp.
  destruct (receive_permutation_permutes_window ranking permutation rank_start
              rank_end Hs Hp) as (r & Hr & Hlen & Hwin & Hframe).
  exists r; repeat split; try assumption.
  assert (Hlenz : len r = len ranking) by (unfold len; now rewrite Hlen).
  rewrite (slice_decompose r rank_start rank_end),
          (slice_decompose ranking rank_start rank_end), Hlenz.
  pose proof (adjust_bounds (len ranking) rank_start (len_nonneg ranking)) as Ha.
  pose proof (adjust_bounds (len ranking) rank_end (len_nonneg ranking)) as Hb.
  rewrite (firstn_same_prefix ranking r) by (auto; intros i Hi; apply Hframe; lia).
  rewrite (skipn_same_suffix ranking r) by (intros i Hi; apply Hframe; lia).
  apply Permutation_app_head, Permutation_app_tail, Hwin.
Qed.

(** X4: on every response it can convert and every window with a
    non-negative start, [receive_permutation] returns the list rearranged:
    the same documents, each as often as before, with the window holding a
    rearrangement of what it held. *)
Theorem receive_permutation_rearranges :
  forall (ranking : list SearchResult) (permutation : str) (rank_start rank_end : Z),
    0 <= rank_start ->
    parses permutation ->
    exists r,
      receive_permutation ranking permutation rank_start rank_end = (r, Ok tt) /\
      length r = length ranking /\
      Permutation (slice r rank_start rank_end) (slice ranking rank_start rank_end) /\
      Permutation r ranking.
Proof. exact receive_permutation_whole_perm. Qed.

(** X5: a start below [-len(ranking)] is clipped by the slice but not by
    the assignment: when the slice is not empty and the response converts,
    the first assignment raises [IndexError] and the list is left as it
    was. *)
Theorem receive_permutation_start_below_list :
  forall (ranking : list SearchResult) (permutation : str) (rank_start rank_end : Z),
    rank_start < - len ranking ->
    0 < adjust (len ranking) rank_end ->
    parses permutation ->
    receive_permutation ranking permutation rank_start rank_end
    = (ranking, Raise IndexError).
Proof.
  intros ranking permutation rank_start rank_end Hs He [parsed Hparsed].
  unfold receive_permutation.
  set (cut := slice ranking rank_start rank_end).
  assert (Hres : exists response, resolve_permutation permutation (len cut) = Ok response)
    by (unfold resolve_permutation; rewrite Hparsed; cbn [bind]; eauto).
  destruct Hres as [response Hres]; rewrite Hres.
  pose proof (resolve_permutation_perm _ _ _ Hres) as Hperm.
  pose proof (resolve_permutation_length _ _ _ Hres) as Hlen.
  pose proof (slice_length ranking rank_start rank_end) as Hcut; fold cut in Hcut.
  pose proof (len_nonneg ranking) as Hn.
  assert (Hcutpos : 0 < len cut).
  { rewrite Hcut; unfold adjust at 2.
    replace (rank_start <? 0) with true by lia; lia. }
  destruct response as [|x rest]; [simpl in Hlen; lia|].
  assert (Hx : 0 <= x < len cut)
    by (apply In_range; eapply Permutation_in; [exact Hperm | now left]).
  cbn [write_back].
  destruct (nth_error cut (Z.to_nat x)) as [doc|] eqn:Hdoc.
  2:{ apply nth_error_None in Hdoc; unfold len in Hx; exfalso; lia. }
  rewrite (getitem_nonneg _ _ _ (proj1 Hx) Hdoc); cbn [bind].
  unfold setitem, position.
  replace (0 + rank_start <? 0) with true by lia.
  replace ((0 <=? 0 + rank_start + len ranking) && _)%bool with false; [reflexivity|].
  symmetry; apply andb_false_iff; left; lia.
Qed.

End RepairMore.

(* ================================================================== *)
(** * Further properties of the request builders and of [compare] *)
(* ================================================================== *)

Section BuildersMore.

Import Listwise.

Variable encode_len : str -> Z.

Lemma Ok_injective {A : Type} (a b : A) : Ok a = Ok b -> a = b.
Proof. intros H; inversion H; reflexivity. Qed.

Lemma passages_length (max_length rank : Z) (docs : list SearchResult)
  (turns : list message) :
  passages max_length rank docs = Ok turns -> len turns = 2 * len docs.
Proof.
  revert rank turns; induction docs as [|doc docs IH]; intros rank turns; simpl.
  - intros H; inversion H; reflexivity.
  - unfold passage_turns; destruct (text doc); cbn [bind]; [|discriminate].
    destruct (passages max_length (rank + 1) docs) as [more| |] eqn:Hmore;
      cbn [bind]; try discriminate.
    intros H; inversion H; subst turns.
    specialize (IH _ _ Hmore); unfold len in *; simpl length; lia.
Qed.

Lemma passages_only_attribute_error (max_length rank : Z) (docs : list SearchResult) :
  (exists turns, passages max_length rank docs = Ok turns) \/
  passages max_length rank docs = Raise AttributeError.
Proof.
  revert rank; induction docs as [|doc docs IH]; intros rank; simpl; [eauto|].
  unfold passage_turns; destruct (text doc); cbn [bind]; [|auto].
  destruct (IH (rank + 1)) as [[more ->] | ->]; cbn [bind]; eauto.
Qed.

Lemma passages_missing_text (max_length rank : Z) (docs : list SearchResult) :
  (exists doc, In doc docs /\ text doc = None) ->
  passages max_length rank docs = Raise AttributeError.
Proof.
  revert rank; induction docs as [|doc docs IH]; intros rank (d & Hin & Hd);
    [destruct Hin|]; simpl.
  unfold passage_turns; destruct (text doc) eqn:E; cbn [bind]; [|reflexivity].
  destruct Hin as [-> | Hin]; [congruence|].
  rewrite IH by eauto; reflexivity.
Qed.

Lemma build_messages_shape (query : str) (docs : list SearchResult) (max_length : Z)
  (messages : list message) :
  build_messages query docs max_length = Ok messages ->
  len messages = 2 * len docs + 4 /\
  hd_error messages = hd_error (get_prefix_prompt query (len docs)) /\
  nth_error messages (Z.to_nat (2 * len docs + 3))
  = Some (mkMessage (lit "user") (get_post_prompt query (len docs))).
Proof.
  unfold build_messages.
  destruct (passages max_length 0 docs) as [turns| |] eqn:Hturns; cbn [bind];
    try discriminate.
  intros H; apply Ok_injective in H; subst messages.
  apply passages_length in Hturns.
  split; [|split].
  - unfold len in *; rewrite !length_app; simpl length; lia.
  - reflexivity.
  - replace (Z.to_nat (2 * len docs + 3)) with (3 + length turns)%nat
      by (unfold len in *; lia).
    cbn [get_prefix_prompt app Nat.add nth_error].
    rewrite nth_error_app2, Nat.sub_diag by lia; reflexivity.
Qed.

(** The loop returns nothing but a request built at a length not above the
    one it starts from and, with a model name, within the budget. *)
Lemma shrink_to_fit_post (query : str) (docs : list SearchResult) (name : str) :
  forall (fuel : nat) (max_length : Z) (messages : list message),
    shrink_to_fit encode_len fuel query docs (Some name) max_length = Ok messages ->
    num_tokens_from_messages encode_len messages name <= max_tokens name - 200 /\
    exists used, used <= max_length /\ build_messages query docs used = Ok messages.
Proof.
  induction fuel as [|fuel IH]; intros max_length messages; simpl; [discriminate|].
  destruct (build_messages query docs max_length) as [built| |] eqn:Hb; cbn [bind];
    try discriminate.
  destruct (_ <=? _) eqn:Hfit.
  - intros H; inversion H; subst messages; split; [lia|].
    exists max_length; split; [lia | exact Hb].
  - intros H; destruct (IH _ _ H) as (Hle & used & Hused & Hbuilt).
    split; [exact Hle|]; exists used; split; [lia | exact Hbuilt].
Qed.

End BuildersMore.

(** X6: whenever [create_permutation_instruction_chat] returns for a named
    model, the request it returns is estimated within
    [max_tokens(model) - 200]; it was built at some truncation length not
    above 300, and has the three framing messages, two turns per document and
    the closing instruction last. *)
Theorem create_permutation_instruction_chat_fits :
  forall (encode_len : str -> Z) (fuel : nat) (query : str) (docs : list SearchResult)
         (name : str) (messages : list Listwise.message),
    Listwise.create_permutation_instruction_chat encode_len fuel query docs (Some name)
    = Ok messages ->
    Listwise.num_tokens_from_messages encode_len messages name
    <= Listwise.max_tokens name - 200 /\
    (exists used, used <= 300 /\ Listwise.build_messages query docs used = Ok messages) /\
    len messages = 2 * len docs + 4 /\
    hd_error messages = hd_error (Listwise.get_prefix_prompt query (len docs)) /\
    nth_error messages (Z.to_nat (2 * len docs + 3))
    = Some (Listwise.mkMessage (lit "user") (Listwise.get_post_prompt query (len docs))).
Proof.
  intros encode_len fuel query docs name messages Hrun.
  apply shrink_to_fit_post in Hrun as (Hfit & used & Hused & Hbuilt).
  split; [exact Hfit|]; split; [eauto|].
  now apply (build_messages_shape query docs used).
Qed.

(** X7: a document without text makes both request builders raise
    [AttributeError], with or without a model name and wherever the document
    stands. *)
Theorem request_builders_need_text :
  forall (encode_len : str -> Z) (fuel : nat) (query : str) (docs : list SearchResult)
         (model_name : option str) (doc : SearchResult),
    In doc docs ->
    text doc = None ->
    Listwise.create_permutation_instruction_chat encode_len (S fuel) query docs model_name
    = Raise AttributeError /\
    Listwise.create_permutation_instruction_complete query docs = Raise AttributeError.
Proof.
  intros encode_len fuel query docs model_name doc Hin Hnone.
  split.
  - unfold Listwise.create_permutation_instruction_chat; simpl.
    unfold Listwise.build_messages.
    rewrite passages_missing_text by eauto; reflexivity.
  - unfold Listwise.create_permutation_instruction_complete.
    assert (H : forall rank, Listwise.complete_passages rank docs = Raise AttributeError).
    { clear -Hin Hnone; induction docs as [|d docs IH]; intros rank; [destruct Hin|].
      simpl; destruct (text d) eqn:E; [|reflexivity].
      destruct Hin as [-> | Hin]; [congruence|].
      rewrite IH by assumption; reflexivity. }
    rewrite H; reflexivity.
Qed.

(** X8: the completion prompt lists the passages exactly as the chat request
    built at 300 words does: for each document the content of its user turn,
    followed by a blank line. Both builders fail on the same documents. *)
Theorem complete_prompt_lists_chat_turns :
  forall (rank : Z) (docs : list SearchResult),
    Listwise.complete_passages rank docs
    = (turns <- Listwise.passages 300 rank docs ;;
       Ok (flat_map (fun m => if str_eqb (Listwise.role m) (lit "user")
                              then Listwise.content m ++ Listwise.newline ++ Listwise.newline
                              else [])
                    turns)).
Proof.
  intros rank docs; revert rank.
  induction docs as [|doc docs IH]; intros rank; simpl; [reflexivity|].
  unfold Listwise.passage_turns.
  destruct (text doc) as [content|]; cbn [bind]; [|reflexivity].
  rewrite IH.
  destruct (Listwise.passages 300 (rank + 1) docs) as [more| |]; cbn [bind];
    try reflexivity.
  cbn [app flat_map Listwise.role Listwise.content].
  replace (str_eqb (lit "user") (lit "user")) with true by reflexivity.
  replace (str_eqb (lit "assistant") (lit "user")) with false by reflexivity.
  cbn [app]; rewrite <- !app_assoc; reflexivity.
Qed.

(** X9: the estimate of a concatenated request is the sum of the estimates
    of its parts, the reply priming of three tokens counted once; and every
    request costs at least those three tokens when the tokenizer's counts are
    not negative. *)
Theorem num_tokens_of_concatenation :
  forall (encode_len : str -> Z) (name : str) (front back : list Listwise.message),
    Listwise.num_tokens_from_messages encode_len (front ++ back) name + 3
    = Listwise.num_tokens_from_messages encode_len front name
      + Listwise.num_tokens_from_messages encode_len back name /\
    ((forall s, 0 <= encode_len s) ->
     3 <= Listwise.num_tokens_from_messages encode_len front name).
Proof.
  intros encode_len name front back; split.
  - rewrite num_tokens_app; lia.
  - apply num_tokens_lower_bound.
Qed.

Section RequestLoopMore.

Import Listwise.

Variable chat_completion : nat -> list message -> api_reply.
Variable messages : list message.

(** X10: [compare] retries after every failure that is not a context-length
    failure and answers with the content of the first completion it gets,
    however many attempts failed before. *)
Theorem request_loop_returns_first_completion :
  forall (earlier attempt fuel : nat) (content : str),
    (forall a, (attempt <= a < attempt + earlier)%nat ->
               exists e, chat_completion a messages = Failure e /\
                         contains e context_length_marker = false) ->
    chat_completion (attempt + earlier)%nat messages = Completion content ->
    (earlier < fuel)%nat ->
    request_loop chat_completion fuel attempt messages = Ok content.
Proof.
  induction earlier as [|earlier IH]; intros attempt fuel content Hbefore Hdone Hfuel;
    (destruct fuel as [|fuel]; [lia|]); simpl.
  - rewrite Nat.add_0_r in Hdone; now rewrite Hdone.
  - destruct (Hbefore attempt) as (e & -> & ->); [lia|].
    apply IH; [| | lia].
    + intros a Ha; apply Hbefore; lia.
    + now replace (S attempt + earlier)%nat with (attempt + S earlier)%nat by lia.
Qed.

(** X11: the retry loop has no bound: when every attempt fails for another
    reason than the context length, [compare] neither returns nor raises,
    whatever the number of attempts it is allowed. *)
Theorem request_loop_retries_forever :
  forall (fuel attempt : nat),
    (forall a, exists e, chat_completion a messages = Failure e /\
                         contains e context_length_marker = false) ->
    request_loop chat_completion fuel attempt messages = Diverge.
Proof.
  induction fuel as [|fuel IH]; intros attempt Hfail; simpl; [reflexivity|].
  destruct (Hfail attempt) as (e & -> & ->).
  now apply IH.
Qed.

End RequestLoopMore.

(* ================================================================== *)
(** * Further properties of the listwise rerank *)
(* ================================================================== *)

Section ListwiseRerankMore.

Import Listwise.

Variable compare : str -> list SearchResult -> outcome str.
Variable window_size step_size num_repeat : Z.
Variable query : str.

Lemma returned_inv (m : mutated) (r : list SearchResult) :
  returned m = Ok r -> m = (r, Ok tt).
Proof.
  destruct m as [l [[]| |]]; unfold returned; simpl; intros H; inversion H; reflexivity.
Qed.

(** A window rewrite that returns has rearranged the list. *)
Lemma receive_permutation_returned_perm (ranking r : list SearchResult)
  (permutation : str) (rank_start rank_end : Z) :
  0 <= rank_start ->
  returned (receive_permutation ranking permutation rank_start rank_end) = Ok r ->
  Permutation r ranking.
Proof.
  intros Hs H; apply returned_inv in H.
  pose proof (receive_permutation_returned_parses _ _ _ _ _ H) as Hp.
  destruct (receive_permutation_whole_perm ranking permutation rank_start rank_end Hs Hp)
    as (r' & Hr' & _ & _ & Hperm).
  congruence.
Qed.

Lemma window_loop_perm :
  forall (fuel : nat) (ranking : list SearchResult) (start : Z) (visited : list Z)
         (r : list SearchResult) (v : list Z),
    window_loop compare window_size step_size fuel query ranking start visited
    = Ok (r, v) ->
    Permutation r ranking.
Proof.
  induction fuel as [|fuel IH]; intros ranking start visited r v; simpl; [discriminate|].
  destruct (0 <=? start) eqn:Hstart.
  - destruct (compare query _) as [text| |]; cbn [bind]; try discriminate.
    destruct (returned _) as [r1| |] eqn:Hr1; cbn [bind]; try discriminate.
    intros H; apply IH in H.
    etransitivity; [exact H|].
    eapply receive_permutation_returned_perm; [|exact Hr1]; lia.
  - intros H; inversion H; reflexivity.
Qed.

Lemma assign_scores_spec (ranking : list SearchResult) :
  forall i : Z,
    map (fun d => (docid d, text d)) (assign_scores i ranking)
    = map (fun d => (docid d, text d)) ranking /\
    forall (p : nat) (d : SearchResult),
      nth_error (assign_scores i ranking) p = Some d ->
      score d = inject_Z (- (i + Z.of_nat p)).
Proof.
  induction ranking as [|doc ranking IH]; intros i; simpl.
  - split; [reflexivity | intros [|p] d H; discriminate].
  - destruct (IH (i + 1)) as [Hmap Hscore]; split; [now rewrite Hmap|].
    intros [|p] d H; simpl in H.
    + inversion H; simpl; f_equal; lia.
    + rewrite (Hscore p d H); f_equal; lia.
Qed.

(** Passes over a list shorter than the window return it as it is, without
    a call of the oracle. *)
Lemma rerank_pass_short_list (fuel : nat) (ranking : list SearchResult) :
  len ranking < window_size ->
  rerank_pass compare window_size step_size (S fuel) query ranking = Ok (ranking, []).
Proof.
  intros H; unfold rerank_pass; simpl.
  now replace (0 <=? len ranking - window_size) with false by lia.
Qed.

(** With a stride that is not positive the window never moves towards the
    head of the list: from a non-negative start the loop does not end. *)
Lemma window_loop_stuck :
  step_size <= 0 ->
  (forall docs, exists text, compare query docs = Ok text /\ parses text) ->
  forall (fuel : nat) (ranking : list SearchResult) (start : Z) (visited : list Z),
    0 <= start ->
    window_loop compare window_size step_size fuel query ranking start visited = Diverge.
Proof.
  intros Hstep Horacle.
  induction fuel as [|fuel IH]; intros ranking start visited Hstart; simpl; [reflexivity|].
  replace (0 <=? start) with true by lia.
  destruct (Horacle (slice ranking start (start + window_size)))
    as (text & -> & Hparses); cbn [bind].
  destruct (receive_permutation_whole_perm ranking text start (start + window_size)
              Hstart Hparses) as (r & -> & _).
  unfold returned; cbn [snd fst bind].
  apply IH; lia.
Qed.

End ListwiseRerankMore.

(** X12: whenever the listwise rerank returns, whatever the oracle answered,
    it returns the candidates rearranged - every document once for each time
    it was given, with its docid and text - and scored [0, -1, -2, ...] in
    the order returned. *)
Theorem listwise_rerank_rearranges :
  forall (compare : str -> list SearchResult -> outcome str)
         (window_size step_size num_repeat : Z) (fuel : nat) (query : str)
         (ranking out : list SearchResult),
    Listwise.rerank compare window_size step_size num_repeat fuel query ranking = Ok out ->
    Permutation (map (fun d => (docid d, text d)) out)
                (map (fun d => (docid d, text d)) ranking) /\
    length out = length ranking /\
    forall (p : nat) (d : SearchResult),
      nth_error out p = Some d -> score d = inject_Z (- Z.of_nat p).
Proof.
  intros compare window_size step_size num_repeat fuel query ranking out.
  unfold Listwise.rerank.
  destruct (for_each _ _ _) as [final| |] eqn:Hloop; cbn [bind]; try discriminate.
  intros H; apply Ok_injective in H; subst out.
  assert (Hperm : Permutation final ranking).
  { revert Hloop.
    apply (for_each_invariant (fun current => Permutation current ranking));
      [|reflexivity].
    intros acc i acc' _ Hacc.
    destruct (Listwise.rerank_pass _ _ _ _ _ _) as [[r v]| |] eqn:Hpass; cbn [bind];
      try discriminate.
    intros H; apply Ok_injective in H; subst acc'; simpl.
    etransitivity; [|exact Hacc].
    eapply window_loop_perm; exact Hpass. }
  destruct (assign_scores_spec final 0) as [Hmap Hscore].
  split; [rewrite Hmap; now apply Permutation_map|].
  split.
  - rewrite <- (length_map (fun d => (docid d, text d))), Hmap, length_map.
    now apply Permutation_length.
  - intros p d Hd; rewrite (Hscore p d Hd); f_equal.
Qed.

(** X13: a candidate list shorter than the window is never reranked: the
    oracle is not consulted, whatever the stride and the number of repeats,
    and the candidates come back in their order, scored [0, -1, ...]. *)
Theorem listwise_rerank_skips_short_list :
  forall (compare : str -> list SearchResult -> outcome str)
         (window_size step_size num_repeat : Z) (fuel : nat) (query : str)
         (ranking : list SearchResult),
    len ranking < window_size ->
    Listwise.rerank compare window_size step_size num_repeat (S fuel) query ranking
    = Ok (Listwise.assign_scores 0 ranking).
Proof.
  intros compare window_size step_size num_repeat fuel query ranking Hshort.
  unfold Listwise.rerank.
  assert (Hloop : forall rounds : list Z,
             for_each rounds
               (fun ranking _ =>
                  r <- Listwise.rerank_pass compare window_size step_size (S fuel)
                         query ranking ;; Ok (fst r))
               ranking = Ok ranking).
  { induction rounds as [|x rounds IH]; cbn [for_each]; [reflexivity|].
    rewrite rerank_pass_short_list by assumption; cbn [bind fst]; exact IH. }
  rewrite Hloop; reflexivity.
Qed.

(** X14: a stride of zero or less keeps the window from ever reaching a
    negative start: with a window that fits the list, at least one repeat and
    an oracle whose answers can be converted, the rerank never returns. *)
Theorem listwise_rerank_needs_positive_stride :
  forall (compare : str -> list SearchResult -> outcome str)
         (window_size step_size num_repeat : Z) (fuel : nat) (query : str)
         (ranking : list SearchResult),
    step_size <= 0 ->
    window_size <= len ranking ->
    1 <= num_repeat ->
    (forall docs, exists text, compare query docs = Ok text /\ Listwise.parses text) ->
    Listwise.rerank compare window_size step_size num_repeat fuel query ranking = Diverge.
Proof.
  intros compare window_size step_size num_repeat fuel query ranking
         Hstep Hfit Hrepeat Horacle.
  unfold Listwise.rerank, range.
  destruct (Z.to_nat num_repeat) as [|n] eqn:E; [lia|].
  cbn [seq map for_each].
  unfold Listwise.rerank_pass.
  rewrite (window_loop_stuck compare window_size step_size query Hstep Horacle)
    by lia.
  reflexivity.
Qed.

(* ================================================================== *)
(** * When the budget loop ends *)
(* ================================================================== *)

Section BudgetEnds.

Import Listwise.

Variable encode_len : str -> Z.

(** If the request built some [steps] lengths below the current one fits,
    the loop returns within [steps + 1] rounds, with a request that fits. *)
Lemma shrink_to_fit_reaches_fit (query : str) (docs : list SearchResult) (name : str) :
  Forall (fun doc => text doc <> None) docs ->
  forall (steps : nat) (max_length : Z) (fuel : nat),
    (exists fitting,
        build_messages query docs (max_length - Z.of_nat steps) = Ok fitting /\
        num_tokens_from_messages encode_len fitting name <= max_tokens name - 200) ->
    (steps < fuel)%nat ->
    exists messages used,
      shrink_to_fit encode_len fuel query docs (Some name) max_length = Ok messages /\
      max_length - Z.of_nat steps <= used <= max_length /\
      build_messages query docs used = Ok messages /\
      num_tokens_from_messages encode_len messages name <= max_tokens name - 200.
Proof.
  intros Htext.
  induction steps as [|steps IH]; intros max_length fuel (fitting & Hbuild & Hfit) Hfuel;
    (destruct fuel as [|fuel]; [lia|]); cbn [shrink_to_fit].
  - rewrite Z.sub_0_r in Hbuild; rewrite Hbuild; cbn [bind].
    replace (_ <=? _) with true by lia.
    exists fitting, max_length; repeat split; try assumption; lia.
  - destruct (passages_built max_length docs Htext 0) as [turns Hturns].
    unfold build_messages at 1; rewrite Hturns; cbn [bind].
    destruct (_ <=? _) eqn:Hnow.
    + eexists; exists max_length; split; [reflexivity|].
      split; [lia|]; split; [|lia].
      unfold build_messages; rewrite Hturns; reflexivity.
    + destruct (IH (max_length - 1) fuel) as (messages & used & Hrun & Hused & Hb & Hf);
        [| lia |].
      * exists fitting; split; [|assumption].
        rewrite <- Hbuild; f_equal; lia.
      * exists messages, used; split; [exact Hrun|].
        split; [lia|]; split; assumption.
Qed.

End BudgetEnds.

(** X15: when every document has a text and the request built at some
    truncation length [300 - steps] is estimated within the budget
    [max_tokens(model) - 200], [create_permutation_instruction_chat] returns
    after at most [steps + 1] rounds of its loop, with a request that fits,
    built at a length between [300 - steps] and [300]. *)
Theorem create_permutation_instruction_chat_returns :
  forall (encode_len : str -> Z) (query : str) (docs : list SearchResult) (name : str)
         (steps fuel : nat) (fitting : list Listwise.message),
    Forall (fun doc => text doc <> None) docs ->
    Listwise.build_messages query docs (300 - Z.of_nat steps) = Ok fitting ->
    Listwise.num_tokens_from_messages encode_len fitting name
    <= Listwise.max_tokens name - 200 ->
    (steps < fuel)%nat ->
    exists messages used,
      Listwise.create_permutation_instruction_chat encode_len fuel query docs (Some name)
      = Ok messages /\
      300 - Z.of_nat steps <= used <= 300 /\
      Listwise.build_messages query docs used = Ok messages /\
      Listwise.num_tokens_from_messages encode_len messages name
      <= Listwise.max_tokens name - 200.
Proof.
  intros encode_len query docs name steps fuel fitting Htext Hbuild Hfit Hfuel.
  unfold Listwise.create_permutation_instruction_chat.
  apply shrink_to_fit_reaches_fit; eauto.
Qed.

(* ================================================================== *)
(** * Further properties of the pairwise strategies *)
(* ================================================================== *)

Section ForEachMore.

Context {A S : Type}.

Lemma for_each_app (body : S -> A -> outcome S) (xs ys : list A) (acc : S) :
  for_each (xs ++ ys) body acc = (acc <- for_each xs body acc ;; for_each ys body acc).
Proof.
  revert acc; induction xs as [|x xs IH]; intros acc; cbn [app for_each]; [reflexivity|].
  destruct (body acc x); cbn [bind]; auto.
Qed.

End ForEachMore.

Section BubbleSortMore.

Import Pairwise.

Variable judge : str -> str -> str * str.
Variable query : str.

Abbreviation cd := (fun doc : SearchResult => ComparableDoc.make (docid doc) (text doc)).
Abbreviation step := (fun arr j => bubble_step judge query arr j).

Lemma update_middle {A : Type} (pre post : list A) (x y : A) :
  update (pre ++ x :: post) (length pre) y = pre ++ y :: post.
Proof. induction pre as [|z pre IH]; simpl; congruence. Qed.

Lemma getitem_middle {A : Type} (pre post : list A) (x : A) :
  getitem (pre ++ x :: post) (len pre) = Ok x.
Proof.
  apply getitem_nonneg; [apply len_nonneg|].
  unfold len; rewrite Nat2Z.id, nth_error_app2, Nat.sub_diag by lia; reflexivity.
Qed.

Lemma setitem_middle {A : Type} (pre post : list A) (x y : A) :
  setitem (pre ++ x :: post) (len pre) y = Ok (pre ++ y :: post).
Proof.
  unfold setitem.
  rewrite position_nonneg by (unfold len; rewrite length_app; simpl length; lia).
  unfold len; now rewrite Nat2Z.id, update_middle.
Qed.

(** The body of the inner loop at position [length pre]: the neighbours are
    exchanged exactly when the model's first answer is ["Passage B"]. *)
Lemma bubble_step_middle (pre post : list ComparableDoc.t) (a b : ComparableDoc.t) :
  bubble_step judge query (pre ++ a :: b :: post) (len pre)
  = Ok (if str_eqb (fst (compare judge query (ComparableDoc.text a) (ComparableDoc.text b)))
                   (lit "Passage B")
        then pre ++ b :: a :: post
        else pre ++ a :: b :: post).
Proof.
  assert (Hnext : forall x : ComparableDoc.t, len pre + 1 = len (pre ++ [x])).
  { intros x; unfold len; rewrite length_app; simpl length; lia. }
  assert (Hsplit : forall x y : ComparableDoc.t,
             pre ++ x :: y :: post = (pre ++ [x]) ++ y :: post).
  { intros x y; rewrite <- app_assoc; reflexivity. }
  assert (Hb : getitem (pre ++ a :: b :: post) (len pre + 1) = Ok b).
  { rewrite (Hnext a), Hsplit; apply getitem_middle. }
  assert (Hs : setitem (pre ++ b :: b :: post) (len pre + 1) a = Ok (pre ++ b :: a :: post)).
  { rewrite (Hnext b), Hsplit, setitem_middle, <- app_assoc; reflexivity. }
  unfold bubble_step.
  rewrite getitem_middle, Hb; cbn [bind].
  destruct (str_eqb _ _); [|reflexivity].
  rewrite setitem_middle; cbn [bind]; exact Hs.
Qed.

(** The body of the inner loop raises when the position after [j] is past
    the end. *)
Lemma bubble_step_past_end (arr : list ComparableDoc.t) (j : Z) :
  0 <= j -> len arr <= j + 1 ->
  bubble_step judge query arr j = Raise IndexError.
Proof.
  intros Hj Hend; unfold bubble_step.
  assert (Hnext : getitem arr (j + 1) = Raise IndexError).
  { unfold getitem, position.
    replace (j + 1 <? 0) with false by lia.
    now replace ((0 <=? j + 1) && (j + 1 <? len arr))%bool with false by lia. }
  rewrite Hnext.
  destruct (getitem arr j) as [a| |] eqn:Ha; cbn [bind]; try reflexivity.
  - unfold getitem in Ha; destruct (position arr j) as [p|];
      [destruct (nth_error arr p)|]; inversion Ha; reflexivity.
  - unfold getitem in Ha; destruct (position arr j) as [p|];
      [destruct (nth_error arr p)|]; discriminate.
Qed.

Section Consistent.

(** A relevance of the texts that the model's first answer follows on the
    documents at hand. *)
Variable relevance : option str -> Z.
Variable docs : list ComparableDoc.t.
Hypothesis consistent :
  forall a b, In a docs -> In b docs ->
    (fst (compare judge query (ComparableDoc.text a) (ComparableDoc.text b))
     = lit "Passage B"
     <-> relevance (ComparableDoc.text a) < relevance (ComparableDoc.text b)).

Abbreviation rel := (fun d : ComparableDoc.t => relevance (ComparableDoc.text d)).

(** One pass of the inner loop carries the least relevant document of the
    stretch it runs over to the end of that stretch. *)
Lemma bubble_pass :
  forall (mid pre post : list ComparableDoc.t) (a : ComparableDoc.t),
    (forall x, In x (a :: mid) -> In x docs) ->
    exists (front : list ComparableDoc.t) (least : ComparableDoc.t),
      for_each (map Z.of_nat (seq (length pre) (length mid))) step
               (pre ++ a :: mid ++ post)
      = Ok (pre ++ front ++ least :: post) /\
      Permutation (front ++ [least]) (a :: mid) /\
      forall x, In x (a :: mid) -> rel least <= rel x.
Proof.
  induction mid as [|b mid IH]; intros pre post a Hdocs.
  - exists [], a; cbn [length seq map for_each app]; split; [reflexivity|].
    split; [reflexivity|].
    intros x [<- | []]; lia.
  - cbn [length seq map for_each app].
    fold (len pre); rewrite bubble_step_middle; cbn [bind].
    assert (Ha : In a docs) by (apply Hdocs; simpl; auto).
    assert (Hb : In b docs) by (apply Hdocs; simpl; auto).
    pose proof (consistent a b Ha Hb) as Hab.
    rewrite <- str_eqb_eq in Hab.
    destruct (str_eqb _ _).
    + assert (Hlt : rel a < rel b) by (apply Hab; reflexivity).
      destruct (IH (pre ++ [b]) post a) as (front & least & Hrun & Hperm & Hleast).
      { intros x Hx; apply Hdocs; simpl in *; tauto. }
      rewrite length_app, Nat.add_1_r, <- app_assoc in Hrun; cbn [app] in Hrun.
      exists (b :: front), least; split; [rewrite Hrun, <- app_assoc; reflexivity|].
      split.
      * cbn [app]; etransitivity; [apply perm_skip, Hperm | apply perm_swap].
      * intros x [<- | [<- | Hx]].
        -- apply Hleast; simpl; auto.
        -- specialize (Hleast a); cbv beta in *; simpl in Hleast.
           assert (rel least <= rel a) by auto; cbv beta in *; lia.
        -- apply Hleast; simpl; auto.
    + assert (Hge : rel b <= rel a).
      { destruct (Z.lt_ge_cases (rel a) (rel b)) as [H | H]; [|exact H].
        apply Hab in H; discriminate. }
      destruct (IH (pre ++ [a]) post b) as (front & least & Hrun & Hperm & Hleast).
      { intros x Hx; apply Hdocs; simpl in *; tauto. }
      rewrite length_app, Nat.add_1_r, <- app_assoc in Hrun; cbn [app] in Hrun.
      exists (a :: front), least; split; [rewrite Hrun, <- app_assoc; reflexivity|].
      split.
      * cbn [app]; apply perm_skip, Hperm.
      * intros x [<- | Hx].
        -- assert (rel least <= rel b) by (apply Hleast; simpl; auto).
           cbv beta in *; lia.
        -- apply Hleast, Hx.
Qed.

(** The outer loop, from the round at which [back] is already in place. *)
Lemma bubble_rounds :
  forall (n : nat) (front back : list ComparableDoc.t) (top : Z),
    length front = n ->
    top = len (front ++ back) ->
    (forall x, In x front -> In x docs) ->
    StronglySorted (fun x y => rel y <= rel x) back ->
    (forall x y, In x front -> In y back -> rel y <= rel x) ->
    exists sorted,
      for_each (map Z.of_nat (seq (length back) n))
        (fun arr i => for_each (range (top - i - 1)) step arr)
        (front ++ back)
      = Ok sorted /\
      Permutation sorted (front ++ back) /\
      StronglySorted (fun x y => rel y <= rel x) sorted.
Proof.
  induction n as [|n IH]; intros front back top Hn Htop Hdocs Hback Hcross.
  - destruct front; [|discriminate].
    exists back; cbn [seq map for_each app]; auto.
  - destruct front as [|a mid]; [discriminate|].
    injection Hn as Hn.
    cbn [seq map for_each].
    replace (range (top - Z.of_nat (length back) - 1))
      with (map Z.of_nat (seq (length (@nil ComparableDoc.t)) (length mid))).
    2:{ unfold range; do 2 f_equal.
        subst top; unfold len; rewrite length_app; simpl length; lia. }
    destruct (bubble_pass mid [] back a Hdocs) as (front' & least & Hrun & Hperm & Hleast).
    cbn [app] in Hrun |- *; rewrite Hrun; cbn [bind].
    assert (Hlen : length front' = n).
    { apply Permutation_length in Hperm.
      rewrite length_app in Hperm; simpl in Hperm; lia. }
    assert (Hin : forall x, In x (front' ++ [least]) -> In x (a :: mid)).
    { intros x; apply Permutation_in, Hperm. }
    destruct (IH front' (least :: back) top Hlen) as (sorted & Hsorted & Hp & Hs).
    + subst top; unfold len; rewrite !length_app; simpl length; lia.
    + intros x Hx; apply Hdocs, Hin, in_or_app; auto.
    + constructor; [exact Hback|].
      apply Forall_forall; intros y Hy; cbv beta.
      apply (Hcross least y); [|exact Hy].
      apply Hin, in_or_app; simpl; auto.
    + intros x y Hx [<- | Hy].
      * apply Hleast, Hin, in_or_app; auto.
      * apply Hcross; [|exact Hy].
        apply Hin, in_or_app; auto.
    + exists sorted; split; [exact Hsorted|]; split; [|exact Hs].
      etransitivity; [exact Hp|].
      change (least :: back) with ([least] ++ back).
      rewrite app_assoc.
      change (a :: mid ++ back) with ((a :: mid) ++ back).
      now apply Permutation_app_tail.
Qed.

End Consistent.

Lemma setslice_head {A : Type} (l new : list A) (stop : Z) :
  length new = length (slice l 0 stop) ->
  setslice l 0 stop new = new ++ skipn (length new) l.
Proof.
  intros Hnew.
  pose proof (slice_length l 0 stop) as Hs.
  pose proof (len_nonneg l) as Hn.
  pose proof (adjust_bounds (len l) stop Hn) as Hb.
  assert (H0 : adjust (len l) 0 = 0) by (unfold adjust; simpl; lia).
  rewrite H0 in Hs.
  unfold setslice; rewrite H0; cbn [Z.to_nat firstn app].
  do 2 f_equal; unfold len in *; lia.
Qed.

Lemma StronglySorted_map {A B : Type} (f : A -> B) (R : B -> B -> Prop) (l : list A) :
  StronglySorted R (map f l) -> StronglySorted (fun x y => R (f x) (f y)) l.
Proof.
  induction l as [|x l IH]; simpl; intros H; [constructor|].
  inversion H as [|? ? Hl Hx]; subst.
  constructor; [auto|].
  rewrite Forall_map in Hx; exact Hx.
Qed.

End BubbleSortMore.

(** X16: [bubblesort] only touches the first [k] positions. Whatever the
    model answers, when it returns the list holds the first [k] documents
    rearranged, each reduced to its docid with no text and the score [-i] of
    its position [i], followed by the other documents as they were, with
    their text and score. *)
Theorem bubblesort_rearranges_top :
  forall (judge : str -> str -> str * str) (query : str)
         (ranking out : list SearchResult) (k : Z),
    Pairwise.bubblesort judge query ranking k = Ok out ->
    exists top : list SearchResult,
      Permutation top (slice ranking 0 k) /\
      out = Pairwise.enumerate_results 0
              (map (fun doc => ComparableDoc.make (docid doc) (text doc)) top)
            ++ skipn (length top) ranking.
Proof.
  intros judge query ranking out k; unfold Pairwise.bubblesort.
  match goal with
  | |- bind ?c _ = _ -> _ => destruct c as [arr'| |] eqn:Hloops; cbn [bind]; try discriminate
  end.
  intros H; apply Ok_injective in H; subst out.
  apply bubble_loops_perm, Permutation_sym, Permutation_map_inv in Hloops.
  destruct Hloops as (top & -> & Hperm).
  exists top; split; [now apply Permutation_sym|].
  rewrite setslice_head.
  - now rewrite length_enumerate_results, length_map.
  - rewrite length_enumerate_results, length_map.
    symmetry; now apply Permutation_length.
Qed.

(** X17: [bubblesort] sorts the first [k] documents by descending relevance
    when the list has at least [k] documents and the model's first answer
    follows a relevance of their texts, naming ["Passage B"] exactly when the
    second passage is strictly more relevant than the first. [rerank] with
    the bubble strategy then returns their docids in that order, followed by
    the docids of the candidates that are not among them. *)
Theorem bubblesort_sorts_top :
  forall (judge : str -> str -> str * str) (generate : list str -> list str)
         (heappush : list (value * ComparableDoc.t) -> value * ComparableDoc.t
                     -> list (value * ComparableDoc.t))
         (heappop_nonempty : list (value * ComparableDoc.t)
                             -> (value * ComparableDoc.t) * list (value * ComparableDoc.t))
         (relevance : option str -> Z) (query : str)
         (ranking : list SearchResult) (k : Z),
    0 <= k <= len ranking ->
    (forall a b, In a (slice ranking 0 k) -> In b (slice ranking 0 k) ->
       (fst (Pairwise.compare judge query (text a) (text b)) = lit "Passage B"
        <-> relevance (text a) < relevance (text b))) ->
    exists sorted : list SearchResult,
      Permutation sorted (slice ranking 0 k) /\
      StronglySorted (fun a b => relevance (text b) <= relevance (text a)) sorted /\
      Pairwise.bubblesort judge query ranking k
      = Ok (Pairwise.enumerate_results 0
              (map (fun doc => ComparableDoc.make (docid doc) (text doc)) sorted)
            ++ skipn (Z.to_nat k) ranking) /\
      exists out,
        Pairwise.rerank judge generate heappush heappop_nonempty (lit "bubblesort") k
          query ranking = Ok out /\
        map docid out
        = map docid sorted
          ++ filter (fun id => negb (str_mem id (map docid sorted))) (map docid ranking).
Proof.
  intros judge generate heappush heappop_nonempty relevance query ranking k Hk Horacle.
  set (cd := fun doc : SearchResult => ComparableDoc.make (docid doc) (text doc)).
  set (top := slice ranking 0 k) in *.
  assert (Hlen : length top = Z.to_nat k).
  { pose proof (slice_length ranking 0 k) as Hs; fold top in Hs.
    unfold len, adjust in *; simpl in Hs.
    replace (k <? 0) with false in Hs by lia; lia. }
  destruct (bubble_rounds judge query relevance (map cd top)) with
    (n := Z.to_nat k) (front := map cd top) (back := @nil ComparableDoc.t) (top := k)
    as (arr' & Hrun & Hperm & Hsorted).
  - intros x y Hx Hy.
    apply in_map_iff in Hx as (a & <- & Ha).
    apply in_map_iff in Hy as (b & <- & Hb).
    apply (Horacle a b Ha Hb).
  - now rewrite length_map.
  - unfold len; rewrite app_nil_r, length_map; lia.
  - auto.
  - constructor.
  - intros x y _ [].
  - rewrite app_nil_r in Hrun, Hperm.
    apply Permutation_map_inv in Hperm as (sorted & -> & Hperm).
    assert (Hnew : length (Pairwise.enumerate_results 0 (map cd sorted)) = length top).
    { rewrite length_enumerate_results, length_map.
      symmetry; now apply Permutation_length. }
    assert (Hbubble : Pairwise.bubblesort judge query ranking k
                      = Ok (setslice ranking 0 k
                              (Pairwise.enumerate_results 0 (map cd sorted)))).
    { unfold Pairwise.bubblesort; fold top; fold cd.
      unfold range at 1; cbn [length] in Hrun; rewrite Hrun; reflexivity. }
    exists sorted; split; [now apply Permutation_sym|].
    split; [apply (StronglySorted_map cd) in Hsorted; exact Hsorted|].
    split.
    + rewrite Hbubble, setslice_head by exact Hnew.
      now rewrite Hnew, Hlen.
    + unfold Pairwise.rerank.
      replace (str_eqb (lit "bubblesort") (lit "allpair")) with false by reflexivity.
      replace (str_eqb (lit "bubblesort") (lit "heapsort")) with false by reflexivity.
      rewrite str_eqb_refl, Hbubble; cbn [bind].
      eexists; split; [reflexivity|].
      destruct (merge_results_spec
                  (setslice ranking 0 k (Pairwise.enumerate_results 0 (map cd sorted)))
                  ranking k) as [_ Hids].
      cbv zeta in Hids; rewrite Hids.
      destruct (slice_setslice ranking (Pairwise.enumerate_results 0 (map cd sorted)) k
                  Hnew) as [-> _].
      rewrite map_docid_enumerate_results, map_map; reflexivity.
Qed.

(** X18: [bubblesort] needs [k] candidates. With fewer than [k] of them and
    [k >= 2], the first pass of the inner loop indexes past the end of the
    list: [bubblesort], and [rerank] with the bubble strategy, raise
    [IndexError], whatever the model answers. *)
Theorem bubblesort_needs_k_candidates :
  forall (judge : str -> str -> str * str) (generate : list str -> list str)
         (heappush : list (value * ComparableDoc.t) -> value * ComparableDoc.t
                     -> list (value * ComparableDoc.t))
         (heappop_nonempty : list (value * ComparableDoc.t)
                             -> (value * ComparableDoc.t) * list (value * ComparableDoc.t))
         (query : str) (ranking : list SearchResult) (k : Z),
    len ranking < k ->
    2 <= k ->
    Pairwise.bubblesort judge query ranking k = Raise IndexError /\
    Pairwise.rerank judge generate heappush heappop_nonempty (lit "bubblesort") k
      query ranking
    = Raise IndexError.
Proof.
  intros judge generate heappush heappop_nonempty query ranking k Hshort Hk.
  assert (Hbubble : Pairwise.bubblesort judge query ranking k = Raise IndexError).
  { unfold Pairwise.bubblesort.
    set (arr := map _ (slice ranking 0 k)).
    assert (Harr : len arr <= len ranking).
    { unfold arr, len; rewrite length_map.
      pose proof (slice_length ranking 0 k) as Hs.
      unfold len, adjust in *; simpl in Hs.
      replace (k <? 0) with false in Hs by lia; lia. }
    pose proof (len_nonneg arr) as Hpos.
    set (last := Z.to_nat (Z.max 0 (len arr - 1))).
    assert (Hsplit : range (k - 0 - 1)
                     = range (Z.of_nat last)
                       ++ Z.of_nat last
                          :: map Z.of_nat (seq (S last) (Z.to_nat (k - 1) - S last))).
    { unfold range; rewrite Nat2Z.id.
      replace (Z.to_nat (k - 0 - 1)) with (last + S (Z.to_nat (k - 1) - S last))%nat
        by (unfold last; lia).
      rewrite seq_app, map_app; reflexivity. }
    unfold range at 1.
    destruct (Z.to_nat k) as [|n] eqn:E; [lia|].
    cbn [seq map for_each].
    change (Z.of_nat 0) with 0; rewrite Hsplit, for_each_app.
    destruct (for_each_total (fun current : list ComparableDoc.t => len current = len arr)
                (fun arr j => Pairwise.bubble_step judge query arr j)
                (range (Z.of_nat last)) arr) as (current & -> & Hcur);
      [| reflexivity |].
    - intros c j Hj Hc; apply In_range in Hj.
      destruct (bubble_step_total judge query c j) as (c' & -> & Hc');
        [lia | unfold last in Hj; lia |].
      exists c'; split; [reflexivity|].
      unfold len in *; lia.
    - cbn [bind for_each].
      rewrite bubble_step_past_end by (unfold last; lia).
      reflexivity. }
  split; [exact Hbubble|].
  unfold Pairwise.rerank.
  replace (str_eqb (lit "bubblesort") (lit "allpair")) with false by reflexivity.
  replace (str_eqb (lit "bubblesort") (lit "heapsort")) with false by reflexivity.
  rewrite str_eqb_refl, Hbubble; reflexivity.
Qed.

Section AllPairsMore.

Import Pairwise.

Lemma insert_desc_sorted (x : SearchResult) (l : list SearchResult) :
  StronglySorted (fun a b => (score b <= score a)%Q) l ->
  StronglySorted (fun a b => (score b <= score a)%Q) (insert_desc x l).
Proof.
  induction 1 as [|y l Hl IH Hy]; cbn [insert_desc].
  - repeat constructor.
  - destruct (Qle_bool (score y) (score x)) eqn:E.
    + apply Qle_bool_iff in E.
      constructor; [now constructor|].
      constructor; [exact E|].
      eapply Forall_impl; [|exact Hy].
      intros z Hz; cbv beta in *; eapply Qle_trans; eassumption.
    + assert (Hlt : (score x < score y)%Q).
      { apply Qnot_le_lt; intros H; apply Qle_bool_iff in H; congruence. }
      constructor; [exact IH|].
      apply Forall_forall; intros z Hz.
      apply (Permutation_in _ (insert_desc_perm x l)) in Hz as [<- | Hz].
      * now apply Qlt_le_weak.
      * rewrite Forall_forall in Hy; now apply Hy.
Qed.

Lemma sorted_by_score_sorted (l : list SearchResult) :
  StronglySorted (fun a b => (score b <= score a)%Q) (sorted_by_score l).
Proof.
  induction l as [|x l IH]; cbn [sorted_by_score fold_right]; [constructor|].
  now apply insert_desc_sorted.
Qed.

(** Every entry of the score table holds at least half a point. *)
Lemma dict_add_floor (scores : scores_dict) (key : str) (delta : Q) :
  (1 # 2 <= delta)%Q ->
  Forall (fun entry => (1 # 2 <= snd entry)%Q) scores ->
  Forall (fun entry => (1 # 2 <= snd entry)%Q) (dict_add scores key delta).
Proof.
  intros Hdelta; induction 1 as [|[k v] rest Hv Hrest IH]; cbn [dict_add].
  - constructor; [|constructor]; cbn [snd]; rewrite Qred_correct, Qplus_0_l; exact Hdelta.
  - destruct (str_eqb k key); constructor; auto.
    cbn [snd] in *; rewrite Qred_correct.
    apply Qle_trans with (0 + delta)%Q; [now rewrite Qplus_0_l|].
    apply Qplus_le_l, Qle_trans with (1 # 2)%Q; [easy | exact Hv].
Qed.

(** Every entry the scoring loop leaves holds at least half a point. *)
Lemma accumulate_scores_floor (doc_pairs : list (SearchResult * SearchResult))
  (outputs : list str) (scores : scores_dict) :
  accumulate_scores doc_pairs outputs = Ok scores ->
  Forall (fun entry => (1 # 2 <= snd entry)%Q) scores.
Proof.
  unfold accumulate_scores.
  apply (for_each_invariant
           (fun scores : scores_dict =>
              Forall (fun entry => (1 # 2 <= snd entry)%Q) scores)); [|constructor].
  intros acc i acc' _ Hacc; unfold score_pair.
  destruct (getitem doc_pairs (i / 2)); cbn [bind]; try discriminate.
  destruct (getitem _ i); cbn [bind]; try discriminate.
  destruct (getitem _ (i + 1)); cbn [bind]; try discriminate.
  destruct (_ && _)%bool;
    [intros H; apply Ok_injective in H; subst acc'; now apply dict_add_floor|].
  destruct (_ && _)%bool; intros H; apply Ok_injective in H; subst acc';
    repeat apply dict_add_floor; auto; easy.
Qed.

End AllPairsMore.

(** X19: the ranking the all-pairs strategy builds is in non-increasing order
    of score; its entries have no text, and each holds at least half a point,
    a document that won no comparison and tied none having no entry. *)
Theorem allpair_sorted_by_score :
  forall (generate : list str -> list str) (query : str)
         (ranking out : list SearchResult),
    Pairwise.allpair generate query ranking = Ok out ->
    StronglySorted (fun a b => (score b <= score a)%Q) out /\
    Forall (fun d => text d = None /\ (1 # 2 <= score d)%Q) out.
Proof.
  intros generate query ranking out; unfold Pairwise.allpair.
  destruct (Pairwise.accumulate_scores _ _) as [scores| |] eqn:Hacc; cbn [bind];
    try discriminate.
  intros H; apply Ok_injective in H; subst out.
  split; [apply sorted_by_score_sorted|].
  apply accumulate_scores_floor in Hacc as Hfloor.
  apply Forall_forall; intros d Hd.
  apply (Permutation_in _ (sorted_by_score_perm _)) in Hd.
  apply in_map_iff in Hd as (entry & <- & Hentry); cbn [text score].
  split; [reflexivity|].
  rewrite Forall_forall in Hfloor; now apply Hfloor.
Qed.

(** X20: for [n] candidates the all-pairs strategy sends the model
    [n * (n - 1)] prompts, two for each unordered pair. *)
Theorem allpair_prompt_count :
  forall (query : str) (ranking : list SearchResult),
    len (Pairwise.allpair_prompts query (Pairwise.combinations ranking))
    = len ranking * (len ranking - 1).
Proof.
  intros query ranking.
  rewrite length_allpair_prompts; apply length_combinations.
Qed.

(** X21: the heap strategy never ranks anything. [rerank] with method
    ["heapsort"] returns only for an empty candidate list and [k <= 0], and
    then returns the empty list. *)
Theorem rerank_heapsort_returns_only_nothing :
  forall (judge : str -> str -> str * str) (generate : list str -> list str)
         (heappush : list (value * ComparableDoc.t) -> value * ComparableDoc.t
                     -> list (value * ComparableDoc.t))
         (heappop_nonempty : list (value * ComparableDoc.t)
                             -> (value * ComparableDoc.t) * list (value * ComparableDoc.t))
         (k : Z) (query : str) (ranking out : list SearchResult),
    Pairwise.rerank judge generate heappush heappop_nonempty (lit "heapsort") k
      query ranking = Ok out
    <-> ranking = [] /\ k <= 0 /\ out = [].
Proof.
  intros judge generate heappush heappop_nonempty k query ranking out.
  unfold Pairwise.rerank.
  replace (str_eqb (lit "heapsort") (lit "allpair")) with false by reflexivity.
  rewrite str_eqb_refl.
  destruct ranking as [|d ranking].
  - assert (Hmerge : Pairwise.merge_results [] [] k = []).
    { unfold Pairwise.merge_results, slice; rewrite skipn_nil, firstn_nil; reflexivity. }
    unfold Pairwise.heapSort, range; cbn [map for_each bind].
    destruct (Z.to_nat k) as [|n] eqn:E; cbn [seq map for_each bind].
    + cbn [snd rev Pairwise.enumerate_results]; rewrite Hmerge.
      split; [intros H; apply Ok_injective in H; subst out|intros (_ & _ & ->); reflexivity].
      split; [reflexivity|]; split; [lia | reflexivity].
    + unfold Pairwise.heappop; cbn [fst bind].
      split; [discriminate | intros (_ & Hk & _); lia].
  - split; [|intros (H & _); discriminate].
    destruct (Pairwise.heapSort _ _ _ _ _) as [sorted| |] eqn:Hheap; cbn [bind];
      discriminate.
Qed.

(** X22: [rerank] neither loses nor invents a docid, also when docids
    repeat among the candidates: the docids of a returned list are those of
    the candidates. *)
Theorem rerank_keeps_docid_set :
  forall (judge : str -> str -> str * str) (generate : list str -> list str)
         (heappush : list (value * ComparableDoc.t) -> value * ComparableDoc.t
                     -> list (value * ComparableDoc.t))
         (heappop_nonempty : list (value * ComparableDoc.t)
                             -> (value * ComparableDoc.t) * list (value * ComparableDoc.t))
         (method : str) (k : Z) (query : str) (ranking out : list SearchResult),
    Pairwise.rerank judge generate heappush heappop_nonempty method k query ranking
    = Ok out ->
    forall id, In id (map docid out) <-> In id (map docid ranking).
Proof.
  intros judge generate heappush heappop_nonempty method k query ranking out Hrun.
  unfold Pairwise.rerank in Hrun.
  assert (Hgoal : forall reordered,
             incl (map docid (slice reordered 0 k)) (map docid ranking) ->
             Ok (Pairwise.merge_results reordered ranking k) = Ok out ->
             forall id, In id (map docid out) <-> In id (map docid ranking)).
  { intros reordered Hincl H id; apply Ok_injective in H; subst out.
    destruct (merge_results_spec reordered ranking k) as [_ Hids].
    cbv zeta in Hids; rewrite Hids, in_app_iff, filter_In.
    split; [intros [H | [H _]]; auto|].
    intros H.
    destruct (str_mem id (map docid (slice reordered 0 k))) eqn:E.
    - left; now apply str_mem_In.
    - right; auto. }
  destruct (str_eqb method (lit "allpair")).
  { destruct (Pairwise.allpair generate query ranking) as [reordered| |] eqn:Hall;
      cbn [bind] in Hrun; try discriminate.
    apply allpair_ids in Hall as [_ Hi].
    apply (Hgoal reordered); [|exact Hrun].
    intros x Hx; rewrite map_slice in Hx.
    apply Hi; eapply In_slice; exact Hx. }
  destruct (str_eqb method (lit "heapsort")).
  { destruct (Pairwise.heapSort _ _ _ _ _) as [sorted| |] eqn:Hheap;
      cbn [bind] in Hrun; try discriminate.
    apply heapSort_returns_nothing in Hheap as [_ ->].
    assert (Hs : slice (@nil SearchResult) 0 k = [])
      by (unfold slice; rewrite skipn_nil; apply firstn_nil).
    apply (Hgoal []); [rewrite Hs; intros x [] | exact Hrun]. }
  destruct (str_eqb method (lit "bubblesort")); [|discriminate].
  destruct (Pairwise.bubblesort judge query ranking k) as [reordered| |] eqn:Hbub;
    cbn [bind] in Hrun; try discriminate.
  apply bubblesort_top in Hbub as [Hperm _].
  apply (Hgoal reordered); [|exact Hrun].
  intros x Hx.
  apply Permutation_sym in Hperm.
  apply (Permutation_in _ Hperm) in Hx.
  rewrite map_slice in Hx; eapply In_slice; exact Hx.
Qed.

(* ================================================================== *)
(** * Answers in the requested format *)
(* ================================================================== *)

Section Numerals.

Lemma lit_String (c : ascii) (s : string) : lit (String c s) = N_of_ascii c :: lit s.
Proof. reflexivity. Qed.

Ltac digit_step :=
  cbn [NilEmpty.string_of_uint]; rewrite lit_String; cbn [digits_value];
  match goal with
  | |- context [decimal_value ?c] =>
      let v := eval vm_compute in (decimal_value c) in
      change (decimal_value c) with v
  end;
  cbv iota beta.

(** [int] reads a numeral from the left, as [Pos.of_uint_acc] does. *)
Lemma digits_value_uint_acc (d : Decimal.uint) :
  forall acc : positive,
    digits_value (Z.pos acc) (lit (NilEmpty.string_of_uint d))
    = Some (Z.pos (Pos.of_uint_acc d acc)).
Proof.
  induction d as [|d IH|d IH|d IH|d IH|d IH|d IH|d IH|d IH|d IH|d IH]; intros acc;
    [reflexivity | digit_step ..].
  - replace (10 * Z.pos acc + 0) with (Z.pos (10 * acc)) by lia; apply IH.
  - replace (10 * Z.pos acc + 1) with (Z.pos (1 + 10 * acc)) by lia; apply IH.
  - replace (10 * Z.pos acc + 2) with (Z.pos (2 + 10 * acc)) by lia; apply IH.
  - replace (10 * Z.pos acc + 3) with (Z.pos (3 + 10 * acc)) by lia; apply IH.
  - replace (10 * Z.pos acc + 4) with (Z.pos (4 + 10 * acc)) by lia; apply IH.
  - replace (10 * Z.pos acc + 5) with (Z.pos (5 + 10 * acc)) by lia; apply IH.
  - replace (10 * Z.pos acc + 6) with (Z.pos (6 + 10 * acc)) by lia; apply IH.
  - replace (10 * Z.pos acc + 7) with (Z.pos (7 + 10 * acc)) by lia; apply IH.
  - replace (10 * Z.pos acc + 8) with (Z.pos (8 + 10 * acc)) by lia; apply IH.
  - replace (10 * Z.pos acc + 9) with (Z.pos (9 + 10 * acc)) by lia; apply IH.
Qed.

Lemma digits_value_uint (d : Decimal.uint) :
  digits_value 0 (lit (NilEmpty.string_of_uint d)) = Some (Z.of_N (Pos.of_uint d)).
Proof.
  induction d as [|d IH|d IH|d IH|d IH|d IH|d IH|d IH|d IH|d IH|d IH];
    [reflexivity | digit_step; exact IH | digit_step; cbn [Pos.of_uint Z.of_N] ..];
    apply digits_value_uint_acc.
Qed.

Lemma uint_chars (d : Decimal.uint) :
  Forall (fun c => (48 <= c <= 57)%N) (lit (NilEmpty.string_of_uint d)).
Proof.
  induction d; cbn [NilEmpty.string_of_uint]; rewrite ?lit_String; constructor;
    try assumption; split; vm_compute; discriminate.
Qed.

Lemma ascii_digit (c : N) : (48 <= c <= 57)%N -> isdigit c = true /\ isspace c = false.
Proof.
  intros Hc.
  assert (Hd : isdigit c = true).
  { unfold isdigit, isdecimal; apply orb_true_iff; left.
    apply in_ranges_spec; exists 48%N, 57%N; split; [now left | exact Hc]. }
  split; [exact Hd | now apply isdigit_not_space].
Qed.

(** The decimal numeral of a natural number: a non-empty run of ASCII
    digits whose value is the number. *)
Lemma str_of_int_numeral (n : Z) :
  0 <= n ->
  str_of_int n <> [] /\
  Forall (fun c => isdigit c = true /\ isspace c = false) (str_of_int n) /\
  digits_value 0 (str_of_int n) = Some n.
Proof.
  intros Hn.
  assert (H : exists d, str_of_int n = lit (NilEmpty.string_of_uint d) /\
                        d <> Decimal.Nil /\ Z.of_N (Pos.of_uint d) = n).
  { destruct n as [|p|p]; [| |lia].
    - exists (Decimal.D0 Decimal.Nil); repeat split; discriminate.
    - exists (Pos.to_uint p).
      pose proof (DecimalPos.Unsigned.to_uint_nonnil p) as Hnil.
      split; [|split; [exact Hnil | now rewrite DecimalPos.Unsigned.of_to]].
      unfold str_of_int; cbn [Z.to_int NilZero.string_of_int NilZero.string_of_uint].
      destruct (Pos.to_uint p); [contradiction | reflexivity ..]. }
  destruct H as (d & -> & Hnil & Hvalue).
  split; [destruct d; [contradiction | discriminate ..]|].
  split; [|now rewrite digits_value_uint, Hvalue].
  eapply Forall_impl; [|apply uint_chars].
  intros c; apply ascii_digit.
Qed.

(** [int(str(n)) == n], within the interpreter's limit on the length of
    numerals. *)
Lemma int_str_of_int (n : Z) :
  0 <= n -> len (str_of_int n) <= int_max_str_digits -> int (str_of_int n) = Ok n.
Proof.
  intros Hn Hlen.
  destruct (str_of_int_numeral n Hn) as (Hne & _ & Hvalue).
  unfold int; destruct (str_of_int n) as [|c s] eqn:E; [contradiction|].
  fold (len (c :: s)); replace (_ <? _) with false by lia.
  now rewrite Hvalue.
Qed.

End Numerals.

Section Tokens.

Lemma split_from_blanks (blanks t : str) :
  Forall (fun c => isspace c = true) blanks ->
  split_from [] (blanks ++ t) = split_from [] t.
Proof.
  induction 1 as [|b blanks Hb _ IH]; cbn [app split_from]; [reflexivity|].
  now rewrite Hb.
Qed.

Lemma split_from_word (w t : str) (b : N) :
  isspace b = true ->
  Forall (fun c => isspace c = false) w ->
  forall word, w <> [] \/ word <> [] ->
    split_from word (w ++ b :: t) = (rev word ++ w) :: split_from [] t.
Proof.
  intros Hb; induction 1 as [|c w Hc _ IH]; intros word Hne; cbn [app split_from].
  - rewrite Hb, app_nil_r; destruct word; [destruct Hne; contradiction | reflexivity].
  - rewrite Hc, IH by (right; discriminate).
    cbn [rev]; now rewrite <- app_assoc.
Qed.

Lemma split_from_trailing (s blanks : str) :
  Forall (fun c => isspace c = true) blanks ->
  forall word, split_from word (s ++ blanks) = split_from word s.
Proof.
  intros Hblanks.
  assert (Hnone : split_from [] blanks = []).
  { rewrite <- (app_nil_r blanks), split_from_blanks by assumption; reflexivity. }
  induction s as [|c s IH]; intros word; cbn [app split_from].
  - destruct Hblanks as [|b blanks Hb Hrest]; [reflexivity|].
    cbn [split_from] in *; rewrite Hb in *; now rewrite Hnone.
  - destruct (isspace c); [destruct word|]; now rewrite IH.
Qed.

Lemma lstrip_decompose (s : str) :
  exists blanks, s = blanks ++ lstrip s /\ Forall (fun c => isspace c = true) blanks.
Proof.
  induction s as [|c s (blanks & IH & Hblanks)]; cbn [lstrip]; [now exists []|].
  destruct (isspace c) eqn:E; [|now exists []].
  exists (c :: blanks); split; [cbn [app]; congruence | now constructor].
Qed.

(** [split] does not see the blanks [strip] removes. *)
Lemma split_strip (s : str) : split (strip s) = split s.
Proof.
  unfold split, strip, rstrip.
  destruct (lstrip_decompose s) as (front & Hfront & Hf).
  destruct (lstrip_decompose (rev (lstrip s))) as (back & Hback & Hb).
  rewrite Hfront at 2; rewrite split_from_blanks by assumption.
  apply (f_equal (@rev N)) in Hback.
  rewrite rev_involutive, rev_app_distr in Hback.
  rewrite Hback at 2.
  rewrite split_from_trailing; [reflexivity|].
  apply Forall_rev; exact Hb.
Qed.

End Tokens.

Section RequestedFormat.

Import Listwise.

Abbreviation blanked := (map (fun c : N => if isdigit c then c else 32%N)).

Lemma blanked_label (i : Z) :
  0 <= i ->
  blanked (passage_label i) = 32%N :: str_of_int (i + 1) ++ [32%N].
Proof.
  intros Hi; unfold passage_label; rewrite !map_app.
  destruct (str_of_int_numeral (i + 1)) as (_ & Hchars & _); [lia|].
  rewrite (blanking_fixed (str_of_int (i + 1))); [reflexivity|].
  intros c Hc; left; rewrite Forall_forall in Hchars; now apply Hchars.
Qed.

Lemma blanked_separator (sep : str) :
  Forall (fun c => isdigit c = false) sep ->
  Forall (fun c => isspace c = true) (blanked sep).
Proof.
  induction 1 as [|c sep Hc _ IH]; cbn [map]; constructor; [|exact IH].
  now rewrite Hc.
Qed.

(** The tokens of an answer in the requested format are the numerals of its
    labels. *)
Lemma split_blanked_answer (sep : str) (order : list Z) :
  Forall (fun c => isdigit c = false) sep ->
  Forall (fun i => 0 <= i) order ->
  split (blanked (join sep (map passage_label order)))
  = map (fun i => str_of_int (i + 1)) order.
Proof.
  intros Hsep; unfold split.
  induction 1 as [|i rest Hi Hrest IH]; [reflexivity|].
  destruct (str_of_int_numeral (i + 1)) as (Hne & Hchars & _); [lia|].
  assert (Hword : Forall (fun c => isspace c = false) (str_of_int (i + 1))).
  { eapply Forall_impl; [|exact Hchars]; intros c [_ Hc]; exact Hc. }
  destruct rest as [|j rest].
  - cbn [map join]; rewrite blanked_label by assumption.
    cbn [split_from]; change (isspace 32) with true; cbv iota.
    rewrite split_from_word; [reflexivity | reflexivity | exact Hword | now left].
  - change (join sep (map passage_label (i :: j :: rest)))
      with (passage_label i ++ sep ++ join sep (map passage_label (j :: rest))).
    rewrite !map_app, blanked_label by assumption.
    cbn [app split_from]; change (isspace 32) with true; cbv iota.
    rewrite <- app_assoc; cbn [app].
    rewrite split_from_word; [| reflexivity | exact Hword | now left].
    rewrite split_from_blanks by now apply blanked_separator.
    exact (f_equal (cons (str_of_int (i + 1))) IH).
Qed.

Lemma parse_numerals (order : list Z) :
  Forall (fun i => 0 <= i /\ len (str_of_int (i + 1)) <= int_max_str_digits) order ->
  forall acc,
    for_each (map (fun i => str_of_int (i + 1)) order)
             (fun acc x => n <- int x ;; Ok (acc ++ [n - 1])) acc
    = Ok (acc ++ order).
Proof.
  induction 1 as [|i rest [Hi Hlen] _ IH]; intros acc; cbn [map for_each].
  - now rewrite app_nil_r.
  - rewrite int_str_of_int by (assumption || lia); cbn [bind].
    rewrite IH, <- app_assoc; cbn [app].
    now replace (i + 1 - 1) with i by lia.
Qed.

(** An answer in the requested format is converted to the order it
    announces. *)
Lemma parse_requested_format (sep : str) (order : list Z) :
  Forall (fun c => isdigit c = false) sep ->
  Forall (fun i => 0 <= i /\ len (str_of_int (i + 1)) <= int_max_str_digits) order ->
  parse_response (clean_response (join sep (map passage_label order))) = Ok order.
Proof.
  intros Hsep Horder.
  unfold parse_response, clean_response.
  rewrite split_strip, split_blanked_answer; [| exact Hsep |].
  - now rewrite parse_numerals.
  - eapply Forall_impl; [|exact Horder]; intros i [Hi _]; exact Hi.
Qed.

End RequestedFormat.

(** X23: an answer in the format the prompts ask for converts to the order
    it announces. For every separator without a digit ([" > "] as
    instructed, [">"] as the likelihood scoring joins its labels) and every
    list of passage indices whose labels stay within the interpreter's limit
    of 4300 digits, cleaning and converting the joined labels [[i+1]] gives
    back the indices. *)
Theorem answer_format_round_trip :
  forall (sep : str) (order : list Z),
    Forall (fun c => isdigit c = false) sep ->
    Forall (fun i => 0 <= i /\ len (str_of_int (i + 1)) <= int_max_str_digits) order ->
    Listwise.parse_response
      (Listwise.clean_response (join sep (map Listwise.passage_label order)))
    = Ok order.
Proof. exact parse_requested_format. Qed.

(** X24: [receive_permutation] applies the order an answer announces. When
    the answer labels every passage of a window inside the list exactly
    once, the document the answer ranks at place [p] is the one written at
    place [p] of the window, nothing outside the window changes, and the call
    returns. *)
Theorem receive_permutation_applies_answer :
  forall (ranking : list SearchResult) (sep : str) (order : list Z) (rank_start : Z),
    0 <= rank_start ->
    rank_start + len order <= len ranking ->
    Permutation order (range (len order)) ->
    Forall (fun c => isdigit c = false) sep ->
    Forall (fun i => len (str_of_int (i + 1)) <= int_max_str_digits) order ->
    exists r,
      Listwise.receive_permutation ranking (join sep (map Listwise.passage_label order))
        rank_start (rank_start + len order)
      = (r, Ok tt) /\
      length r = length ranking /\
      (forall (p : nat) (x : Z),
          nth_error order p = Some x ->
          nth_error r (Z.to_nat rank_start + p)
          = nth_error ranking (Z.to_nat (rank_start + x))) /\
      (forall i : nat,
          (Z.of_nat i < rank_start \/ rank_start + len order <= Z.of_nat i) ->
          nth_error r i = nth_error ranking i).
Proof.
  intros ranking sep order rank_start Hstart Hfit Hperm Hsep Hdigits.
  pose proof (len_nonneg order) as Hlen.
  assert (Hrange : forall x, In x order -> 0 <= x < len order).
  { intros x Hx; apply In_range; eapply Permutation_in; eassumption. }
  assert (Hwindow : len (slice ranking rank_start (rank_start + len order)) = len order).
  { rewrite slice_length; unfold adjust.
    replace (rank_start <? 0) with false by lia.
    replace (rank_start + len order <? 0) with false by lia; lia. }
  assert (Hparse : Listwise.parse_response
                     (Listwise.clean_response
                        (join sep (map Listwise.passage_label order))) = Ok order).
  { apply parse_requested_format; [exact Hsep|].
    apply Forall_forall; intros i Hi; split; [now apply Hrange|].
    rewrite Forall_forall in Hdigits; now apply Hdigits. }
  destruct (receive_permutation_ok ranking (join sep (map Listwise.passage_label order))
              rank_start (rank_start + len order) order Hstart)
    as (r & Hrun & Hr & Hin & Hout).
  { rewrite Hwindow; now apply resolve_permutation_complete. }
  exists r; split; [exact Hrun|]; split; [exact Hr|]; split; [|exact Hout].
  intros p x Hx; rewrite (Hin p x Hx).
  assert (Hx' : 0 <= x < len order) by (eapply Hrange, nth_error_In, Hx).
  rewrite slice_nth_error by (unfold len in *; lia).
  f_equal; unfold adjust.
  replace (rank_start <? 0) with false by lia; lia.
Qed.

(* ================================================================== *)
(** * The all-pairs strategy under consistent judgments *)
(* ================================================================== *)

Section DictGet.

Import Pairwise.

Lemma dict_get_dict_add (scores : scores_dict) (key : str) (delta : Q) (k : str) :
  (dict_get (dict_add scores key delta) k
   == dict_get scores k + (if str_eqb key k then delta else 0))%Q.
Proof.
  induction scores as [|[k0 v] rest IH]; cbn [dict_add dict_get].
  - destruct (str_eqb key k); [rewrite Qred_correct|]; ring.
  - destruct (str_eqb k0 key) eqn:E; cbn [dict_get].
    + apply str_eqb_eq in E; subst k0.
      destruct (str_eqb key k); [rewrite Qred_correct|]; ring.
    + destruct (str_eqb k0 k) eqn:E0; [|exact IH].
      apply str_eqb_eq in E0; subst k0.
      destruct (str_eqb key k) eqn:E1; [|ring].
      apply str_eqb_eq in E1; subst key.
      rewrite str_eqb_refl in E; discriminate.
Qed.

Lemma dict_get_absent (scores : scores_dict) (k : str) :
  ~ In k (map fst scores) -> dict_get scores k = 0%Q.
Proof.
  induction scores as [|[k0 v] rest IH]; cbn [dict_get map fst]; [reflexivity|].
  intros H; destruct (str_eqb k0 k) eqn:E.
  - apply str_eqb_eq in E; subst k0; exfalso; apply H; now left.
  - apply IH; intros Hin; apply H; now right.
Qed.

Lemma dict_get_entry (scores : scores_dict) (k : str) (v : Q) :
  NoDup (map fst scores) -> In (k, v) scores -> dict_get scores k = v.
Proof.
  induction scores as [|[k0 v0] rest IH]; cbn [dict_get map fst]; [easy|].
  intros Hnd [H | H]; inversion Hnd as [|? ? Hk Hrest]; subst.
  - inversion H; subst; now rewrite str_eqb_refl.
  - destruct (str_eqb k0 k) eqn:E; [|now apply IH].
    apply str_eqb_eq in E; subst k0.
    exfalso; apply Hk; change k with (fst (k, v)); now apply in_map.
Qed.

End DictGet.

Section Counting.

Context {A : Type}.

Lemma NoDup_map_inj {B : Type} (f : A -> B) (l : list A) (a b : A) :
  NoDup (map f l) -> In a l -> In b l -> f a = f b -> a = b.
Proof.
  induction l as [|x l IH]; cbn [map]; [easy|].
  intros Hnd Ha Hb E; inversion Hnd as [|? ? Hx Hl]; subst.
  destruct Ha as [-> | Ha], Hb as [-> | Hb]; auto.
  - exfalso; apply Hx; rewrite E; now apply in_map.
  - exfalso; apply Hx; rewrite <- E; now apply in_map.
Qed.

Lemma filter_length_le (f g : A -> bool) (l : list A) :
  (forall y, In y l -> f y = true -> g y = true) ->
  (length (filter f l) <= length (filter g l))%nat.
Proof.
  induction l as [|x l IH]; intros H; cbn [filter]; [lia|].
  assert (IH' : (length (filter f l) <= length (filter g l))%nat)
    by (apply IH; intros y Hy; apply H; now right).
  destruct (f x) eqn:Ef.
  - rewrite (H x) by (auto; now left); simpl; lia.
  - destruct (g x); simpl; lia.
Qed.

Lemma filter_length_lt (f g : A -> bool) (l : list A) (a : A) :
  (forall y, In y l -> f y = true -> g y = true) ->
  In a l -> f a = false -> g a = true ->
  (length (filter f l) < length (filter g l))%nat.
Proof.
  induction l as [|x l IH]; intros H Ha Hf Hg; [destruct Ha|]; cbn [filter].
  assert (Hle : (length (filter f l) <= length (filter g l))%nat)
    by (apply filter_length_le; intros y Hy; apply H; now right).
  destruct Ha as [-> | Ha].
  - rewrite Hf, Hg; simpl; lia.
  - assert (Hlt : (length (filter f l) < length (filter g l))%nat)
      by (apply IH; auto; intros y Hy; apply H; now right).
    destruct (f x) eqn:Ef.
    + rewrite (H x) by (auto; now left); simpl; lia.
    + destruct (g x); simpl; lia.
Qed.

Lemma filter_length_none (f : A -> bool) (l : list A) :
  (forall y, In y l -> f y = false) -> length (filter f l) = O.
Proof.
  induction l as [|x l IH]; intros H; cbn [filter]; [reflexivity|].
  rewrite (H x) by now left.
  apply IH; intros y Hy; apply H; now right.
Qed.

Lemma sorted_strengthen (R1 R2 : A -> A -> Prop) {B : Type} (key : A -> B) (l : list A) :
  StronglySorted R1 l ->
  NoDup (map key l) ->
  (forall a b, In a l -> In b l -> R1 a b -> key a <> key b -> R2 a b) ->
  StronglySorted R2 l.
Proof.
  induction 1 as [|x l Hl IH Hx]; intros Hnd H; [constructor|].
  cbn [map] in Hnd; inversion Hnd as [|? ? Hkey Hrest]; subst.
  constructor.
  - apply IH; [exact Hrest|].
    intros a b Ha Hb; apply H; now right.
  - rewrite Forall_forall in Hx |- *; intros y Hy.
    apply H; [now left | now right | now apply Hx |].
    intros E; apply Hkey; rewrite E; now apply in_map.
Qed.

End Counting.

Section ConsistentJudgments.

Import Pairwise.

Variable relevance : option str -> Z.

Abbreviation rel := (fun d : SearchResult => relevance (text d)).

(** The two outputs of a model that follows the relevance, for the two
    prompts of one pair. *)
Abbreviation verdict :=
  (fun docs : SearchResult * SearchResult =>
     if rel (snd docs) <? rel (fst docs)
     then [lit "Passage A"; lit "Passage B"]
     else [lit "Passage B"; lit "Passage A"]).

Abbreviation winner :=
  (fun docs : SearchResult * SearchResult =>
     if rel (snd docs) <? rel (fst docs) then fst docs else snd docs).

Lemma length_verdicts (doc_pairs : list (SearchResult * SearchResult)) :
  len (flat_map verdict doc_pairs) = 2 * len doc_pairs.
Proof.
  unfold len; induction doc_pairs as [|docs rest IH]; [reflexivity|].
  cbn [flat_map]; rewrite length_app; simpl length.
  destruct (_ <? _); simpl length; lia.
Qed.

(** The scoring loop over consistent outputs gives every pair's point to
    its more relevant document. *)
Lemma scoring_consistent :
  forall (todo done : list (SearchResult * SearchResult)) (scores : scores_dict),
    for_each (map (fun j => 2 * Z.of_nat j) (seq (length done) (length todo)))
      (score_pair (done ++ todo) (flat_map verdict (done ++ todo))) scores
    = Ok (fold_left (fun scores docs => dict_add scores (docid (winner docs)) 1)
                    todo scores).
Proof.
  induction todo as [|docs todo IH]; intros done scores; [reflexivity|].
  cbn [length seq map for_each fold_left].
  assert (Hround : score_pair (done ++ docs :: todo)
                     (flat_map verdict (done ++ docs :: todo)) scores
                     (2 * Z.of_nat (length done))
                   = Ok (dict_add scores (docid (winner docs)) 1)).
  { unfold score_pair.
    replace (2 * Z.of_nat (length done) / 2) with (len done)
      by (unfold len; rewrite Z.mul_comm, Z.div_mul; lia).
    rewrite getitem_middle; cbn [bind].
    rewrite flat_map_app; cbn [flat_map].
    pose proof (length_verdicts done) as Hlen.
    fold (len done); rewrite <- Hlen.
    destruct (rel (snd docs) <? rel (fst docs)); cbn [app].
    - rewrite getitem_middle; cbn [bind].
      replace (len (flat_map verdict done) + 1)
        with (len (flat_map verdict done ++ [lit "Passage A"]))
        by (unfold len; rewrite length_app; simpl length; lia).
      replace (flat_map verdict done ++ lit "Passage A" :: lit "Passage B"
                 :: flat_map verdict todo)
        with ((flat_map verdict done ++ [lit "Passage A"]) ++ lit "Passage B"
                 :: flat_map verdict todo)
        by (rewrite <- app_assoc; reflexivity).
      rewrite getitem_middle; reflexivity.
    - rewrite getitem_middle; cbn [bind].
      replace (len (flat_map verdict done) + 1)
        with (len (flat_map verdict done ++ [lit "Passage B"]))
        by (unfold len; rewrite length_app; simpl length; lia).
      replace (flat_map verdict done ++ lit "Passage B" :: lit "Passage A"
                 :: flat_map verdict todo)
        with ((flat_map verdict done ++ [lit "Passage B"]) ++ lit "Passage A"
                 :: flat_map verdict todo)
        by (rewrite <- app_assoc; reflexivity).
      rewrite getitem_middle; reflexivity. }
  rewrite Hround; cbn [bind].
  specialize (IH (done ++ [docs]) (dict_add scores (docid (winner docs)) 1)).
  rewrite length_app, Nat.add_1_r, <- app_assoc in IH; exact IH.
Qed.

Lemma accumulate_scores_consistent (doc_pairs : list (SearchResult * SearchResult)) :
  accumulate_scores doc_pairs (flat_map verdict doc_pairs)
  = Ok (fold_left (fun scores docs => dict_add scores (docid (winner docs)) 1)
                  doc_pairs []).
Proof.
  unfold accumulate_scores, range2.
  replace ((len (flat_map verdict doc_pairs) + 1) / 2) with (len doc_pairs).
  2:{ rewrite length_verdicts; apply Z.div_unique with (r := 1); unfold len; lia. }
  unfold len at 1; rewrite Nat2Z.id.
  exact (scoring_consistent doc_pairs [] []).
Qed.

(** The table holds for every docid the number of pairs it won. *)
Lemma wins_tally (k : str) :
  forall (doc_pairs : list (SearchResult * SearchResult)) (scores : scores_dict),
    (dict_get (fold_left (fun scores docs => dict_add scores (docid (winner docs)) 1)
                         doc_pairs scores) k
     == dict_get scores k
        + inject_Z (len (filter (fun docs => str_eqb (docid (winner docs)) k) doc_pairs)))%Q.
Proof.
  induction doc_pairs as [|docs rest IH]; intros scores; cbn [fold_left filter].
  - unfold len, inject_Z; simpl; ring.
  - rewrite IH, dict_get_dict_add.
    destruct (str_eqb (docid (winner docs)) k).
    + unfold len; simpl length; rewrite Nat2Z.inj_succ.
      unfold Z.succ; rewrite inject_Z_plus; ring.
    + ring.
Qed.

Lemma single_match (f : SearchResult -> bool) (d : SearchResult) (l : list SearchResult) :
  NoDup (map docid l) -> In d l ->
  length (filter (fun y => (f y && str_eqb (docid y) (docid d))%bool) l)
  = if f d then 1%nat else 0%nat.
Proof.
  induction l as [|x l IH]; cbn [map filter]; [easy|].
  intros Hnd Hd; inversion Hnd as [|? ? Hx Hl]; subst.
  destruct Hd as [-> | Hd].
  - rewrite str_eqb_refl, andb_true_r.
    assert (Hnone : length (filter (fun y => (f y && str_eqb (docid y) (docid d))%bool) l)
                    = O).
    { apply filter_length_none; intros y Hy.
      apply andb_false_iff; right.
      destruct (str_eqb (docid y) (docid d)) eqn:E; [|reflexivity].
      apply str_eqb_eq in E; exfalso; apply Hx; rewrite <- E; now apply in_map. }
    destruct (f d); simpl; lia.
  - assert (E : str_eqb (docid x) (docid d) = false).
    { destruct (str_eqb (docid x) (docid d)) eqn:E; [|reflexivity].
      apply str_eqb_eq in E; exfalso; apply Hx; rewrite E; now apply in_map. }
    rewrite E, andb_false_r; now apply IH.
Qed.

(** Among the pairs of a list without ties, a document wins against
    exactly the documents that are less relevant. *)
Lemma wins_count (l : list SearchResult) :
  NoDup (map docid l) ->
  NoDup (map rel l) ->
  (forall k, ~ In k (map docid l) ->
     length (filter (fun docs => str_eqb (docid (winner docs)) k) (combinations l)) = O) /\
  (forall d, In d l ->
     length (filter (fun docs => str_eqb (docid (winner docs)) (docid d)) (combinations l))
     = length (filter (fun y => rel y <? rel d) l)).
Proof.
  induction l as [|x l IH]; intros Hid Hrel; [split; [reflexivity | intros d []]|].
  cbn [map] in Hid, Hrel.
  inversion Hid as [|? ? Hx Hid']; inversion Hrel as [|? ? Hrx Hrel']; subst.
  destruct (IH Hid' Hrel') as [IHnone IHwins].
  assert (Hwinner : forall y, In y l -> In (docid (winner (x, y))) (map docid (x :: l))).
  { intros y Hy; cbn [fst snd]; destruct (_ <? _); [now left | right; now apply in_map]. }
  split.
  - intros k Hk; cbn [combinations].
    rewrite filter_app, length_app, IHnone by (intros H; apply Hk; now right).
    rewrite Nat.add_0_r; apply filter_length_none.
    intros docs Hdocs; apply in_map_iff in Hdocs as (y & <- & Hy).
    destruct (str_eqb _ k) eqn:E; [|reflexivity].
    apply str_eqb_eq in E; exfalso; apply Hk; rewrite <- E; now apply Hwinner.
  - intros d Hd; cbn [combinations].
    rewrite filter_app, length_app, filter_map_swap, length_map.
    destruct Hd as [-> | Hd].
    + rewrite IHnone by exact Hx.
      cbn [filter]; rewrite Z.ltb_irrefl, Nat.add_0_r.
      f_equal; apply filter_ext_in; intros y Hy; cbn [fst snd].
      destruct (rel y <? rel d); [apply str_eqb_refl|].
      destruct (str_eqb (docid y) (docid d)) eqn:E; [|reflexivity].
      apply str_eqb_eq in E; exfalso; apply Hx; rewrite <- E; now apply in_map.
    + rewrite (IHwins d Hd).
      assert (Hfirst : filter (fun y => str_eqb (docid (winner (x, y))) (docid d)) l
                       = filter (fun y => (negb (rel y <? rel x)
                                           && str_eqb (docid y) (docid d))%bool) l).
      { apply filter_ext_in; intros y Hy; cbn [fst snd].
        destruct (rel y <? rel x); cbn [negb andb]; [|reflexivity].
        destruct (str_eqb (docid x) (docid d)) eqn:E; [|reflexivity].
        apply str_eqb_eq in E; exfalso; apply Hx; rewrite E; now apply in_map. }
      rewrite Hfirst, (single_match _ d l Hid' Hd).
      assert (Hne : rel x <> rel d).
      { intros E; apply Hrx; rewrite E.
        exact (in_map (fun y => relevance (text y)) l d Hd). }
      cbn [filter].
      destruct (Z.ltb_spec (rel x) (rel d)), (Z.ltb_spec (rel d) (rel x)); cbn [negb];
        simpl length; cbv beta in *; lia.
Qed.

End ConsistentJudgments.

(** X25: the all-pairs strategy ranks by wins. For candidates with distinct
    docids and no two of the same relevance, and a model whose two outputs
    for every pair name the more relevant passage, the ranking it builds
    returns; a document has an entry exactly when some candidate is less
    relevant, its score is the number of candidates that are less relevant,
    and the entries stand in descending order of relevance. *)
Theorem allpair_ranks_by_wins :
  forall (generate : list str -> list str) (relevance : option str -> Z) (query : str)
         (ranking : list SearchResult),
    NoDup (map docid ranking) ->
    NoDup (map (fun d => relevance (text d)) ranking) ->
    generate (Pairwise.allpair_prompts query (Pairwise.combinations ranking))
    = flat_map (fun docs : SearchResult * SearchResult =>
                  if relevance (text (snd docs)) <? relevance (text (fst docs))
                  then [lit "Passage A"; lit "Passage B"]
                  else [lit "Passage B"; lit "Passage A"])
               (Pairwise.combinations ranking) ->
    exists out,
      Pairwise.allpair generate query ranking = Ok out /\
      (forall d, In d ranking ->
         (In (docid d) (map docid out)
          <-> exists y, In y ranking /\ relevance (text y) < relevance (text d))) /\
      (forall e d, In e out -> In d ranking -> docid e = docid d ->
         (score e
          == inject_Z (len (filter (fun y => relevance (text y) <? relevance (text d))
                                   ranking)))%Q) /\
      StronglySorted
        (fun a b => forall da db, In da ranking -> In db ranking ->
                                  docid da = docid a -> docid db = docid b ->
                                  relevance (text db) < relevance (text da))
        out.
Proof.
  intros generate relevance query ranking Hid Hrel Hgen.
  set (below := fun d : SearchResult =>
                  filter (fun y => relevance (text y) <? relevance (text d)) ranking).
  unfold Pairwise.allpair; rewrite Hgen.
  pose proof (accumulate_scores_consistent relevance (Pairwise.combinations ranking))
    as Hacc.
  cbv beta in Hacc.
  match type of Hacc with _ = Ok ?s => set (scores := s) in * end.
  rewrite Hacc; cbn [bind].
  destruct (accumulate_scores_keys ranking _ scores Hacc) as [Hkeys Hincl].
  pose proof (accumulate_scores_floor _ _ _ Hacc) as Hfloor.
  destruct (wins_count relevance ranking Hid Hrel) as [_ Hwins].
  assert (Hget : forall d, In d ranking ->
                   (Pairwise.dict_get scores (docid d) == inject_Z (len (below d)))%Q).
  { intros d Hd.
    pose proof (wins_tally relevance (docid d) (Pairwise.combinations ranking) []) as Ht.
    pose proof (Hwins d Hd) as Hw.
    cbv beta in Ht, Hw; fold scores in Ht.
    rewrite Ht; cbn [Pairwise.dict_get]; unfold len; rewrite Hw; unfold below; ring. }
  set (entries := map (fun entry : str * Q => mkSearchResult (fst entry) (snd entry) None)
                      scores).
  pose proof (sorted_by_score_perm entries) as Hperm.
  assert (Hentry : forall e, In e (Pairwise.sorted_by_score entries) ->
                     In (docid e, score e) scores).
  { intros e He; apply (Permutation_in _ Hperm) in He.
    apply in_map_iff in He as ([k v] & <- & Hkv); exact Hkv. }
  assert (Hscore : forall e d, In e (Pairwise.sorted_by_score entries) -> In d ranking ->
                     docid e = docid d -> (score e == inject_Z (len (below d)))%Q).
  { intros e d He Hd E.
    rewrite <- (Hget d Hd), <- E.
    rewrite (dict_get_entry scores (docid e) (score e) Hkeys (Hentry e He)); reflexivity. }
  assert (Hids : Permutation (map docid (Pairwise.sorted_by_score entries)) (map fst scores)).
  { etransitivity; [apply Permutation_map, Hperm|].
    unfold entries; rewrite map_map; cbn [docid]; reflexivity. }
  eexists; split; [reflexivity|]; split; [|split].
  - intros d Hd; split.
    + intros Hin; apply in_map_iff in Hin as (e & E & He).
      pose proof (Hscore e d He Hd E) as Hs.
      assert (Hhalf : (1 # 2 <= score e)%Q).
      { rewrite Forall_forall in Hfloor; apply (Hfloor _ (Hentry e He)). }
      rewrite Hs in Hhalf.
      destruct (below d) as [|y rest] eqn:Eb.
      * exfalso; revert Hhalf; unfold len, inject_Z, Qle; simpl; lia.
      * exists y.
        assert (Hy : In y (below d)) by (rewrite Eb; now left).
        apply filter_In in Hy as [Hy Hlt]; split; [exact Hy | lia].
    + intros (y & Hy & Hlt).
      apply (Permutation_in _ (Permutation_sym Hids)).
      destruct (in_dec (list_eq_dec N.eq_dec) (docid d) (map fst scores)) as [H | H];
        [exact H | exfalso].
      pose proof (Hget d Hd) as Hs.
      rewrite (dict_get_absent scores (docid d) H) in Hs.
      assert (Hin : In y (below d)) by (apply filter_In; split; [exact Hy | lia]).
      destruct (below d); [destruct Hin|].
      revert Hs; unfold len, inject_Z, Qeq; simpl; lia.
  - exact Hscore.
  - apply (sorted_strengthen (fun a b => (score b <= score a)%Q) _ docid).
    + apply sorted_by_score_sorted.
    + eapply Permutation_NoDup; [apply Permutation_sym, Hids | exact Hkeys].
    + intros a b Ha Hb Hle Hne da db Hda Hdb Ea Eb.
      rewrite (Hscore a da Ha Hda (eq_sym Ea)), (Hscore b db Hb Hdb (eq_sym Eb)) in Hle.
      rewrite <- Zle_Qle in Hle.
      destruct (Z.lt_trichotomy (relevance (text db)) (relevance (text da)))
        as [H | [H | H]]; [exact H | exfalso | exfalso].
      * apply Hne.
        rewrite <- Ea, <- Eb; f_equal.
        apply (NoDup_map_inj (fun d => relevance (text d)) ranking); auto.
      * assert (Hlt : (length (below da) < length (below db))%nat).
        { apply (filter_length_lt _ _ ranking da); [| exact Hda | | ].
          - intros y _ Hy; apply Z.ltb_lt in Hy; apply Z.ltb_lt; lia.
          - apply Z.ltb_irrefl.
          - now apply Z.ltb_lt. }
        unfold len in Hle; lia.
Qed.

(* ================================================================== *)
(** * Further concrete runs *)
(* ================================================================== *)

(** The answer ["[2] > [1] > [3]"] for a window of three. *)
Lemma resolve_permutation_keeps_complete_answer_witness :
  Listwise.resolve_permutation (lit "[2] > [1] > [3]") 3 = Ok [1; 0; 2].
Proof.
  apply (resolve_permutation_keeps_complete_answer (lit "[2] > [1] > [3]") 3 [1; 0; 2]).
  - vm_compute; reflexivity.
  - change (Permutation [1; 0; 2] [0; 1; 2]); apply perm_swap.
Defined.

(** The window [0, 2) of three candidates and the answer ["[2] > [1]"]. *)
Lemma receive_permutation_rearranges_witness :
  exists r,
    Listwise.receive_permutation Samples.three_docs (lit "[2] > [1]") 0 2 = (r, Ok tt) /\
    length r = length Samples.three_docs /\
    Permutation (slice r 0 2) (slice Samples.three_docs 0 2) /\
    Permutation r Samples.three_docs.
Proof.
  apply (receive_permutation_rearranges Samples.three_docs (lit "[2] > [1]") 0 2).
  - lia.
  - eexists; vm_compute; reflexivity.
Defined.

(** Three candidates and a window that starts at [-5]. *)
Lemma receive_permutation_start_below_list_witness :
  Listwise.receive_permutation Samples.three_docs (lit "[2] > [1]") (-5) 2
  = (Samples.three_docs, Raise IndexError).
Proof.
  apply (receive_permutation_start_below_list Samples.three_docs (lit "[2] > [1]") (-5) 2).
  - vm_compute; reflexivity.
  - vm_compute; reflexivity.
  - eexists; vm_compute; reflexivity.
Defined.

(** Three short candidates, one token per character: the request of ten
    messages fits at the first round. *)
Lemma create_permutation_instruction_chat_fits_witness :
  exists messages,
    Listwise.create_permutation_instruction_chat (fun s => len s) 1 []
      Samples.three_docs (Some (lit "gpt-3.5-turbo")) = Ok messages /\
    Listwise.num_tokens_from_messages (fun s => len s) messages (lit "gpt-3.5-turbo")
    <= Listwise.max_tokens (lit "gpt-3.5-turbo") - 200 /\
    len messages = 10.
Proof.
  eexists; split; [vm_compute; reflexivity|].
  destruct (create_permutation_instruction_chat_fits (fun s => len s) 1 []
              Samples.three_docs (lit "gpt-3.5-turbo") _ eq_refl)
    as (Hfit & _ & Hlen & _).
  split; [exact Hfit | exact Hlen].
Defined.

(** A candidate without text behind one with a text. *)
Lemma request_builders_need_text_witness :
  Listwise.create_permutation_instruction_chat (fun s => len s) 1 []
    [Samples.doc "a"; Samples.no_text] (Some (lit "gpt-3.5-turbo"))
  = Raise AttributeError /\
  Listwise.create_permutation_instruction_complete [] [Samples.doc "a"; Samples.no_text]
  = Raise AttributeError.
Proof.
  apply (request_builders_need_text (fun s => len s) 0 []
           [Samples.doc "a"; Samples.no_text] (Some (lit "gpt-3.5-turbo"))
           Samples.no_text).
  - right; left; reflexivity.
  - reflexivity.
Defined.

(** Two rate-limited attempts and then an answer. *)
Lemma request_loop_returns_first_completion_witness :
  Listwise.request_loop Samples.flaky 3 0 [] = Ok (lit "[2] > [1]").
Proof.
  apply (request_loop_returns_first_completion Samples.flaky [] 2 0 3 (lit "[2] > [1]")).
  - intros a Ha; exists (lit "Rate limit reached").
    destruct a as [|[|a]]; [split; reflexivity | split; reflexivity | lia].
  - reflexivity.
  - lia.
Defined.

(** An API that is always rate limited, allowed five attempts. *)
Lemma request_loop_retries_forever_witness :
  Listwise.request_loop Samples.rate_limited 5 0 [] = Diverge.
Proof.
  apply (request_loop_retries_forever Samples.rate_limited [] 5 0).
  intros a; exists (lit "Rate limit reached"); split; reflexivity.
Defined.

(** Three candidates, window 2 and stride 1, an oracle that always puts the
    second passage of the window first. *)
Lemma listwise_rerank_rearranges_witness :
  exists out,
    Listwise.rerank Samples.second_first 2 1 1 10 [] Samples.three_docs = Ok out /\
    Permutation (map (fun d => (docid d, text d)) out)
                (map (fun d => (docid d, text d)) Samples.three_docs) /\
    length out = length Samples.three_docs.
Proof.
  eexists; split; [vm_compute; reflexivity|].
  destruct (listwise_rerank_rearranges Samples.second_first 2 1 1 10 []
              Samples.three_docs _ eq_refl) as (Hperm & Hlen & _).
  split; [exact Hperm | exact Hlen].
Defined.

(** Three candidates and a window of four. *)
Lemma listwise_rerank_skips_short_list_witness :
  Listwise.rerank Samples.second_first 4 2 1 1 [] Samples.three_docs
  = Ok (Listwise.assign_scores 0 Samples.three_docs).
Proof.
  apply (listwise_rerank_skips_short_list Samples.second_first 4 2 1 0 []
           Samples.three_docs).
  vm_compute; reflexivity.
Defined.

(** Three candidates, window 2 and stride 0. *)
Lemma listwise_rerank_needs_positive_stride_witness :
  Listwise.rerank Samples.second_first 2 0 1 5 [] Samples.three_docs = Diverge.
Proof.
  apply (listwise_rerank_needs_positive_stride Samples.second_first 2 0 1 5 []
           Samples.three_docs).
  - lia.
  - vm_compute; discriminate.
  - lia.
  - intros docs; exists (lit "[2] > [1]"); split; [reflexivity|].
    eexists; vm_compute; reflexivity.
Defined.

(** Three short candidates, one token per character: the request built at
    300 words fits. *)
Lemma create_permutation_instruction_chat_returns_witness :
  exists messages used,
    Listwise.create_permutation_instruction_chat (fun s => len s) 1 []
      Samples.three_docs (Some (lit "gpt-3.5-turbo")) = Ok messages /\
    300 - Z.of_nat 0 <= used <= 300 /\
    Listwise.build_messages [] Samples.three_docs used = Ok messages /\
    Listwise.num_tokens_from_messages (fun s => len s) messages (lit "gpt-3.5-turbo")
    <= Listwise.max_tokens (lit "gpt-3.5-turbo") - 200.
Proof.
  eapply (create_permutation_instruction_chat_returns (fun s => len s) []
            Samples.three_docs (lit "gpt-3.5-turbo") 0 1).
  - repeat constructor; discriminate.
  - reflexivity.
  - vm_compute; discriminate.
  - lia.
Defined.

(** Three candidates, [k = 2] and a model that always prefers the second
    passage. *)
Lemma bubblesort_rearranges_top_witness :
  exists top : list SearchResult,
    Permutation top (slice Samples.three_docs 0 2) /\
    [ mkSearchResult (lit "b") (inject_Z (- 0)) None;
      mkSearchResult (lit "a") (inject_Z (- (0 + 1))) None;
      Samples.doc "c" ]
    = Pairwise.enumerate_results 0
        (map (fun doc => ComparableDoc.make (docid doc) (text doc)) top)
      ++ skipn (length top) Samples.three_docs.
Proof.
  apply (bubblesort_rearranges_top Samples.prefers_second [] Samples.three_docs _ 2).
  reflexivity.
Defined.

(** Three candidates in ascending order of relevance and [k = 3]: the list
    is reversed. *)
Lemma bubblesort_sorts_top_witness :
  Pairwise.bubblesort Samples.prefers_later [] Samples.three_docs 3
  = Ok [ mkSearchResult (lit "c") (inject_Z (- 0)) None;
         mkSearchResult (lit "b") (inject_Z (- (0 + 1))) None;
         mkSearchResult (lit "a") (inject_Z (- (0 + 1 + 1))) None ] /\
  exists sorted : list SearchResult,
    Permutation sorted (slice Samples.three_docs 0 3) /\
    StronglySorted
      (fun a b => Samples.last_code_point (text b) <= Samples.last_code_point (text a))
      sorted /\
    Pairwise.bubblesort Samples.prefers_later [] Samples.three_docs 3
    = Ok (Pairwise.enumerate_results 0
            (map (fun doc => ComparableDoc.make (docid doc) (text doc)) sorted)
          ++ skipn (Z.to_nat 3) Samples.three_docs) /\
    exists out,
      Pairwise.rerank Samples.prefers_later Samples.always_a Samples.push_front
        Samples.pop_front (lit "bubblesort") 3 [] Samples.three_docs = Ok out /\
      map docid out
      = map docid sorted
        ++ filter (fun id => negb (str_mem id (map docid sorted)))
                  (map docid Samples.three_docs).
Proof.
  split; [reflexivity|].
  apply (bubblesort_sorts_top Samples.prefers_later Samples.always_a Samples.push_front
           Samples.pop_front Samples.last_code_point [] Samples.three_docs 3).
  - vm_compute; split; discriminate.
  - change (slice Samples.three_docs 0 3) with Samples.three_docs.
    unfold Samples.three_docs.
    intros a b [<- | [<- | [<- | []]]] [<- | [<- | [<- | []]]];
      vm_compute; split; intros H; solve [reflexivity | discriminate H].
Defined.

(** Three candidates and the default [k = 10]. *)
Lemma bubblesort_needs_k_candidates_witness :
  Pairwise.bubblesort Samples.prefers_second [] Samples.three_docs 10
  = Raise IndexError /\
  Pairwise.rerank Samples.prefers_second Samples.always_a Samples.push_front
    Samples.pop_front (lit "bubblesort") 10 [] Samples.three_docs
  = Raise IndexError.
Proof.
  apply (bubblesort_needs_k_candidates Samples.prefers_second Samples.always_a
           Samples.push_front Samples.pop_front [] Samples.three_docs 10).
  - vm_compute; reflexivity.
  - lia.
Defined.

(** Three candidates, every double judgment a conflict: each holds one
    point. *)
Lemma allpair_sorted_by_score_witness :
  exists out,
    Pairwise.allpair Samples.always_a [] Samples.three_docs = Ok out /\
    StronglySorted (fun a b => (score b <= score a)%Q) out /\
    Forall (fun d => text d = None /\ (1 # 2 <= score d)%Q) out.
Proof.
  eexists; split; [vm_compute; reflexivity|].
  exact (allpair_sorted_by_score Samples.always_a [] Samples.three_docs _ eq_refl).
Defined.

(** Two candidates with the same docid under the bubble strategy. *)
Lemma rerank_keeps_docid_set_witness :
  exists out,
    Pairwise.rerank Samples.prefers_second Samples.always_a Samples.push_front
      Samples.pop_front (lit "bubblesort") 2 []
      [Samples.doc "a"; Samples.doc "a"; Samples.doc "c"] = Ok out /\
    forall id, In id (map docid out)
               <-> In id (map docid [Samples.doc "a"; Samples.doc "a"; Samples.doc "c"]).
Proof.
  eexists; split; [vm_compute; reflexivity|].
  exact (rerank_keeps_docid_set Samples.prefers_second Samples.always_a
           Samples.push_front Samples.pop_front (lit "bubblesort") 2 []
           [Samples.doc "a"; Samples.doc "a"; Samples.doc "c"] _ eq_refl).
Defined.

(** The answer ["[2] > [1] > [3]"]. *)
Lemma answer_format_round_trip_witness :
  join (lit " > ") (map Listwise.passage_label [1; 0; 2]) = lit "[2] > [1] > [3]" /\
  Listwise.parse_response (Listwise.clean_response (lit "[2] > [1] > [3]"))
  = Ok [1; 0; 2].
Proof.
  split; [reflexivity|].
  apply (answer_format_round_trip (lit " > ") [1; 0; 2]).
  - repeat (apply Forall_cons; [reflexivity|]); apply Forall_nil.
  - repeat (apply Forall_cons; [split; [lia | vm_compute; discriminate]|]);
      apply Forall_nil.
Defined.

(** Three candidates and the answer ["[2] > [1] > [3]"] for the whole
    list. *)
Lemma receive_permutation_applies_answer_witness :
  exists r,
    Listwise.receive_permutation Samples.three_docs
      (join (lit " > ") (map Listwise.passage_label [1; 0; 2])) 0 (0 + len [1; 0; 2])
    = (r, Ok tt) /\
    length r = length Samples.three_docs /\
    (forall (p : nat) (x : Z),
        nth_error [1; 0; 2] p = Some x ->
        nth_error r (Z.to_nat 0 + p) = nth_error Samples.three_docs (Z.to_nat (0 + x))) /\
    (forall i : nat,
        (Z.of_nat i < 0 \/ 0 + len [1; 0; 2] <= Z.of_nat i) ->
        nth_error r i = nth_error Samples.three_docs i).
Proof.
  apply (receive_permutation_applies_answer Samples.three_docs (lit " > ") [1; 0; 2] 0).
  - lia.
  - vm_compute; discriminate.
  - change (Permutation [1; 0; 2] [0; 1; 2]); apply perm_swap.
  - repeat (apply Forall_cons; [reflexivity|]); apply Forall_nil.
  - repeat (apply Forall_cons; [vm_compute; discriminate|]); apply Forall_nil.
Defined.

(** Three candidates in ascending order of relevance: ["c"] wins twice,
    ["b"] once, and ["a"], which wins nothing, has no entry. *)
Lemma allpair_ranks_by_wins_witness :
  Pairwise.allpair Samples.batch_prefers_later [] Samples.three_docs
  = Ok [ mkSearchResult (lit "c") 2 None; mkSearchResult (lit "b") 1 None ] /\
  exists out,
    Pairwise.allpair Samples.batch_prefers_later [] Samples.three_docs = Ok out /\
    (forall d, In d Samples.three_docs ->
       (In (docid d) (map docid out)
        <-> exists y, In y Samples.three_docs /\
                      Samples.last_code_point (text y) < Samples.last_code_point (text d))) /\
    (forall e d, In e out -> In d Samples.three_docs -> docid e = docid d ->
       (score e
        == inject_Z (len (filter (fun y => Samples.last_code_point (text y)
                                           <? Samples.last_code_point (text d))
                                 Samples.three_docs)))%Q) /\
    StronglySorted
      (fun a b => forall da db, In da Samples.three_docs -> In db Samples.three_docs ->
                                docid da = docid a -> docid db = docid b ->
                                Samples.last_code_point (text db)
                                < Samples.last_code_point (text da))
      out.
Proof.
  split; [vm_compute; reflexivity|].
  apply (allpair_ranks_by_wins Samples.batch_prefers_later Samples.last_code_point []
           Samples.three_docs).
  - repeat constructor; simpl; intuition discriminate.
  - change (NoDup [97; 98; 99]); repeat constructor; simpl; intuition discriminate.
  - vm_compute; reflexivity.
Defined.
